(** * The asynchronous grid-output queue of [openvdb/io/Queue.cc]

    A shallow embedding of [Queue::Impl], of the [Task] / [OutputTask]
    pair and of the public [Queue] operations, followed by the properties
    of the queue that are settled against it.

    Conventions of the embedding.
    - [Index32] and [Int32] values are integers of [Z]; every increment and
      decrement is written with its wrap-around.
    - The status map (a hash map in both build configurations) is a [gmap];
      the notifier map is a [std::map], i.e. a finite map that is traversed
      in ascending key order: it is a [gmap] together with the traversal
      [in_key_order].
    - Code that can [throw] lives in a state-and-exception monad [M] over
      the [World]: the queue's private implementation, the tasks handed to
      the TBB scheduler and not run yet, and a chronological trace of the
      externally visible actions (sleeps, archive writes, log lines,
      completion callbacks, client notifier calls).
    - [#ifdef OPENVDB_USE_TBB] is the [Backend] argument.
    - Client notifiers and archives are opaque to the queue.  A notifier
      call is recorded in the trace; notifiers are taken to return
      normally and not to re-enter the queue (the source documents that
      re-entering deadlocks).  An archive write is a function that either
      returns or raises.  What a callback that throws does to a
      completion is settled apart, on the definitions [call_each_throwing],
      [setStatusWithNotification_throwing], [notify_throwing] and
      [execute_throwing], which follow the same source lines with
      callbacks that may throw and agree with the others when every
      callback returns.
    - Worker threads are interleaved with the caller at the granularity of
      whole operations: a worker runs a scheduled task to completion either
      between two calls of the client or while the client sleeps in the
      admission loop.

    The last part of the file is about what the queue is built beside:
    [ShortestFittingInt], the [BlockedRange] class and the [Combinable]
    class of [openvdb/Types.h], [OPENVDB_FOR_EACH] of [openvdb/Platform.h],
    and the [SetOffsets] functor that the point-sorting operator runs over
    such a range.  Their definitions follow the machine integers. *)

From Stdlib Require Import ZArith Lia.
From stdpp Require Import base option list sorting gmap strings pretty.

Local Open Scope Z_scope.

(** ** Machine integers *)

Definition Index32_modulus : Z := 2 ^ 32.
Definition Int32_half : Z := 2 ^ 31.

(** Conversion to [Index32] ([uint32_t]). *)
Definition to_Index32 (z : Z) : Z := z mod Index32_modulus.

(** Conversion to [Int32] ([int32_t]), two's complement. *)
Definition to_Int32 (z : Z) : Z := (z + Int32_half) mod Index32_modulus - Int32_half.

(** [size_t] has 64 bits. *)
Definition size_t_modulus : Z := 2 ^ 64.

(** Conversion to [size_t]. *)
Definition to_size_t (z : Z) : Z := z mod size_t_modulus.

(** ** [ShortestFittingInt] of [openvdb/Types.h] *)

(** The four candidate types and their [sizeof]. *)

Inductive IntType : Type := int8_t | int16_t | int32_t | int64_t.

Definition sizeof (t : IntType) : Z :=
  match t with int8_t => 1 | int16_t => 2 | int32_t => 4 | int64_t => 8 end.

(** [enum { NBytes = ((NBits - 1) / 8) + 1 }] *)
Definition NBytes (NBits : Z) : Z := (NBits - 1) ÷ 8 + 1.

(** [ShortestFittingInt<NBits>::Type]; [None] when a [static_assert] of
    the template fails. *)
Definition ShortestFittingInt (NBits : Z) : option IntType :=
  if negb (0 <? NBits) then None
  else if negb (0 <? NBytes NBits) then None
  else if negb (NBytes NBits <=? sizeof int64_t) then None
  else Some (if NBytes NBits <=? sizeof int8_t then int8_t
             else if NBytes NBits <=? sizeof int16_t then int16_t
             else if NBytes NBits <=? sizeof int32_t then int32_t
             else int64_t).

(** ** [BlockedRange] of [openvdb/Types.h]

    The class that stands in for [tbb::blocked_range] when TBB is not
    used, at the type [size_t] at which the point-sorting operator uses
    it. *)

Record BlockedRange : Type := mkBlockedRange {
  mEnd : Z;
  mBegin : Z;
  mGrainSize : Z
}.

(** [BlockedRange(T begin_, T end_, size_type grainsize_ = 1)] *)
Definition BlockedRange_new (begin_ end_ : Z) (grainsize_ : Z) : BlockedRange :=
  {| mEnd := end_; mBegin := begin_; mGrainSize := grainsize_ |}.

Definition BlockedRange_begin (r : BlockedRange) : Z := mBegin r.

Definition BlockedRange_end (r : BlockedRange) : Z := mEnd r.

(** [size_type(mEnd - mBegin)] *)
Definition BlockedRange_size (r : BlockedRange) : Z := to_size_t (mEnd r - mBegin r).

Definition BlockedRange_grainsize (r : BlockedRange) : Z := mGrainSize r.

(** [!(mBegin < mEnd)] *)
Definition BlockedRange_empty (r : BlockedRange) : bool := negb (mBegin r <? mEnd r).

(** [mGrainSize < size()] *)
Definition BlockedRange_is_divisible (r : BlockedRange) : bool :=
  mGrainSize r <? BlockedRange_size r.

(** ** [OPENVDB_FOR_EACH] of [openvdb/Platform.h]

    Without TBB, [OPENVDB_FOR_EACH(func, range)] is [((func)(range))]. *)
Definition OPENVDB_FOR_EACH {R A : Type} (func : R → A) (range : R) : A := func range.

(** ** [SetOffsets] of the point-sorting operator

    The functor of [SOP_OpenVDB_Sort_Points.cc] that lists the offsets of
    the points bucket by bucket.  The offset array is a list; the
    partitioner and the source geometry are known by the two functions
    the functor calls. *)

Section SortPoints.

Context {PointIndexT GA_Offset : Type}.

(** [mPartitioner->indices(n)], the point indices of bucket [n], and
    [mSrcGeo->pointOffset]. *)
Variable indices : Z → list PointIndexT.
Variable pointOffset : PointIndexT → GA_Offset.

(** The body of the inner loop: the offset of the point that [it] stands
    at goes to [mOffsetArray[idx++]]; a store past the end of the array
    is dropped. *)
Definition store (st : list GA_Offset * Z) (it : PointIndexT) : list GA_Offset * Z :=
  (<[Z.to_nat st.2 := pointOffset it]> st.1, to_size_t (st.2 + 1)).

(** The values of [n] in [for (size_t n = first; n != last; ++n)]: from
    [first] upwards, wrapping at 2^64, until [n] equals [last]. *)
Definition counting (first last : Z) : list Z :=
  (λ i, to_size_t (first + Z.of_nat i)) <$> seq 0 (Z.to_nat (to_size_t (last - first))).

(** [SetOffsets::operator()] *)
Definition SetOffsets (mOffsetArray : list GA_Offset) (range : BlockedRange)
    : list GA_Offset :=
  let idx :=
    foldl (λ idx n, to_size_t (idx + Z.of_nat (length (indices n)))) 0
      (counting 0 (BlockedRange_begin range)) in
  (foldl (λ st n, foldl store st (indices n)) (mOffsetArray, idx)
     (counting (BlockedRange_begin range) (BlockedRange_end range))).1.

(** The point indices of the [n] buckets from bucket [a] on. *)
Definition bucket_points (a n : nat) : list PointIndexT :=
  concat ((λ k, indices (Z.of_nat k)) <$> seq a n).

(** [l] with the slots from [s] on overwritten by [xs]. *)
Definition overwrite (s : nat) (xs l : list GA_Offset) : list GA_Offset :=
  take s l ++ xs ++ drop (s + length xs) l.

End SortPoints.

(** ** [Combinable] of [openvdb/Types.h]

    The class that stands in for [tbb::combinable] when TBB is not used.
    All its data members are static: the list [sAllLocals] of the values
    and, for each thread, the pointer [mLocal] to the value of that
    thread.  An element of the list is known by its address, which the
    list never changes ([std::list] does not move its elements) and which
    no element had before it ([next_address] counts them); [mLocal] holds
    an address, and no entry for a thread is [nullptr].  Every member
    function that touches the list holds [sAllLocalsMutex], so the calls
    of the threads are taken one after the other.  After a [clear] the
    allocator of the program may give a new element the address of one
    that is gone; no property below speaks of a state in which an element
    was created after a [clear].  [combine] and [combine_each], which run
    client functions over the list, are left out. *)

Section Combinable.

Context {T : Type}.

(** [T()] *)
Variable T_default : T.

Record Statics : Type := mkStatics {
  sAllLocals : list (nat * T);
  mLocal : gmap nat nat;
  next_address : nat
}.

(** No object constructed yet. *)
Definition Statics_new : Statics :=
  {| sAllLocals := []; mLocal := ∅; next_address := 0 |}.

(** [createLocal]: [sAllLocals.emplace_back(); mLocal = &sAllLocals.back()] *)
Definition createLocal (thread : nat) (s : Statics) : Statics :=
  {| sAllLocals := sAllLocals s ++ [(next_address s, T_default)];
     mLocal := <[thread := next_address s]> (mLocal s);
     next_address := S (next_address s) |}.

(** [createLocalCopy]: [sAllLocals.push_back(val); mLocal = &sAllLocals.back()] *)
Definition createLocalCopy (thread : nat) (val : T) (s : Statics) : Statics :=
  {| sAllLocals := sAllLocals s ++ [(next_address s, val)];
     mLocal := <[thread := next_address s]> (mLocal s);
     next_address := S (next_address s) |}.

(** [Combinable()] *)
Definition Combinable_new (thread : nat) : Statics → Statics := createLocal thread.

(** [Combinable(const T& val)] *)
Definition Combinable_new_copy (thread : nat) (val : T) : Statics → Statics :=
  createLocalCopy thread val.

(** [Combinable::clear] *)
Definition Combinable_clear (thread : nat) (s : Statics) : Statics :=
  {| sAllLocals := []; mLocal := delete thread (mLocal s);
     next_address := next_address s |}.

(** [~Combinable()] *)
Definition Combinable_delete (thread : nat) : Statics → Statics := Combinable_clear thread.

(** [EnumerableThreadSpecific(const T& val)]: the constructor of the base
    class runs first. *)
Definition EnumerableThreadSpecific_new_copy (thread : nat) (val : T) (s : Statics)
    : Statics :=
  createLocalCopy thread val (Combinable_new thread s).

(** [Combinable::local], both overloads: the pointer it dereferences,
    what it stores in [exists], and the statics it leaves. *)
Definition Combinable_local (thread : nat) (s : Statics) : option nat * bool * Statics :=
  match mLocal s !! thread with
  | Some p => (Some p, true, s)
  | None => (mLocal (createLocal thread s) !! thread, false, createLocal thread s)
  end.

(** The value at an address; [None] when no element of the list lives
    there. *)
Definition deref (p : nat) (s : Statics) : option T :=
  snd <$> head (filter (λ e, e.1 = p) (sAllLocals s)).

(** An assignment through the reference that [local()] returned; nothing
    is stored when the reference dangles. *)
Definition assign (p : nat) (val : T) (s : Statics) : Statics :=
  {| sAllLocals := (λ e, if decide (e.1 = p) then (p, val) else e) <$> sAllLocals s;
     mLocal := mLocal s;
     next_address := next_address s |}.

(** [Combinable::size] *)
Definition Combinable_size (s : Statics) : nat := length (sAllLocals s).

(** [Combinable::empty] *)
Definition Combinable_empty (s : Statics) : bool := bool_decide (sAllLocals s = []).

(** What the threads do, one call at a time. *)
Inductive Call : Type :=
  | CallNew (thread : nat)
  | CallNewCopy (thread : nat) (val : T)
  | CallEnumerableNewCopy (thread : nat) (val : T)
  | CallLocal (thread : nat)
  | CallAssignLocal (thread : nat) (val : T)
  | CallClear (thread : nat)
  | CallDelete (thread : nat).

Definition call (c : Call) (s : Statics) : Statics :=
  match c with
  | CallNew thread => Combinable_new thread s
  | CallNewCopy thread val => Combinable_new_copy thread val s
  | CallEnumerableNewCopy thread val => EnumerableThreadSpecific_new_copy thread val s
  | CallLocal thread => (Combinable_local thread s).2
  | CallAssignLocal thread val =>
      let '(p, _, s') := Combinable_local thread s in
      match p with
      | Some a => assign a val s'
      | None => s'
      end
  | CallClear thread => Combinable_clear thread s
  | CallDelete thread => Combinable_delete thread s
  end.

Definition calls (cs : list Call) (s : Statics) : Statics := foldl (λ s c, call c s) s cs.

Definition clears (c : Call) : bool :=
  match c with CallClear _ | CallDelete _ => true | _ => false end.

(** Addresses are distinct and below the next one; the pointer of a
    thread is the address of an element, and no two threads point to the
    same. *)
Record locals_valid (s : Statics) : Prop := mkLocalsValid {
  valid_addresses : NoDup (sAllLocals s).*1;
  valid_fresh : Forall (λ e, (e.1 < next_address s)%nat) (sAllLocals s);
  valid_pointers : ∀ thread p, mLocal s !! thread = Some p → p ∈ (sAllLocals s).*1;
  valid_owner : ∀ t1 t2 p,
    mLocal s !! t1 = Some p → mLocal s !! t2 = Some p → t1 = t2
}.

End Combinable.

(** ** Status values and exceptions *)

(** [Queue::Status]; the enumeration is declared in [Queue.h]. *)
Inductive Status : Type := UNKNOWN | PENDING | SUCCEEDED | FAILED.

Global Instance Status_eq_dec : EqDecision Status.
Proof. solve_decision. Defined.

(** What can be thrown.  [openvdb::RuntimeError] derives from
    [std::exception]; [NonStdThrow] stands for any thrown value that does
    not. *)
Inductive Exn : Type :=
  | StdException (what : option string)
  | RuntimeError (what : string)
  | NonStdThrow.

(** Does [catch (std::exception& e)] match, and with which [e.what()]. *)
Definition as_std_exception (e : Exn) : option (option string) :=
  match e with
  | StdException msg => Some msg
  | RuntimeError msg => Some (Some msg)
  | NonStdThrow => None
  end.

(** Outcome of a computation: a value, a thrown exception, or [Stalled]
    when the admission loop is still waiting at the end of the supplied
    environment. *)
Inductive Result (A : Type) : Type :=
  | Ok (a : A)
  | Raise (e : Exn)
  | Stalled.
Global Arguments Ok {A} a.
Global Arguments Raise {A} e.
Global Arguments Stalled {A}.

(** The sink bound into a task by [Impl::enqueue]:
    [std::bind(&Impl::setStatusWithNotification, this, _1, _2)]. *)
Inductive Sink : Type := BoundSetStatusWithNotification.

(** [#ifdef OPENVDB_USE_TBB] *)
Inductive Backend : Type := UseTBB | NoTBB.

(** One round of the admission loop as the environment decides it: which
    scheduled tasks (positions in the scheduler's list, in the order they
    run) finish while the caller sleeps, and the value of
    [hires_clock::now() - start], in nanoseconds, read after the sleep. *)
Record Tick : Type := mkTick {
  finishing : list nat;
  elapsed_ns : Z
}.

(** [std::chrono::duration_cast<std::chrono::seconds>(d).count()]:
    truncation toward zero. *)
Definition duration_cast_seconds (ns : Z) : Z := Z.quot ns 1000000000.

Section QueueModel.

(** Opaque collaborators: grid handles, metadata bundles, and the client's
    notifier callbacks. *)
Context {GridCPtr MetaMap Notifier : Type}.

(** [Queue::DEFAULT_TIMEOUT] and [Queue::DEFAULT_CAPACITY] are declared in
    [Queue.h]. *)
Variable DEFAULT_TIMEOUT : Z.
Variable DEFAULT_CAPACITY : Z.

(** An [Archive]: [write] returns [None] when it returns normally and
    [Some e] when it throws [e]. *)
Record Archive : Type := mkArchive {
  write : list GridCPtr → MetaMap → option Exn
}.

(** Modelled from the spec: [Archive::copy] is declared in [Archive.h];
    the clone is an independent archive that writes as the original. *)
Definition copy (a : Archive) : Archive := a.

(** [Task] with the members of [OutputTask]. *)
Record Task : Type := mkTask {
  mId : Z;
  mNotify : option Sink;
  mGrids : list GridCPtr;
  mArchive : Archive;
  mMetadata : MetaMap
}.

(** [OutputTask::OutputTask]: the notifier starts out empty. *)
Definition OutputTask (id : Z) (grids : list GridCPtr) (archive : Archive)
    (metadata : MetaMap) : Task :=
  {| mId := id; mNotify := None; mGrids := grids;
     mArchive := copy archive; mMetadata := metadata |}.

(** [Task::setNotifier] *)
Definition setNotifier (notifier : Sink) (t : Task) : Task :=
  {| mId := mId t; mNotify := Some notifier; mGrids := mGrids t;
     mArchive := mArchive t; mMetadata := mMetadata t |}.

(** [Queue::Impl] *)
Record Impl : Type := mkImpl {
  mTimeout : Z;
  mCapacity : Z;
  mNumTasks : Z;
  mNextId : Z;
  mStatus : gmap Z Status;
  mNotifiers : gmap Z Notifier;
  mNextNotifierId : Z
}.

(** Externally visible actions, in the order they happen. *)
Inductive Event : Type :=
  | EvSleep
  | EvHandOff (task : Z)
  | EvWrite (task : Z) (archive : Archive) (grids : list GridCPtr) (metadata : MetaMap)
  | EvLogError (msg : string)
  | EvSink (task : Z) (status : Status)
  | EvNotifier (subscription : Z) (callback : Notifier) (task : Z) (status : Status).

Record World : Type := mkWorld {
  queue : Impl;
  scheduler : list Task;
  trace : list Event
}.

Definition M (A : Type) : Type := World → Result A * World.

Definition ret {A} (a : A) : M A := λ w, (Ok a, w).

Definition bind {A B} (m : M A) (k : A → M B) : M B := λ w,
  match m w with
  | (Ok a, w') => k a w'
  | (Raise e, w') => (Raise e, w')
  | (Stalled, w') => (Stalled, w')
  end.

(** [try { body } catch (...) { handler }] *)
Definition try_catch {A} (body : M A) (handler : Exn → M A) : M A := λ w,
  match body w with
  | (Raise e, w') => handler e w'
  | r => r
  end.

Definition throw {A} (e : Exn) : M A := λ w, (Raise e, w).

Definition emit (e : Event) : M unit := λ w,
  (Ok tt, {| queue := queue w; scheduler := scheduler w; trace := trace w ++ [e] |}).

Definition modify_impl (f : Impl → Impl) : M unit := λ w,
  (Ok tt, {| queue := f (queue w); scheduler := scheduler w; trace := trace w |}).

Definition get_impl : M Impl := λ w, (Ok (queue w), w).

Notation "x <- m ;; k" := (bind m (λ x, k))
  (at level 100, m at next level, right associativity).
Notation "m ;;; k" := (bind m (λ _, k))
  (at level 100, right associativity).


(** *** Field updates of [Impl] *)

Definition set_mTimeout (v : Z) (q : Impl) : Impl :=
  {| mTimeout := v; mCapacity := mCapacity q; mNumTasks := mNumTasks q;
     mNextId := mNextId q; mStatus := mStatus q; mNotifiers := mNotifiers q;
     mNextNotifierId := mNextNotifierId q |}.

Definition set_mCapacity (v : Z) (q : Impl) : Impl :=
  {| mTimeout := mTimeout q; mCapacity := v; mNumTasks := mNumTasks q;
     mNextId := mNextId q; mStatus := mStatus q; mNotifiers := mNotifiers q;
     mNextNotifierId := mNextNotifierId q |}.

Definition set_mNumTasks (v : Z) (q : Impl) : Impl :=
  {| mTimeout := mTimeout q; mCapacity := mCapacity q; mNumTasks := v;
     mNextId := mNextId q; mStatus := mStatus q; mNotifiers := mNotifiers q;
     mNextNotifierId := mNextNotifierId q |}.

Definition set_mNextId (v : Z) (q : Impl) : Impl :=
  {| mTimeout := mTimeout q; mCapacity := mCapacity q; mNumTasks := mNumTasks q;
     mNextId := v; mStatus := mStatus q; mNotifiers := mNotifiers q;
     mNextNotifierId := mNextNotifierId q |}.

Definition set_mStatus (v : gmap Z Status) (q : Impl) : Impl :=
  {| mTimeout := mTimeout q; mCapacity := mCapacity q; mNumTasks := mNumTasks q;
     mNextId := mNextId q; mStatus := v; mNotifiers := mNotifiers q;
     mNextNotifierId := mNextNotifierId q |}.

Definition set_mNotifiers (v : gmap Z Notifier) (q : Impl) : Impl :=
  {| mTimeout := mTimeout q; mCapacity := mCapacity q; mNumTasks := mNumTasks q;
     mNextId := mNextId q; mStatus := mStatus q; mNotifiers := v;
     mNextNotifierId := mNextNotifierId q |}.

Definition set_mNextNotifierId (v : Z) (q : Impl) : Impl :=
  {| mTimeout := mTimeout q; mCapacity := mCapacity q; mNumTasks := mNumTasks q;
     mNextId := mNextId q; mStatus := mStatus q; mNotifiers := mNotifiers q;
     mNextNotifierId := v |}.

(** ** [Queue::Impl] *)

(** [Impl::Impl] *)
Definition Impl_new : Impl :=
  {| mTimeout := DEFAULT_TIMEOUT; mCapacity := DEFAULT_CAPACITY; mNumTasks := 0;
     mNextId := 1; mStatus := ∅; mNotifiers := ∅; mNextNotifierId := 1 |}.

(** [status == SUCCEEDED || status == FAILED] *)
Definition is_terminal (s : Status) : bool :=
  match s with
  | SUCCEEDED | FAILED => true
  | UNKNOWN | PENDING => false
  end.

(** [Impl::setStatus]: [mStatus[id] = status]. *)
Definition setStatus (id : Z) (status : Status) : M unit :=
  modify_impl (λ q, set_mStatus (<[id := status]> (mStatus q)) q).

(** Order of a [std::map<Queue::Id, Queue::Notifier>] traversal. *)
Definition key_le (x y : Z * Notifier) : Prop := x.1 ≤ y.1.

Global Instance key_le_dec : RelDecision key_le.
Proof. intros x y. unfold key_le. apply _. Defined.

Definition in_key_order (m : gmap Z Notifier) : list (Z * Notifier) :=
  merge_sort key_le (map_to_list m).

(** The body of the [for] loop over [mNotifiers]: [it->second(id, status)]. *)
Fixpoint call_each (its : list (Z * Notifier)) (id : Z) (status : Status) : M unit :=
  match its with
  | [] => ret tt
  | it :: rest => emit (EvNotifier it.1 it.2 id status) ;;; call_each rest id status
  end.

(** [Impl::setStatusWithNotification] *)
Definition setStatusWithNotification (id : Z) (status : Status) : M unit :=
  let completed := is_terminal status in
  setStatus id status ;;;
  q <- get_impl ;;
  didNotify <-
    (if negb (Nat.eqb (size (mNotifiers q)) 0)
     then call_each (in_key_order (mNotifiers q)) id status ;;; ret true
     else ret false) ;;
  if completed then
    (if didNotify : bool
     then modify_impl (λ q, set_mStatus (delete id (mStatus q)) q)
     else ret tt) ;;;
    modify_impl (λ q, set_mNumTasks (to_Int32 (mNumTasks q - 1)) q)
  else ret tt.

(** [Impl::canEnqueue]: [mNumTasks < Int64(mCapacity)]. *)
Definition canEnqueue (q : Impl) : bool := mNumTasks q <? mCapacity q.

(** ** [Task] and [OutputTask] *)

(** [Task::notify]: [if (mNotify) mNotify(this->id(), status)]. *)
Definition notify (t : Task) (status : Status) : M unit :=
  match mNotify t with
  | Some BoundSetStatusWithNotification =>
      emit (EvSink (mId t) status) ;;;
      setStatusWithNotification (mId t) status
  | None => ret tt
  end.

(** [mArchive->write(mGrids, mMetadata)] *)
Definition archive_write (t : Task) : M unit :=
  emit (EvWrite (mId t) (mArchive t) (mGrids t) (mMetadata t)) ;;;
  match write (mArchive t) (mGrids t) (mMetadata t) with
  | None => ret tt
  | Some e => throw e
  end.

(** [OutputTask::execute]; the returned [TaskPtr] is [nullptr], here
    [None]. *)
Definition execute (t : Task) : M (option Task) :=
  status <-
    try_catch (archive_write t ;;; ret SUCCEEDED)
      (λ e, match as_std_exception e with
            | Some (Some msg) => emit (EvLogError msg) ;;; ret FAILED
            | Some None => ret FAILED
            | None => ret FAILED
            end) ;;
  notify t status ;;;
  ret None.

(** ** Admission *)

(** [tbb::task::enqueue(task)]: the task joins those the scheduler will
    run. *)
Definition tbb_task_enqueue (t : Task) : M unit := λ w,
  (Ok tt, {| queue := queue w; scheduler := scheduler w ++ [t]; trace := trace w |}).

(** A worker thread takes the scheduled task at position [i] and runs it. *)
Definition run_scheduled (i : nat) : M unit := λ w,
  match scheduler w !! i with
  | None => (Ok tt, w)
  | Some t =>
      (execute t ;;; ret tt)
        {| queue := queue w; scheduler := delete i (scheduler w); trace := trace w |}
  end.

Fixpoint run_each_scheduled (slots : list nat) : M unit :=
  match slots with
  | [] => ret tt
  | i :: rest => run_scheduled i ;;; run_each_scheduled rest
  end.

(** [std::this_thread::sleep_for(std::chrono::milliseconds(500))], during
    which the workers make the progress the tick prescribes. *)
Definition sleep_for (tick : Tick) : M unit :=
  emit EvSleep ;;; run_each_scheduled (finishing tick).

(** The text streamed into [OPENVDB_THROW(RuntimeError, ...)]. *)
Definition time_limit_message (timeout : Z) : string :=
  "unable to queue I/O task; " +:+ pretty timeout +:+ "-second time limit expired".

(** The [while (!canEnqueue())] loop of [Impl::enqueue]; one tick of the
    environment per iteration. *)
Fixpoint wait_until_can_enqueue (env : list Tick) : M unit := λ w,
  if canEnqueue (queue w) then (Ok tt, w)
  else
    match env with
    | [] => (Stalled, w)
    | tick :: env' =>
        (sleep_for tick ;;;
         q <- get_impl ;;
         if duration_cast_seconds (elapsed_ns tick) >? mTimeout q
         then throw (RuntimeError (time_limit_message (mTimeout q)))
         else wait_until_can_enqueue env') w
    end.

(** [Impl::enqueue] *)
Definition enqueue (b : Backend) (task : Task) (env : list Tick) : M unit :=
  wait_until_can_enqueue env ;;;
  let task := setNotifier BoundSetStatusWithNotification task in
  setStatus (mId task) PENDING ;;;
  emit (EvHandOff (mId task)) ;;;
  match b with
  | UseTBB => tbb_task_enqueue task
  | NoTBB => execute task ;;; ret tt
  end ;;;
  modify_impl (λ q, set_mNumTasks (to_Int32 (mNumTasks q + 1)) q).

(** ** The public [Queue] operations *)

(** [Queue::Queue] *)
Definition Queue_new (capacity : Z) : Impl := set_mCapacity capacity Impl_new.


(** [Queue::size]: [Index32(std::max<Int32>(0, mNumTasks))]. *)
Definition size (q : Impl) : Z := to_Index32 (Z.max 0 (mNumTasks q)).

(** [Queue::capacity] *)
Definition capacity (q : Impl) : Z := mCapacity q.

(** [Queue::setCapacity]: [std::max<Index32>(1, n)]. *)
Definition setCapacity (n : Z) (q : Impl) : Impl := set_mCapacity (Z.max 1 n) q.

(** [Queue::timeout] *)
Definition timeout (q : Impl) : Z := mTimeout q.

(** [Queue::setTimeout] *)
Definition setTimeout (sec : Z) (q : Impl) : Impl := set_mTimeout sec q.

(** [Queue::status] *)
Definition status (id : Z) : M Status :=
  q <- get_impl ;;
  match mStatus q !! id with
  | Some st =>
      (if is_terminal st
       then modify_impl (λ q, set_mStatus (delete id (mStatus q)) q)
       else ret tt) ;;;
      ret st
  | None => ret UNKNOWN
  end.

(** [Queue::addNotifier] *)
Definition addNotifier (notify : Notifier) : M Z :=
  q <- get_impl ;;
  let id := mNextNotifierId q in
  modify_impl (set_mNextNotifierId (to_Index32 (id + 1))) ;;;
  modify_impl (λ q, set_mNotifiers (<[id := notify]> (mNotifiers q)) q) ;;;
  ret id.

(** [Queue::removeNotifier] *)
Definition removeNotifier (id : Z) : M unit :=
  q <- get_impl ;;
  match mNotifiers q !! id with
  | Some _ => modify_impl (λ q, set_mNotifiers (delete id (mNotifiers q)) q)
  | None => ret tt
  end.

(** [Queue::clearNotifiers] *)
Definition clearNotifiers : M unit :=
  modify_impl (set_mNotifiers ∅).

(** [Queue::writeGridVec] *)
Definition writeGridVec (b : Backend) (grids : list GridCPtr) (archive : Archive)
    (metadata : MetaMap) (env : list Tick) : M Z :=
  q <- get_impl ;;
  let taskId := mNextId q in
  modify_impl (set_mNextId (to_Index32 (taskId + 1))) ;;;
  let task := OutputTask taskId grids archive metadata in
  try_catch (enqueue b task env)
    (λ e, match e with
          | RuntimeError _ => throw e  (* the task is destroyed, then rethrown *)
          | _ => throw e
          end) ;;;
  ret taskId.

(** [Queue::writeGrid]: [GridCPtrVec(1, grid)] is the one-element vector. *)
Definition writeGrid (b : Backend) (grid : GridCPtr) (archive : Archive)
    (metadata : MetaMap) (env : list Tick) : M Z :=
  writeGridVec b (replicate 1 grid) archive metadata env.

(** ** Runs of a client against the queue *)

(** What the client thread and the worker threads can do, one operation
    at a time. *)
Inductive Op : Type :=
  | OpWriteGrid (grid : GridCPtr) (archive : Archive) (metadata : MetaMap) (env : list Tick)
  | OpWriteGridVec (grids : list GridCPtr) (archive : Archive) (metadata : MetaMap)
      (env : list Tick)
  | OpStatus (id : Z)
  | OpAddNotifier (notify : Notifier)
  | OpRemoveNotifier (id : Z)
  | OpClearNotifiers
  | OpSetCapacity (n : Z)
  | OpSetTimeout (sec : Z)
  | OpWorker (slot : nat).

Definition discard {A} (m : M A) : M unit := m ;;; ret tt.

Definition step (b : Backend) (op : Op) : M unit :=
  match op with
  | OpWriteGrid grid archive metadata env => discard (writeGrid b grid archive metadata env)
  | OpWriteGridVec grids archive metadata env =>
      discard (writeGridVec b grids archive metadata env)
  | OpStatus id => discard (status id)
  | OpAddNotifier notify => discard (addNotifier notify)
  | OpRemoveNotifier id => removeNotifier id
  | OpClearNotifiers => clearNotifiers
  | OpSetCapacity n => modify_impl (setCapacity n)
  | OpSetTimeout sec => modify_impl (setTimeout sec)
  | OpWorker slot => run_scheduled slot
  end.

(** The world after the operations [ops]; an exception thrown by one
    operation is the client's to handle and the run goes on, a submission
    that is still waiting when its environment ends is where the run
    stops. *)
Fixpoint run (b : Backend) (ops : list Op) (w : World) : World :=
  match ops with
  | [] => w
  | op :: rest =>
      match step b op w with
      | (Stalled, w') => w'
      | (_, w') => run b rest w'
      end
  end.

(** A freshly constructed queue, nothing scheduled, nothing done yet. *)
Definition new_world (capacity : Z) : World :=
  {| queue := Queue_new capacity; scheduler := []; trace := [] |}.

(** *** Readings of the trace *)

Definition is_hand_off (e : Event) : bool :=
  match e with EvHandOff _ => true | _ => false end.

Definition is_sink (e : Event) : bool :=
  match e with EvSink _ _ => true | _ => false end.

Definition is_sleep (e : Event) : bool :=
  match e with EvSleep => true | _ => false end.

Definition hand_off_of (id : Z) (e : Event) : bool :=
  match e with EvHandOff i => bool_decide (i = id) | _ => false end.

Definition sink_of (id : Z) (e : Event) : bool :=
  match e with EvSink i _ => bool_decide (i = id) | _ => false end.

(** How many elements of a list satisfy [p]. *)
Fixpoint count {A} (p : A → bool) (l : list A) : Z :=
  match l with
  | [] => 0
  | x :: rest => (if p x then 1 else 0) + count p rest
  end.

(** A sink firing carries [SUCCEEDED] or [FAILED]. *)
Definition reports_terminal (e : Event) : Prop :=
  match e with
  | EvSink _ st => is_terminal st = true
  | _ => True
  end.

(** The notifier calls of a trace, in order. *)
Definition notifier_calls (tr : list Event) : list (Z * Notifier * Z * Status) :=
  omap (λ e, match e with
             | EvNotifier sub cb id st => Some (sub, cb, id, st)
             | _ => None
             end) tr.

(** The events that [w'] has and [w] had not yet. *)
Definition new_events (w w' : World) : list Event :=
  drop (length (trace w)) (trace w').

(** ** Definitions for the statements and proofs

    Closed forms of what the operations above do to the world, and the
    relations that hold between reachable worlds. *)

(** *** One completion *)

(** The notifier calls of one fan-out. *)
Definition fan_out (id : Z) (st : Status) (q : Impl) : list Event :=
  (λ it, EvNotifier it.1 it.2 id st) <$> in_key_order (mNotifiers q).

(** The queue after [setStatusWithNotification id st]. *)
Definition after_completion (id : Z) (st : Status) (q : Impl) : Impl :=
  let stamped := set_mStatus (<[id := st]> (mStatus q)) q in
  if is_terminal st then
    set_mNumTasks (to_Int32 (mNumTasks q - 1))
      (if negb (Nat.eqb (base.size (mNotifiers q)) 0)
       then set_mStatus (delete id (<[id := st]> (mStatus q))) stamped
       else stamped)
  else stamped.

(** The status a task reports: [SUCCEEDED] when its write returns. *)
Definition outcome (t : Task) : Status :=
  match write (mArchive t) (mGrids t) (mMetadata t) with
  | None => SUCCEEDED
  | Some _ => FAILED
  end.

(** The write of a task and the line it logs when the write throws a
    [std::exception] with a message. *)
Definition write_events (t : Task) : list Event :=
  EvWrite (mId t) (mArchive t) (mGrids t) (mMetadata t) ::
  match write (mArchive t) (mGrids t) (mMetadata t) with
  | Some e => match as_std_exception e with
              | Some (Some msg) => [EvLogError msg]
              | _ => []
              end
  | None => []
  end.

(** The subscription identifier of a recorded notifier call. *)
Definition subscription_of (c : Z * Notifier * Z * Status) : Z := c.1.1.1.

(** *** What every reachable world satisfies *)

Definition scheduled_as (id : Z) (t : Task) : bool := bool_decide (mId t = id).

Definition is_log (e : Event) : Prop :=
  match e with EvLogError _ => True | _ => False end.

(** Every sink firing in the trace comes right after the write of the
    task that reports, with at most the log line of that write in
    between. *)
Definition sinks_follow_writes (tr : list Event) : Prop :=
  ∀ pre id st post,
    tr = pre ++ EvSink id st :: post →
    ∃ pre' archive grids metadata log,
      pre = pre' ++ EvWrite id archive grids metadata :: log ∧ Forall is_log log.

(** The in-flight counter is the number of scheduled tasks (as an
    [Int32]); every scheduled task has its sink bound; each hand-off is
    accounted for by a sink firing or by a task still scheduled, per
    identifier and in total; sinks only ever reported terminal statuses,
    each right after the write of its task. *)
Record consistent (w : World) : Prop := mkConsistent {
  consistent_counter :
    mNumTasks (queue w) = to_Int32 (Z.of_nat (length (scheduler w)));
  consistent_bound :
    Forall (λ t, mNotify t = Some BoundSetStatusWithNotification) (scheduler w);
  consistent_per_task : ∀ id,
    count (sink_of id) (trace w) + count (scheduled_as id) (scheduler w)
    = count (hand_off_of id) (trace w);
  consistent_total :
    count is_sink (trace w) + Z.of_nat (length (scheduler w))
    = count is_hand_off (trace w);
  consistent_terminal : Forall reports_terminal (trace w);
  consistent_order : sinks_follow_writes (trace w)
}.

(** The events of the execution of a task whose sink is bound. *)
Definition completion_events (t : Task) (q : Impl) : list Event :=
  write_events t ++ EvSink (mId t) (outcome t) :: fan_out (mId t) (outcome t) q.

(** *** Sleeping in the admission loop *)

(** The world after the caller slept through [ticks]. *)
Definition slept (ticks : list Tick) (w : World) : World :=
  foldl (λ v tick, (sleep_for tick v).2) w ticks.

(** How a world [w'] relates to the world [w] it came from when, in
    between, the caller only slept and workers only completed tasks:
    [evs] is what was appended to the trace. *)
Record waited (w : World) (evs : list Event) (w' : World) : Prop := mkWaited {
  waited_trace : trace w' = trace w ++ evs;
  waited_timeout : mTimeout (queue w') = mTimeout (queue w);
  waited_capacity : mCapacity (queue w') = mCapacity (queue w);
  waited_next_id : mNextId (queue w') = mNextId (queue w);
  waited_notifiers : mNotifiers (queue w') = mNotifiers (queue w);
  waited_next_notifier_id : mNextNotifierId (queue w') = mNextNotifierId (queue w);
  waited_no_hand_off : Forall (λ e, is_hand_off e = false) evs;
  waited_counter :
    to_Int32 (mNumTasks (queue w')) = to_Int32 (mNumTasks (queue w) - count is_sink evs);
  waited_pending : ∀ i,
    mStatus (queue w') !! i = Some PENDING → mStatus (queue w) !! i = Some PENDING;
  waited_scheduler : scheduler w' `sublist_of` scheduler w
}.

(** The events of a worker's turn at slot [i]. *)
Definition worker_events (i : nat) (w : World) : list Event :=
  match scheduler w !! i with
  | None => []
  | Some t =>
      match mNotify t with
      | Some _ => completion_events t (queue w)
      | None => write_events t
      end
  end.

(** *** Admission and submission *)

(** The world after the part of [Impl::enqueue] that follows the loop. *)
Definition enqueued (b : Backend) (t : Task) (w : World) : World :=
  let t' := setNotifier BoundSetStatusWithNotification t in
  let stamped := set_mStatus (<[mId t := PENDING]> (mStatus (queue w))) (queue w) in
  match b with
  | UseTBB =>
      {| queue := set_mNumTasks (to_Int32 (mNumTasks (queue w) + 1)) stamped;
         scheduler := scheduler w ++ [t'];
         trace := trace w ++ [EvHandOff (mId t)] |}
  | NoTBB =>
      let done := after_completion (mId t) (outcome t) stamped in
      {| queue := set_mNumTasks (to_Int32 (mNumTasks done + 1)) done;
         scheduler := scheduler w;
         trace := (trace w ++ [EvHandOff (mId t)]) ++ completion_events t' stamped |}
  end.

(** The world with the identifier counter set to [v]. *)
Definition with_next_id (v : Z) (w : World) : World :=
  {| queue := set_mNextId v (queue w); scheduler := scheduler w; trace := trace w |}.

(** ** [Queue::~Queue] *)



(** ** Further definitions for the statements *)

(** *** Kinds of operations *)

Definition is_submission (op : Op) : bool :=
  match op with
  | OpWriteGrid _ _ _ _ | OpWriteGridVec _ _ _ _ => true
  | _ => false
  end.

Definition is_registration (op : Op) : bool :=
  match op with OpAddNotifier _ => true | _ => false end.

Definition is_setCapacity (op : Op) : bool :=
  match op with OpSetCapacity _ => true | _ => false end.

Definition is_setTimeout (op : Op) : bool :=
  match op with OpSetTimeout _ => true | _ => false end.

Definition is_notifier_management (op : Op) : bool :=
  match op with
  | OpAddNotifier _ | OpRemoveNotifier _ | OpClearNotifiers => true
  | _ => false
  end.

(** *** Readings of the trace and of the scheduler *)

Definition is_notifier_call (e : Event) : bool :=
  match e with EvNotifier _ _ _ _ => true | _ => false end.

(** A notifier call carries [SUCCEEDED] or [FAILED]. *)
Definition notifies_terminal (e : Event) : Prop :=
  match e with
  | EvNotifier _ _ _ st => is_terminal st = true
  | _ => True
  end.

(** *** What the status map of a reachable world holds *)

(** No entry stores [UNKNOWN]; a [PENDING] entry belongs to a task that is
    scheduled; notifiers were only ever called with a terminal status. *)
Record settled (w : World) : Prop := mkSettled {
  settled_known : ∀ id, mStatus (queue w) !! id ≠ Some UNKNOWN;
  settled_pending : ∀ id,
    mStatus (queue w) !! id = Some PENDING → ∃ t, t ∈ scheduler w ∧ mId t = id;
  settled_notified : Forall notifies_terminal (trace w)
}.

(** Consistency and the facts about the status map, together. *)
Definition well_kept (w : World) : Prop := consistent w ∧ settled w.

(** *** Task identifiers below a bound *)

(** Every identifier in use (status entries, scheduled tasks, hand-offs)
    lies in [[1, n)]; no two scheduled tasks share one; none was handed
    off twice; every scheduled task is [PENDING]. *)
Record task_ids_below (n : Z) (w : World) : Prop := mkTaskIdsBelow {
  ids_status : ∀ id, is_Some (mStatus (queue w) !! id) → 1 ≤ id < n;
  ids_scheduled : Forall (λ t, 1 ≤ mId t < n) (scheduler w);
  ids_distinct : NoDup (mId <$> scheduler w);
  ids_handed_off : ∀ id,
    count (hand_off_of id) (trace w) ≤ (if bool_decide (1 ≤ id < n) then 1 else 0);
  ids_pending :
    Forall (λ t, mStatus (queue w) !! mId t = Some PENDING) (scheduler w)
}.

(** *** Subscription identifiers below the counter *)

Definition subscriptions_below (n : Z) (q : Impl) : Prop :=
  ∀ id, is_Some (mNotifiers q !! id) → 1 ≤ id < n.

(** *** Scheduled tasks within the capacity *)

(** The capacity is [c], no more tasks are scheduled than it allows, and
    nothing was ever handed to the backend when it allows none. *)
Record within_capacity (c : Z) (w : World) : Prop := mkWithinCapacity {
  within_capacity_value : mCapacity (queue w) = c;
  within_capacity_scheduled : Z.of_nat (length (scheduler w)) ≤ Z.max 0 c;
  within_capacity_closed : c ≤ 0 → count is_hand_off (trace w) = 0
}.

(** ** Callbacks that throw

    The definitions above take the callbacks of the client to return.
    Those below follow the same lines of the source with callbacks that
    may throw: [invoke cb id status] is what the call
    [it->second(id, status)] of the registered callback [cb] does, [None]
    when it returns and [Some e] when it throws [e] (an empty
    [std::function] throws [std::bad_function_call]).  Nothing between the
    call and the caller of [execute] catches. *)

Variable invoke : Notifier → Z → Status → option Exn.

(** The body of the [for] loop over [mNotifiers]. *)
Fixpoint call_each_throwing (its : list (Z * Notifier)) (id : Z) (status : Status)
    : M unit :=
  match its with
  | [] => ret tt
  | it :: rest =>
      emit (EvNotifier it.1 it.2 id status) ;;;
      match invoke it.2 id status with
      | None => ret tt
      | Some e => throw e
      end ;;;
      call_each_throwing rest id status
  end.

(** [Impl::setStatusWithNotification] *)
Definition setStatusWithNotification_throwing (id : Z) (status : Status) : M unit :=
  let completed := is_terminal status in
  setStatus id status ;;;
  q <- get_impl ;;
  didNotify <-
    (if negb (Nat.eqb (base.size (mNotifiers q)) 0)
     then call_each_throwing (in_key_order (mNotifiers q)) id status ;;; ret true
     else ret false) ;;
  if completed then
    (if didNotify : bool
     then modify_impl (λ q, set_mStatus (delete id (mStatus q)) q)
     else ret tt) ;;;
    modify_impl (λ q, set_mNumTasks (to_Int32 (mNumTasks q - 1)) q)
  else ret tt.

(** [Task::notify] *)
Definition notify_throwing (t : Task) (status : Status) : M unit :=
  match mNotify t with
  | Some BoundSetStatusWithNotification =>
      emit (EvSink (mId t) status) ;;;
      setStatusWithNotification_throwing (mId t) status
  | None => ret tt
  end.

(** [OutputTask::execute]: the [try] block ends before [notify]. *)
Definition execute_throwing (t : Task) : M (option Task) :=
  status <-
    try_catch (archive_write t ;;; ret SUCCEEDED)
      (λ e, match as_std_exception e with
            | Some (Some msg) => emit (EvLogError msg) ;;; ret FAILED
            | Some None => ret FAILED
            | None => ret FAILED
            end) ;;
  notify_throwing t status ;;;
  ret None.

(** The callbacks that a fan-out over [its] calls: all up to and
    including the first that throws. *)
Fixpoint called (its : list (Z * Notifier)) (id : Z) (status : Status)
    : list (Z * Notifier) :=
  match its with
  | [] => []
  | it :: rest =>
      it :: match invoke it.2 id status with
            | None => called rest id status
            | Some _ => []
            end
  end.

(** What the first callback that throws throws. *)
Fixpoint thrown (its : list (Z * Notifier)) (id : Z) (status : Status) : option Exn :=
  match its with
  | [] => None
  | it :: rest =>
      match invoke it.2 id status with
      | None => thrown rest id status
      | Some e => Some e
      end
  end.

(** * Properties *)

(** Case analysis on what the write of a task did (returned, threw a
    [std::exception] with or without a message, threw something else),
    for goals about the events of the write that each case settles. *)
Local Ltac by_write_outcome :=
  destruct (write _ _ _) as [?e|];
  [destruct (as_std_exception _) as [[?msg|]|]|];
  by repeat constructor.

(** ** Closed forms of the completion path *)

Local Arguments setStatusWithNotification : simpl never.
Local Arguments execute : simpl never.

Lemma call_each_eq its id st w :
  call_each its id st w =
  (Ok tt, {| queue := queue w; scheduler := scheduler w;
             trace := trace w ++ ((λ it, EvNotifier it.1 it.2 id st) <$> its) |}).
Proof.
  revert w. induction its as [|it its IH]; intros w.
  - cbn. rewrite app_nil_r. by destruct w.
  - cbn [call_each]. unfold bind at 1, emit. rewrite IH. cbn.
    by rewrite <- app_assoc.
Qed.

Lemma in_key_order_empty (m : gmap Z Notifier) :
  base.size m = 0%nat → in_key_order m = [].
Proof.
  intros ->%map_size_empty_inv. unfold in_key_order.
  by rewrite map_to_list_empty.
Qed.

Lemma setStatusWithNotification_eq id st w :
  setStatusWithNotification id st w =
  (Ok tt, {| queue := after_completion id st (queue w); scheduler := scheduler w;
             trace := trace w ++ fan_out id st (queue w) |}).
Proof.
  unfold setStatusWithNotification, after_completion, fan_out, setStatus,
    bind, modify_impl, get_impl.
  cbn. destruct (Nat.eqb (base.size (mNotifiers (queue w))) 0) eqn:Hsz; cbn.
  - apply Nat.eqb_eq in Hsz. rewrite (in_key_order_empty _ Hsz). cbn.
    rewrite app_nil_r. by destruct (is_terminal st).
  - rewrite call_each_eq. cbn. by destruct (is_terminal st).
Qed.

Lemma execute_eq t w :
  execute t w =
  (Ok None,
   match mNotify t with
   | Some _ =>
       {| queue := after_completion (mId t) (outcome t) (queue w);
          scheduler := scheduler w;
          trace := trace w ++ write_events t ++
                   EvSink (mId t) (outcome t) :: fan_out (mId t) (outcome t) (queue w) |}
   | None =>
       {| queue := queue w; scheduler := scheduler w;
          trace := trace w ++ write_events t |}
   end).
Proof.
  unfold execute, archive_write, notify, outcome, write_events.
  unfold try_catch, bind, emit, ret, throw.
  destruct (write (mArchive t) (mGrids t) (mMetadata t)) as [e|]; cbn.
  - destruct (as_std_exception e) as [[msg|]|]; cbn;
      destruct (mNotify t) as [[]|]; cbn;
      rewrite ?setStatusWithNotification_eq; cbn;
      rewrite <- ?app_assoc; done.
  - destruct (mNotify t) as [[]|]; cbn;
      rewrite ?setStatusWithNotification_eq; cbn;
      rewrite <- ?app_assoc; done.
Qed.

Lemma new_events_app w w' evs :
  trace w' = trace w ++ evs → new_events w w' = evs.
Proof. intros H. unfold new_events. rewrite H. by rewrite drop_app_length. Qed.

(** ** Traversal of the notifier map *)

Global Instance key_le_trans : Transitive key_le.
Proof. intros x y z. unfold key_le. lia. Qed.

Global Instance key_le_total : Total key_le.
Proof. intros x y. unfold key_le. lia. Qed.

Lemma in_key_order_perm (m : gmap Z Notifier) : in_key_order m ≡ₚ map_to_list m.
Proof. apply merge_sort_Permutation. Qed.

Lemma elem_of_in_key_order (m : gmap Z Notifier) k cb :
  (k, cb) ∈ in_key_order m ↔ m !! k = Some cb.
Proof. rewrite in_key_order_perm. apply elem_of_map_to_list. Qed.

Lemma in_key_order_NoDup (m : gmap Z Notifier) : NoDup (in_key_order m).*1.
Proof. rewrite in_key_order_perm. apply NoDup_fst_map_to_list. Qed.

(** Sorted by [≤] and duplicate-free is sorted by [<]. *)
Lemma ascending_keys (l : list (Z * Notifier)) :
  StronglySorted key_le l → NoDup l.*1 → StronglySorted Z.lt l.*1.
Proof.
  induction 1 as [|x l Hl IH Hx]; intros Hnd; cbn; [constructor|].
  apply NoDup_cons in Hnd as [Hnot Hnd].
  constructor; [by apply IH|].
  apply Forall_fmap, Forall_forall. intros y Hy.
  rewrite Forall_forall in Hx. specialize (Hx y Hy). unfold key_le in Hx. cbn.
  assert (x.1 ≠ y.1); [|lia].
  intros Heq. apply Hnot. rewrite Heq. apply list_elem_of_fmap. eauto.
Qed.

Lemma in_key_order_ascending (m : gmap Z Notifier) :
  StronglySorted Z.lt (in_key_order m).*1.
Proof.
  apply ascending_keys; [|apply in_key_order_NoDup].
  unfold in_key_order. apply StronglySorted_merge_sort; apply _.
Qed.


(** ** Status polling *)

Local Arguments status : simpl never.

Lemma status_eq id w :
  status id w =
  match mStatus (queue w) !! id with
  | Some st =>
      (Ok st,
       if is_terminal st
       then {| queue := set_mStatus (delete id (mStatus (queue w))) (queue w);
               scheduler := scheduler w; trace := trace w |}
       else w)
  | None => (Ok UNKNOWN, w)
  end.
Proof.
  unfold status, bind, get_impl, modify_impl, ret.
  destruct (mStatus (queue w) !! id) as [st|]; [|done].
  destruct (is_terminal st); [done|]. by destruct w.
Qed.

Lemma status_absent id w :
  mStatus (queue w) !! id = None → status id w = (Ok UNKNOWN, w).
Proof. intros H. by rewrite status_eq, H. Qed.

Lemma status_absent_iter id w n :
  mStatus (queue w) !! id = None →
  Nat.iter n (λ v, (status id v).2) w = w.
Proof.
  intros H. induction n as [|n IH]; [done|].
  rewrite Nat.iter_succ, IH. by rewrite status_absent.
Qed.

(** C4: [status(id)] returns without waiting (a value, no sleep, the
    trace untouched); with an entry it returns the stored status, removes
    the entry when that status is [SUCCEEDED] or [FAILED], so that every
    later poll of the identifier answers [UNKNOWN], and leaves a [PENDING]
    entry in place; without an entry it answers [UNKNOWN] and changes
    nothing. *)
Theorem status_poll_consumes_terminal_entry id w :
  trace (status id w).2 = trace w ∧
  match mStatus (queue w) !! id with
  | Some st =>
      (status id w).1 = Ok st ∧
      if is_terminal st
      then mStatus (queue (status id w).2) = delete id (mStatus (queue w)) ∧
           ∀ n : nat,
             (status id (Nat.iter n (λ v, (status id v).2) (status id w).2)).1
             = Ok UNKNOWN
      else (status id w).2 = w
  | None => status id w = (Ok UNKNOWN, w)
  end.
Proof.
  rewrite status_eq.
  destruct (mStatus (queue w) !! id) as [st|] eqn:Hst; [|done].
  destruct (is_terminal st) eqn:Hterm; cbn; [|done].
  repeat split; try done.
  intros n.
  set (w1 := {| queue := _; scheduler := _; trace := _ |}).
  assert (H1 : mStatus (queue w1) !! id = None) by apply lookup_delete_eq.
  rewrite status_absent_iter by done. by rewrite status_absent.
Qed.

(** ** The completion handler *)


(** C9 (what the code does): [setCapacity] coerces its argument to at
    least 1, the constructor stores its argument as it is, so a queue
    constructed with capacity 0 reports capacity 0. *)
Theorem constructor_stores_zero_capacity :
  capacity (Queue_new 0) = 0 ∧ ∀ n q, 1 ≤ capacity (setCapacity n q).
Proof.
  split; [done|]. intros n q. unfold capacity, setCapacity. cbn. lia.
Qed.

(** C10: [writeGrid] behaves as [writeGridVec] on the vector that holds
    just that grid: same result (identifier, exception or wait), same
    queue, same scheduled tasks and same trace of writes and callbacks. *)
Theorem writeGrid_is_writeGridVec_of_singleton b grid archive metadata env w :
  writeGrid b grid archive metadata env w =
  writeGridVec b [grid] archive metadata env w.
Proof. reflexivity. Qed.

(** ** Arithmetic of the in-flight counter *)

Lemma to_Int32_small z : - Int32_half ≤ z < Int32_half → to_Int32 z = z.
Proof.
  unfold to_Int32, Int32_half, Index32_modulus. intros H.
  rewrite Z.mod_small; lia.
Qed.

Lemma to_Int32_add_l x y : to_Int32 (to_Int32 x + y) = to_Int32 (x + y).
Proof.
  unfold to_Int32, Int32_half, Index32_modulus. f_equal.
  replace ((x + 2 ^ 31) `mod` 2 ^ 32 - 2 ^ 31 + y + 2 ^ 31)
    with ((x + 2 ^ 31) `mod` 2 ^ 32 + y) by lia.
  rewrite Zplus_mod_idemp_l. f_equal. lia.
Qed.

Lemma to_Int32_sub_l x y : to_Int32 (to_Int32 x - y) = to_Int32 (x - y).
Proof.
  replace (to_Int32 x - y) with (to_Int32 x + - y) by lia.
  by rewrite to_Int32_add_l.
Qed.

Lemma to_Int32_idem x : to_Int32 (to_Int32 x) = to_Int32 x.
Proof.
  replace (to_Int32 x) with (to_Int32 x + 0) at 1 by lia.
  rewrite to_Int32_add_l. f_equal. lia.
Qed.

(** ** Counting *)

Lemma count_app {A} (p : A → bool) l1 l2 :
  count p (l1 ++ l2) = count p l1 + count p l2.
Proof. induction l1 as [|x l1 IH]; cbn; [done|]. rewrite IH. lia. Qed.

Lemma count_nonneg {A} (p : A → bool) l : 0 ≤ count p l.
Proof. induction l as [|x l IH]; cbn; [done|]. destruct (p x); lia. Qed.

Lemma count_none {A} (p : A → bool) l :
  Forall (λ x, p x = false) l → count p l = 0.
Proof. induction 1 as [|x l Hx _ IH]; cbn; [done|]. rewrite Hx, IH. done. Qed.

Lemma count_all {A} (l : list A) : count (λ _, true) l = Z.of_nat (length l).
Proof. induction l as [|x l IH]; cbn [count length]; [done|]. rewrite IH. lia. Qed.

Lemma count_delete {A} (p : A → bool) (l : list A) i x :
  l !! i = Some x →
  count p (delete i l) = count p l - (if p x then 1 else 0).
Proof.
  intros H. rewrite <- (take_drop_middle l i x H) at 2.
  rewrite delete_take_drop, !count_app. cbn. lia.
Qed.

Lemma count_fan_out p id st q :
  (∀ sub cb, p (EvNotifier sub cb id st) = false) → count p (fan_out id st q) = 0.
Proof.
  intros H. apply count_none. unfold fan_out. apply Forall_fmap, Forall_forall.
  intros it _. apply H.
Qed.

Lemma count_write_events p t :
  (∀ a g m, p (EvWrite (mId t) a g m) = false) →
  (∀ msg, p (EvLogError msg) = false) →
  count p (write_events t) = 0.
Proof.
  intros Hw Hl. unfold write_events. cbn. rewrite Hw.
  destruct (write (mArchive t) (mGrids t) (mMetadata t)) as [e|]; [|done].
  destruct (as_std_exception e) as [[msg|]|]; cbn; rewrite ?Hl; done.
Qed.

Lemma outcome_terminal t : is_terminal (outcome t) = true.
Proof. unfold outcome. by destruct (write _ _ _). Qed.

(** ** Completions keep the world consistent *)

Lemma after_completion_mNumTasks id st q :
  mNumTasks (after_completion id st q) =
  if is_terminal st then to_Int32 (mNumTasks q - 1) else mNumTasks q.
Proof. unfold after_completion. by destruct (is_terminal st). Qed.

Lemma after_completion_config id st q :
  mTimeout (after_completion id st q) = mTimeout q ∧
  mCapacity (after_completion id st q) = mCapacity q ∧
  mNextId (after_completion id st q) = mNextId q ∧
  mNotifiers (after_completion id st q) = mNotifiers q ∧
  mNextNotifierId (after_completion id st q) = mNextNotifierId q.
Proof.
  unfold after_completion.
  by destruct (is_terminal st), (negb (Nat.eqb (base.size (mNotifiers q)) 0)).
Qed.

Lemma after_completion_pending id st q i :
  is_terminal st = true →
  mStatus (after_completion id st q) !! i = Some PENDING →
  mStatus q !! i = Some PENDING.
Proof.
  unfold after_completion. intros Hterm. rewrite Hterm.
  destruct (negb (Nat.eqb (base.size (mNotifiers q)) 0)); cbn.
  - destruct (decide (id = i)) as [->|Hne].
    + by rewrite lookup_delete_eq.
    + by rewrite lookup_delete_ne, lookup_insert_ne.
  - destruct (decide (id = i)) as [->|Hne].
    + rewrite lookup_insert_eq. intros [= ->]. done.
    + by rewrite lookup_insert_ne.
Qed.

Lemma Forall_reports_terminal_fan_out id st q :
  Forall reports_terminal (fan_out id st q).
Proof. unfold fan_out. apply Forall_fmap, Forall_forall. by intros. Qed.

Lemma Forall_reports_terminal_write_events t :
  Forall reports_terminal (write_events t).
Proof.
  unfold write_events. constructor; [done|].
  by_write_outcome.
Qed.

Lemma execute_bound t w :
  mNotify t = Some BoundSetStatusWithNotification →
  execute t w =
  (Ok None,
   {| queue := after_completion (mId t) (outcome t) (queue w);
      scheduler := scheduler w;
      trace := trace w ++ completion_events t (queue w) |}).
Proof. intros H. by rewrite execute_eq, H. Qed.

Lemma count_completion_events_hand_off t q :
  count is_hand_off (completion_events t q) = 0.
Proof.
  unfold completion_events. rewrite count_app, count_write_events by done.
  cbn. by rewrite count_fan_out.
Qed.

Lemma count_completion_events_hand_off_of id t q :
  count (hand_off_of id) (completion_events t q) = 0.
Proof.
  unfold completion_events. rewrite count_app, count_write_events by done.
  cbn. by rewrite count_fan_out.
Qed.

Lemma count_completion_events_sink t q :
  count is_sink (completion_events t q) = 1.
Proof.
  unfold completion_events. rewrite count_app, count_write_events by done.
  cbn. by rewrite count_fan_out.
Qed.

Lemma count_completion_events_sink_of id t q :
  count (sink_of id) (completion_events t q) = if scheduled_as id t then 1 else 0.
Proof.
  unfold completion_events, scheduled_as.
  rewrite count_app, count_write_events by done.
  cbn. rewrite count_fan_out by done.
  destruct (bool_decide (mId t = id)); done.
Qed.

Lemma count_completion_events_sleep t q :
  count is_sleep (completion_events t q) = 0.
Proof.
  unfold completion_events. rewrite count_app, count_write_events by done.
  cbn. by rewrite count_fan_out.
Qed.

Lemma Forall_reports_terminal_completion_events t q :
  Forall reports_terminal (completion_events t q).
Proof.
  unfold completion_events. apply Forall_app. split.
  - apply Forall_reports_terminal_write_events.
  - constructor; [apply outcome_terminal|apply Forall_reports_terminal_fan_out].
Qed.

Local Arguments run_scheduled : simpl never.

Lemma run_scheduled_eq i w :
  run_scheduled i w =
  (Ok tt,
   match scheduler w !! i with
   | None => w
   | Some t =>
       (execute t {| queue := queue w; scheduler := delete i (scheduler w);
                     trace := trace w |}).2
   end).
Proof.
  unfold run_scheduled. destruct (scheduler w !! i) as [t|]; [|done].
  unfold bind, ret. by rewrite execute_eq.
Qed.

Lemma sinks_follow_writes_nil : sinks_follow_writes [].
Proof. intros pre id st post H. by destruct pre. Qed.

Lemma sinks_follow_writes_app tr evs :
  sinks_follow_writes tr →
  Forall (λ e, is_sink e = false) evs →
  sinks_follow_writes (tr ++ evs).
Proof.
  intros Htr Hevs pre id st post Heq.
  apply app_eq_inv in Heq as [(k & Htr' & Hpost)|(k & _ & Hevs')].
  - destruct k as [|e k].
    + cbn in Hpost. subst evs. by apply Forall_cons in Hevs as [Hsink _].
    + cbn in Hpost. injection Hpost as <- _. by eapply Htr.
  - subst evs. rewrite Forall_app, Forall_cons in Hevs.
    by destruct Hevs as (_ & ? & _).
Qed.

Lemma sinks_follow_writes_snoc_sink tr t :
  sinks_follow_writes tr →
  sinks_follow_writes ((tr ++ write_events t) ++ [EvSink (mId t) (outcome t)]).
Proof.
  intros Htr pre id st post Heq.
  assert (Hw : sinks_follow_writes (tr ++ write_events t)).
  { apply sinks_follow_writes_app; [done|].
    unfold write_events. constructor; [done|].
    by_write_outcome. }
  apply app_eq_inv in Heq as [(k & Hpre & Hpost)|(k & Hpre & Hlast)].
  - destruct k as [|e k].
    + cbn in Hpost. injection Hpost as -> -> ->.
      rewrite app_nil_r in Hpre. subst pre. unfold write_events.
      exists tr, (mArchive t), (mGrids t), (mMetadata t).
      eexists. split; [reflexivity|].
      by_write_outcome.
    + cbn in Hpost. injection Hpost as <- _. by eapply Hw.
  - destruct k as [|e k]; [|by destruct k].
    cbn in Hlast. injection Hlast as <- <- <-.
    rewrite app_nil_r in Hpre. subst pre. unfold write_events.
    exists tr, (mArchive t), (mGrids t), (mMetadata t).
    eexists. split; [reflexivity|].
    by_write_outcome.
Qed.

Lemma sinks_follow_writes_completion tr t q :
  sinks_follow_writes tr → sinks_follow_writes (tr ++ completion_events t q).
Proof.
  intros Htr. unfold completion_events.
  replace (tr ++ write_events t ++ EvSink (mId t) (outcome t) :: fan_out (mId t) (outcome t) q)
    with (((tr ++ write_events t) ++ [EvSink (mId t) (outcome t)])
          ++ fan_out (mId t) (outcome t) q)
    by (by rewrite <- !app_assoc).
  apply sinks_follow_writes_app; [by apply sinks_follow_writes_snoc_sink|].
  unfold fan_out. apply Forall_fmap, Forall_forall. by intros.
Qed.

Lemma consistent_run_scheduled i w :
  consistent w → consistent (run_scheduled i w).2.
Proof.
  intros [Hc Hb Hp Ht Hterm Hord]. rewrite run_scheduled_eq. cbn [snd].
  destruct (scheduler w !! i) as [t|] eqn:Hi; [|done].
  assert (Hbound : mNotify t = Some BoundSetStatusWithNotification).
  { by eapply (Forall_lookup_1 _ _ _ _ Hb Hi). }
  assert (Hlen : Z.of_nat (length (delete i (scheduler w)))
                 = Z.of_nat (length (scheduler w)) - 1).
  { rewrite <- !count_all. by rewrite (count_delete _ _ _ _ Hi). }
  rewrite execute_bound by done. cbn [snd]. split; cbn [queue scheduler trace].
  - rewrite after_completion_mNumTasks, outcome_terminal, Hc, Hlen.
    apply to_Int32_sub_l.
  - by apply Forall_delete.
  - intros id. rewrite !count_app, count_completion_events_sink_of,
      count_completion_events_hand_off_of, (count_delete _ _ _ _ Hi).
    specialize (Hp id). lia.
  - rewrite !count_app, count_completion_events_sink,
      count_completion_events_hand_off, Hlen. lia.
  - apply Forall_app. split; [done|apply Forall_reports_terminal_completion_events].
  - by apply sinks_follow_writes_completion.
Qed.

(** ** Sleeping in the admission loop *)

Lemma waited_refl w : waited w [] w.
Proof.
  split; try done.
  - by rewrite app_nil_r.
  - cbn. f_equal. lia.
Qed.

Lemma waited_trans w1 evs1 w2 evs2 w3 :
  waited w1 evs1 w2 → waited w2 evs2 w3 → waited w1 (evs1 ++ evs2) w3.
Proof.
  intros [] []. split; try congruence.
  - rewrite app_assoc. congruence.
  - by apply Forall_app.
  - rewrite count_app.
    replace (mNumTasks (queue w1) - (count is_sink evs1 + count is_sink evs2))
      with (mNumTasks (queue w1) - count is_sink evs1 - count is_sink evs2) by lia.
    rewrite <- to_Int32_sub_l.
    match goal with H : to_Int32 (mNumTasks (queue w2)) = _ |- _ => rewrite <- H end.
    rewrite to_Int32_sub_l. done.
  - eauto.
  - by etrans.
Qed.

Lemma Forall_no_hand_off_completion_events t q :
  Forall (λ e, is_hand_off e = false) (completion_events t q).
Proof.
  unfold completion_events, write_events, fan_out.
  apply Forall_app. split.
  - constructor; [done|]. by_write_outcome.
  - constructor; [done|]. apply Forall_fmap, Forall_forall. by intros.
Qed.

Lemma Forall_no_hand_off_write_events t :
  Forall (λ e, is_hand_off e = false) (write_events t).
Proof.
  unfold write_events. constructor; [done|].
  by_write_outcome.
Qed.

Lemma waited_run_scheduled i w :
  waited w (worker_events i w) (run_scheduled i w).2.
Proof.
  rewrite run_scheduled_eq. unfold worker_events. cbn [snd].
  destruct (scheduler w !! i) as [t|] eqn:Hi; [|apply waited_refl].
  rewrite execute_eq. cbn [snd].
  destruct (mNotify t) as [s|]; split; cbn [queue scheduler trace]; try done.
  all: try apply after_completion_config.
  - apply Forall_no_hand_off_completion_events.
  - rewrite after_completion_mNumTasks, outcome_terminal,
      count_completion_events_sink. apply to_Int32_idem.
  - intros j. apply after_completion_pending, outcome_terminal.
  - apply sublist_delete.
  - apply Forall_no_hand_off_write_events.
  - rewrite count_write_events by done. f_equal. lia.
  - apply sublist_delete.
Qed.

Lemma count_worker_events_sleep i w : count is_sleep (worker_events i w) = 0.
Proof.
  unfold worker_events. destruct (scheduler w !! i) as [t|]; [|done].
  destruct (mNotify t).
  - apply count_completion_events_sleep.
  - by apply count_write_events.
Qed.

Lemma run_each_scheduled_ok slots w : (run_each_scheduled slots w).1 = Ok tt.
Proof.
  revert w. induction slots as [|i slots IH]; intros w; [done|].
  cbn [run_each_scheduled]. unfold bind. rewrite run_scheduled_eq.
  apply IH.
Qed.

Lemma run_each_scheduled_cons i slots w :
  (run_each_scheduled (i :: slots) w).2
  = (run_each_scheduled slots (run_scheduled i w).2).2.
Proof.
  cbn [run_each_scheduled]. unfold bind. rewrite run_scheduled_eq. cbn [snd].
  by destruct (run_each_scheduled slots _) as [[]].
Qed.

Lemma waited_run_each_scheduled slots w :
  ∃ evs, waited w evs (run_each_scheduled slots w).2 ∧ count is_sleep evs = 0.
Proof.
  revert w. induction slots as [|i slots IH]; intros w.
  - exists []. split; [apply waited_refl|done].
  - rewrite run_each_scheduled_cons.
    destruct (IH (run_scheduled i w).2) as (evs & Hw & Hs).
    exists (worker_events i w ++ evs). split.
    + eapply waited_trans; [apply waited_run_scheduled|done].
    + by rewrite count_app, count_worker_events_sleep, Hs.
Qed.

Lemma consistent_run_each_scheduled slots w :
  consistent w → consistent (run_each_scheduled slots w).2.
Proof.
  revert w. induction slots as [|i slots IH]; intros w Hw; [done|].
  rewrite run_each_scheduled_cons. by apply IH, consistent_run_scheduled.
Qed.

Local Arguments run_each_scheduled : simpl never.

Lemma sleep_for_ok tick w : (sleep_for tick w).1 = Ok tt.
Proof. unfold sleep_for, bind, emit. apply run_each_scheduled_ok. Qed.

Lemma sleep_for_eq tick w :
  sleep_for tick w = (Ok tt, (sleep_for tick w).2).
Proof. rewrite <- (sleep_for_ok tick w). by destruct (sleep_for tick w). Qed.

Lemma waited_sleep_for tick w :
  ∃ evs, waited w (EvSleep :: evs) (sleep_for tick w).2 ∧ count is_sleep evs = 0.
Proof.
  unfold sleep_for, bind, emit.
  set (w1 := {| queue := queue w; scheduler := scheduler w;
                trace := trace w ++ [EvSleep] |}).
  destruct (waited_run_each_scheduled (finishing tick) w1) as (evs & Hw & Hs).
  exists evs. split; [|done].
  replace (run_each_scheduled (finishing tick) w1)
    with (Ok tt, (run_each_scheduled (finishing tick) w1).2).
  2:{ rewrite <- (run_each_scheduled_ok (finishing tick) w1).
      by destruct (run_each_scheduled _ _). }
  cbn [snd]. apply (waited_trans w [EvSleep] w1); [|done].
  split; try done.
  - by repeat constructor.
  - cbn. f_equal. lia.
Qed.

Lemma consistent_sleep_for tick w :
  consistent w → consistent (sleep_for tick w).2.
Proof.
  intros [Hc Hb Hp Ht Hterm Hord]. unfold sleep_for, bind, emit.
  set (w1 := {| queue := queue w; scheduler := scheduler w;
                trace := trace w ++ [EvSleep] |}).
  assert (H1 : consistent w1).
  { unfold w1. split; cbn [queue scheduler trace]; try done.
    - intros id. rewrite !count_app. cbn. specialize (Hp id). lia.
    - rewrite !count_app. cbn. lia.
    - apply Forall_app. split; [done|]. by repeat constructor.
    - apply sinks_follow_writes_app; [done|]. by repeat constructor. }
  replace (run_each_scheduled (finishing tick) w1)
    with (Ok tt, (run_each_scheduled (finishing tick) w1).2).
  2:{ rewrite <- (run_each_scheduled_ok (finishing tick) w1).
      by destruct (run_each_scheduled _ _). }
  by apply consistent_run_each_scheduled.
Qed.

Local Arguments sleep_for : simpl never.

Lemma slept_cons tick ticks w :
  slept (tick :: ticks) w = slept ticks (sleep_for tick w).2.
Proof. done. Qed.

Lemma slept_snoc ticks tick w :
  slept (ticks ++ [tick]) w = (sleep_for tick (slept ticks w)).2.
Proof. unfold slept. by rewrite foldl_app. Qed.

Lemma waited_slept ticks w :
  ∃ evs, waited w evs (slept ticks w) ∧ count is_sleep evs = Z.of_nat (length ticks).
Proof.
  revert w. induction ticks as [|tick ticks IH]; intros w.
  - exists []. split; [apply waited_refl|done].
  - rewrite slept_cons.
    destruct (waited_sleep_for tick w) as (evs1 & Hw1 & Hs1).
    destruct (IH (sleep_for tick w).2) as (evs2 & Hw2 & Hs2).
    exists ((EvSleep :: evs1) ++ evs2). split; [by eapply waited_trans|].
    rewrite count_app. cbn [count is_sleep length]. lia.
Qed.

Lemma consistent_slept ticks w : consistent w → consistent (slept ticks w).
Proof.
  revert w. induction ticks as [|tick ticks IH]; intros w Hw; [done|].
  rewrite slept_cons. by apply IH, consistent_sleep_for.
Qed.

(** ** The admission loop *)

Lemma wait_until_can_enqueue_cons tick env w :
  wait_until_can_enqueue (tick :: env) w =
  if canEnqueue (queue w) then (Ok tt, w)
  else if duration_cast_seconds (elapsed_ns tick) >? mTimeout (queue w)
       then (Raise (RuntimeError (time_limit_message (mTimeout (queue w)))),
             (sleep_for tick w).2)
       else wait_until_can_enqueue env (sleep_for tick w).2.
Proof.
  cbn [wait_until_can_enqueue]. destruct (canEnqueue (queue w)); [done|].
  unfold bind at 1. rewrite sleep_for_eq. unfold bind, get_impl, throw.
  destruct (waited_sleep_for tick w) as (evs & [] & _).
  match goal with H : mTimeout _ = mTimeout _ |- _ => rewrite H end.
  by destruct (_ >? _).
Qed.

Lemma wait_until_can_enqueue_nil w :
  wait_until_can_enqueue [] w =
  if canEnqueue (queue w) then (Ok tt, w) else (Stalled, w).
Proof. done. Qed.

Local Arguments wait_until_can_enqueue : simpl never.

Lemma mTimeout_slept ticks w : mTimeout (queue (slept ticks w)) = mTimeout (queue w).
Proof. destruct (waited_slept ticks w) as (evs & [] & _). done. Qed.

(** The loop ends in the world reached by sleeping through a prefix of
    the environment: with capacity available when it returns; when it
    throws, after at least one sleep, the last of them ending past the
    timeout. *)
Lemma wait_until_can_enqueue_slept env w :
  ∃ ticks,
    ticks `prefix_of` env ∧
    (wait_until_can_enqueue env w).2 = slept ticks w ∧
    match (wait_until_can_enqueue env w).1 with
    | Ok _ => canEnqueue (queue (slept ticks w)) = true
    | Raise e =>
        e = RuntimeError (time_limit_message (mTimeout (queue w))) ∧
        ∃ init tick,
          ticks = init ++ [tick] ∧
          mTimeout (queue w) < duration_cast_seconds (elapsed_ns tick)
    | Stalled => ticks = env
    end.
Proof.
  revert w. induction env as [|tick env IH]; intros w.
  - rewrite wait_until_can_enqueue_nil. exists [].
    destruct (canEnqueue (queue w)) eqn:Hc; cbn; by repeat split.
  - rewrite wait_until_can_enqueue_cons.
    destruct (canEnqueue (queue w)) eqn:Hc.
    { exists []. cbn. repeat split; [apply prefix_nil|done]. }
    destruct (Z.gtb_spec (duration_cast_seconds (elapsed_ns tick)) (mTimeout (queue w)))
      as [Hlate|Hearly].
    { exists [tick]. cbn. repeat split; try done.
      - apply prefix_cons, prefix_nil.
      - by exists [], tick. }
    destruct (IH (sleep_for tick w).2) as (ticks & Hpre & Hw & Hr).
    exists (tick :: ticks). rewrite slept_cons. split; [by apply prefix_cons|].
    split; [done|].
    assert (Hto : mTimeout (queue (sleep_for tick w).2) = mTimeout (queue w)).
    { apply (mTimeout_slept [tick] w). }
    destruct (wait_until_can_enqueue env (sleep_for tick w).2).1; try done.
    + destruct Hr as (-> & init & last & -> & Hlast). rewrite Hto in *.
      split; [done|]. by exists (tick :: init), last.
    + by subst.
Qed.

(** The timeout elapses before capacity becomes available: the queue is
    full before each sleep, the clock reads at most the timeout after the
    sleeps of [waiting] and more than the timeout after the next one. *)
Lemma wait_until_can_enqueue_times_out waiting tick rest w :
  (∀ ticks, ticks `prefix_of` waiting → canEnqueue (queue (slept ticks w)) = false) →
  Forall (λ t, duration_cast_seconds (elapsed_ns t) ≤ mTimeout (queue w)) waiting →
  mTimeout (queue w) < duration_cast_seconds (elapsed_ns tick) →
  wait_until_can_enqueue (waiting ++ tick :: rest) w =
  (Raise (RuntimeError (time_limit_message (mTimeout (queue w)))),
   slept (waiting ++ [tick]) w).
Proof.
  revert w. induction waiting as [|t waiting IH]; intros w Hfull Hearly Hlate.
  - cbn [app]. rewrite wait_until_can_enqueue_cons.
    pose proof (Hfull [] (prefix_nil _)) as H0. cbn in H0. rewrite H0.
    destruct (Z.gtb_spec (duration_cast_seconds (elapsed_ns tick)) (mTimeout (queue w)));
      [done|lia].
  - cbn [app]. rewrite wait_until_can_enqueue_cons.
    pose proof (Hfull [] (prefix_nil _)) as H0. cbn in H0. rewrite H0.
    apply Forall_cons in Hearly as [Ht Hearly].
    destruct (Z.gtb_spec (duration_cast_seconds (elapsed_ns t)) (mTimeout (queue w)));
      [lia|].
    assert (Hto : mTimeout (queue (sleep_for t w).2) = mTimeout (queue w)).
    { apply (mTimeout_slept [t] w). }
    rewrite IH, Hto; [done| |by rewrite Hto|by rewrite Hto].
    intros ticks Hpre. rewrite <- slept_cons. apply Hfull. by apply prefix_cons.
Qed.

(** ** Admission and submission, in closed form *)

Lemma enqueue_eq b t env w :
  enqueue b t env w =
  match wait_until_can_enqueue env w with
  | (Ok _, w1) => (Ok tt, enqueued b t w1)
  | (Raise e, w1) => (Raise e, w1)
  | (Stalled, w1) => (Stalled, w1)
  end.
Proof.
  unfold enqueue. unfold bind at 1.
  destruct (wait_until_can_enqueue env w) as [[[]|e|] w1]; try done.
  unfold enqueued, bind, setStatus, emit, modify_impl, tbb_task_enqueue, ret.
  cbn [queue scheduler trace mId setNotifier].
  destruct b; [done|].
  rewrite execute_bound by done. done.
Qed.

Lemma consistent_enqueued b t w : consistent w → consistent (enqueued b t w).
Proof.
  intros [Hc Hb Hp Ht Hterm Hord]. unfold enqueued. destruct b.
  - split; cbn [queue scheduler trace mNumTasks set_mNumTasks set_mStatus].
    + rewrite Hc, to_Int32_add_l, length_app. cbn [length]. f_equal. lia.
    + apply Forall_app. split; [done|]. by repeat constructor.
    + intros id. rewrite !count_app. cbn. unfold scheduled_as at 2. cbn.
      specialize (Hp id). lia.
    + rewrite !count_app, length_app. cbn. lia.
    + apply Forall_app. split; [done|]. by repeat constructor.
    + apply sinks_follow_writes_app; [done|]. by repeat constructor.
  - split; cbn [queue scheduler trace mNumTasks set_mNumTasks].
    + rewrite after_completion_mNumTasks, outcome_terminal.
      cbn [mNumTasks set_mStatus]. rewrite Hc.
      rewrite to_Int32_add_l.
      replace (to_Int32 (Z.of_nat (length (scheduler w))) - 1 + 1)
        with (to_Int32 (Z.of_nat (length (scheduler w)))) by lia.
      apply to_Int32_idem.
    + done.
    + intros id. rewrite !count_app, count_completion_events_sink_of,
        count_completion_events_hand_off_of. cbn.
      specialize (Hp id). unfold scheduled_as in *. cbn. lia.
    + rewrite !count_app, count_completion_events_sink,
        count_completion_events_hand_off. cbn. lia.
    + apply Forall_app. split.
      * apply Forall_app. split; [done|]. by repeat constructor.
      * apply Forall_reports_terminal_completion_events.
    + apply sinks_follow_writes_completion, sinks_follow_writes_app; [done|].
      by repeat constructor.
Qed.

Lemma writeGridVec_eq b grids archive metadata env w :
  writeGridVec b grids archive metadata env w =
  match enqueue b (OutputTask (mNextId (queue w)) grids archive metadata) env
          (with_next_id (to_Index32 (mNextId (queue w) + 1)) w) with
  | (Ok _, w') => (Ok (mNextId (queue w)), w')
  | (Raise e, w') => (Raise e, w')
  | (Stalled, w') => (Stalled, w')
  end.
Proof.
  unfold writeGridVec, bind, get_impl, modify_impl, try_catch, throw, ret, with_next_id.
  destruct (enqueue b _ env _) as [[[]|e|] w']; try done. by destruct e.
Qed.

Local Arguments writeGridVec : simpl never.
Local Arguments enqueue : simpl never.

Lemma after_completion_set_mNextId id st v q :
  after_completion id st (set_mNextId v q) = set_mNextId v (after_completion id st q).
Proof.
  unfold after_completion. cbn.
  by destruct (is_terminal st), (negb (Nat.eqb (base.size (mNotifiers q)) 0)).
Qed.

Lemma execute_with_next_id t v w :
  (execute t (with_next_id v w)).2 = with_next_id v (execute t w).2.
Proof.
  rewrite !execute_eq. cbn [snd]. destruct (mNotify t); [|done].
  unfold with_next_id. cbn [queue scheduler trace].
  by rewrite after_completion_set_mNextId.
Qed.

Lemma run_scheduled_with_next_id i v w :
  (run_scheduled i (with_next_id v w)).2 = with_next_id v (run_scheduled i w).2.
Proof.
  rewrite !run_scheduled_eq. cbn [snd scheduler with_next_id].
  destruct (scheduler w !! i) as [t|]; [|done].
  apply (execute_with_next_id t v
           {| queue := queue w; scheduler := delete i (scheduler w); trace := trace w |}).
Qed.

Lemma run_each_scheduled_with_next_id slots v w :
  (run_each_scheduled slots (with_next_id v w)).2
  = with_next_id v (run_each_scheduled slots w).2.
Proof.
  revert w. induction slots as [|i slots IH]; intros w; [done|].
  by rewrite !run_each_scheduled_cons, run_scheduled_with_next_id, IH.
Qed.

Lemma sleep_for_with_next_id tick v w :
  (sleep_for tick (with_next_id v w)).2 = with_next_id v (sleep_for tick w).2.
Proof.
  unfold sleep_for, bind, emit.
  pose proof (run_each_scheduled_with_next_id (finishing tick) v
    {| queue := queue w; scheduler := scheduler w; trace := trace w ++ [EvSleep] |}) as H.
  unfold with_next_id in *. cbn [queue scheduler trace] in *.
  pose proof (run_each_scheduled_ok (finishing tick)
    {| queue := set_mNextId v (queue w); scheduler := scheduler w;
       trace := trace w ++ [EvSleep] |}) as H1.
  pose proof (run_each_scheduled_ok (finishing tick)
    {| queue := queue w; scheduler := scheduler w;
       trace := trace w ++ [EvSleep] |}) as H2.
  destruct (run_each_scheduled _ _) as [r1 v1], (run_each_scheduled _ _) as [r2 v2].
  cbn in *. by subst.
Qed.

Lemma slept_with_next_id ticks v w :
  slept ticks (with_next_id v w) = with_next_id v (slept ticks w).
Proof.
  revert w. induction ticks as [|tick ticks IH]; intros w; [done|].
  by rewrite !slept_cons, sleep_for_with_next_id, IH.
Qed.

Lemma consistent_with_next_id v w : consistent w → consistent (with_next_id v w).
Proof. by intros []. Qed.

(** ** Every operation keeps the world consistent *)

Lemma consistent_modify_impl f w :
  (∀ q, mNumTasks (f q) = mNumTasks q) →
  consistent w → consistent (modify_impl f w).2.
Proof. intros Hf []. split; cbn; try done. by rewrite Hf. Qed.

Lemma consistent_enqueue b t env w : consistent w → consistent (enqueue b t env w).2.
Proof.
  intros Hw. rewrite enqueue_eq.
  destruct (wait_until_can_enqueue_slept env w) as (ticks & _ & Hs & _).
  destruct (wait_until_can_enqueue env w) as [[[]|e|] w1]; cbn [snd] in *; subst w1.
  - by apply consistent_enqueued, consistent_slept.
  - by apply consistent_slept.
  - by apply consistent_slept.
Qed.

Lemma consistent_writeGridVec b grids archive metadata env w :
  consistent w → consistent (writeGridVec b grids archive metadata env w).2.
Proof.
  intros Hw. rewrite writeGridVec_eq.
  pose proof (consistent_enqueue b
    (OutputTask (mNextId (queue w)) grids archive metadata) env _
    (consistent_with_next_id (to_Index32 (mNextId (queue w) + 1)) w Hw)) as H.
  by destruct (enqueue b _ env _) as [[[]|e|] w'].
Qed.

Lemma discard_snd {A} (m : M A) w : (discard m w).2 = (m w).2.
Proof. unfold discard, bind, ret. by destruct (m w) as [[]]. Qed.

Lemma consistent_step b op w : consistent w → consistent (step b op w).2.
Proof.
  intros Hw. destruct op; cbn [step]; rewrite ?discard_snd.
  - by apply consistent_writeGridVec.
  - by apply consistent_writeGridVec.
  - rewrite status_eq. destruct (mStatus (queue w) !! id) as [st|]; [|done].
    cbn [snd]. destruct (is_terminal st); [|done]. by destruct Hw.
  - by destruct Hw.
  - unfold removeNotifier, bind, get_impl.
    destruct (mNotifiers (queue w) !! id); [|done]. by destruct Hw.
  - by destruct Hw.
  - by destruct Hw.
  - by destruct Hw.
  - by apply consistent_run_scheduled.
Qed.

Lemma consistent_new_world capacity : consistent (new_world capacity).
Proof. split; try done. apply sinks_follow_writes_nil. Qed.

Lemma consistent_run b ops w : consistent w → consistent (run b ops w).
Proof.
  revert w. induction ops as [|op ops IH]; intros w Hw; [done|].
  cbn [run]. pose proof (consistent_step b op w Hw) as H.
  destruct (step b op w) as [[[]|e|] w']; cbn [snd] in H; auto.
Qed.

(** ** Without TBB nothing is ever scheduled *)

Lemma scheduler_slept ticks w : scheduler w = [] → scheduler (slept ticks w) = [].
Proof.
  intros Hnil. destruct (waited_slept ticks w) as (evs & [] & _).
  apply sublist_nil_r. by rewrite <- Hnil.
Qed.

Lemma scheduler_writeGridVec_NoTBB grids archive metadata env w :
  scheduler w = [] → scheduler (writeGridVec NoTBB grids archive metadata env w).2 = [].
Proof.
  intros Hnil. rewrite writeGridVec_eq, enqueue_eq.
  destruct (wait_until_can_enqueue_slept env
    (with_next_id (to_Index32 (mNextId (queue w) + 1)) w)) as (ticks & _ & Hs & _).
  destruct (wait_until_can_enqueue env _) as [[[]|e|] w1]; cbn [snd] in *; subst w1;
    cbn [enqueued scheduler]; by apply scheduler_slept.
Qed.

Lemma scheduler_step_NoTBB op w :
  scheduler w = [] → scheduler (step NoTBB op w).2 = [].
Proof.
  intros Hnil. destruct op; cbn [step]; rewrite ?discard_snd.
  - by apply scheduler_writeGridVec_NoTBB.
  - by apply scheduler_writeGridVec_NoTBB.
  - rewrite status_eq. destruct (mStatus (queue w) !! id) as [st|]; [|done].
    cbn [snd]. by destruct (is_terminal st).
  - done.
  - unfold removeNotifier, bind, get_impl.
    by destruct (mNotifiers (queue w) !! id).
  - done.
  - done.
  - done.
  - rewrite run_scheduled_eq. cbn [snd]. by rewrite Hnil.
Qed.

Lemma scheduler_run_NoTBB ops w : scheduler w = [] → scheduler (run NoTBB ops w) = [].
Proof.
  revert w. induction ops as [|op ops IH]; intros w Hw; [done|].
  cbn [run]. pose proof (scheduler_step_NoTBB op w Hw) as H.
  destruct (step NoTBB op w) as [[[]|e|] w']; cbn [snd] in H; auto.
Qed.

(** ** The in-flight count *)


(** ** One notification per task *)

(** C6: in every reachable world the sink has fired, for each task
    identifier, at most as often as a task with that identifier was handed
    to the backend (exactly as often without TBB, where the hand-off runs
    the task), every firing carried [SUCCEEDED] or [FAILED], and every
    firing comes right after the write of its task; one execution of a
    task fires the sink exactly once, with [SUCCEEDED] or [FAILED], and
    only after the write, which is the first thing the execution does. *)
Theorem sink_fires_once_per_task_with_terminal_status b capacity ops id t w0 :
  let w := run b ops (new_world capacity) in
  let evs :=
    new_events w0 (execute (setNotifier BoundSetStatusWithNotification t) w0).2 in
  count (sink_of id) (trace w) ≤ count (hand_off_of id) (trace w) ∧
  (b = NoTBB → count (sink_of id) (trace w) = count (hand_off_of id) (trace w)) ∧
  Forall reports_terminal (trace w) ∧
  sinks_follow_writes (trace w) ∧
  count is_sink evs = 1 ∧
  ∃ log st after,
    evs = EvWrite (mId t) (mArchive t) (mGrids t) (mMetadata t) :: log
          ++ EvSink (mId t) st :: after ∧
    count is_sink log = 0 ∧ count is_sink after = 0 ∧
    (st = SUCCEEDED ∨ st = FAILED).
Proof.
  intros w evs.
  destruct (consistent_run b ops (new_world capacity) (consistent_new_world capacity))
    as [_ _ Hp _ Hterm Hord].
  fold w in Hp, Hterm. specialize (Hp id).
  pose proof (count_nonneg (scheduled_as id) (scheduler w)) as Hnn.
  split; [lia|]. split.
  { intros ->. unfold w in *. rewrite scheduler_run_NoTBB in Hp by done.
    cbn in Hp. lia. }
  split; [done|]. split; [done|].
  subst evs. rewrite execute_bound by done. cbn [snd].
  erewrite new_events_app by reflexivity.
  split; [apply count_completion_events_sink|].
  unfold completion_events, write_events, outcome.
  cbn [mId mArchive mGrids mMetadata setNotifier].
  destruct (write (mArchive t) (mGrids t) (mMetadata t)) as [e|].
  - destruct (as_std_exception e) as [[msg|]|].
    + exists [EvLogError msg], FAILED, (fan_out (mId t) FAILED (queue w0)).
      repeat split; try done; [by apply count_fan_out|by right].
    + exists [], FAILED, (fan_out (mId t) FAILED (queue w0)).
      repeat split; try done; [by apply count_fan_out|by right].
    + exists [], FAILED, (fan_out (mId t) FAILED (queue w0)).
      repeat split; try done; [by apply count_fan_out|by right].
  - exists [], SUCCEEDED, (fan_out (mId t) SUCCEEDED (queue w0)).
    repeat split; try done; [by apply count_fan_out|by left].
Qed.

(** ** Admission that fails *)

Lemma wait_until_can_enqueue_free env w :
  canEnqueue (queue w) = true → wait_until_can_enqueue env w = (Ok tt, w).
Proof.
  intros H. destruct env as [|tick env].
  - by rewrite wait_until_can_enqueue_nil, H.
  - by rewrite wait_until_can_enqueue_cons, H.
Qed.

Lemma writeGridVec_accepts b grids archive metadata env w :
  canEnqueue (queue w) = true →
  writeGridVec b grids archive metadata env w =
  (Ok (mNextId (queue w)),
   enqueued b (OutputTask (mNextId (queue w)) grids archive metadata)
     (with_next_id (to_Index32 (mNextId (queue w) + 1)) w)).
Proof.
  intros H. by rewrite writeGridVec_eq, enqueue_eq, wait_until_can_enqueue_free.
Qed.

(** A submission that throws: what was thrown, and the world it leaves. *)
Lemma writeGridVec_raises b grids archive metadata env w e w' :
  writeGridVec b grids archive metadata env w = (Raise e, w') →
  e = RuntimeError (time_limit_message (mTimeout (queue w))) ∧
  ∃ init tick,
    (init ++ [tick]) `prefix_of` env ∧
    mTimeout (queue w) < duration_cast_seconds (elapsed_ns tick) ∧
    w' = with_next_id (to_Index32 (mNextId (queue w) + 1)) (slept (init ++ [tick]) w).
Proof.
  rewrite writeGridVec_eq, enqueue_eq.
  destruct (wait_until_can_enqueue_slept env
    (with_next_id (to_Index32 (mNextId (queue w) + 1)) w)) as (ticks & Hpre & Hs & Hr).
  destruct (wait_until_can_enqueue env _) as [[[]|e1|] w1]; try done.
  intros [= -> ->]. cbn [fst snd] in *.
  destruct Hr as (-> & init & tick & -> & Hlate). cbn in Hlate.
  split; [done|]. exists init, tick. by rewrite <- slept_with_next_id.
Qed.

Lemma new_events_slept ticks v w :
  ∃ evs,
    waited w evs (slept ticks w) ∧
    new_events w (with_next_id v (slept ticks w)) = evs ∧
    count is_sleep evs = Z.of_nat (length ticks).
Proof.
  destruct (waited_slept ticks w) as (evs & Hw & Hs).
  exists evs. split; [done|]. split; [|done].
  apply new_events_app. by destruct Hw.
Qed.

(** C8 (amended): whatever the timeout, and so with the timeout 0, the
    admission error is never raised without a wait: a submission that
    finds the queue full sleeps first and throws only after a sleep at
    whose end the elapsed whole seconds exceed the timeout, for the
    timeout 0 after at least one whole second. *)
Theorem zero_timeout_error_follows_a_sleep b grids archive metadata env w e w' :
  mTimeout (queue w) = 0 →
  canEnqueue (queue w) = false →
  writeGridVec b grids archive metadata env w = (Raise e, w') →
  e = RuntimeError (time_limit_message 0) ∧
  1 ≤ count is_sleep (new_events w w') ∧
  ∃ tick, tick ∈ env ∧ 1 ≤ duration_cast_seconds (elapsed_ns tick).
Proof.
  intros Hzero _ Hraise.
  apply writeGridVec_raises in Hraise as (-> & init & tick & Hpre & Hlate & ->).
  rewrite Hzero in *. split; [done|].
  destruct (new_events_slept (init ++ [tick])
    (to_Index32 (mNextId (queue w) + 1)) w) as (evs & _ & -> & ->).
  split.
  - rewrite length_app. cbn. lia.
  - exists tick. split; [|lia].
    destruct Hpre as [rest ->]. rewrite <- app_assoc.
    apply elem_of_app. right. apply list_elem_of_here.
Qed.

(** C1 (amended): when the timeout elapses before capacity becomes
    available -- the queue is full before every sleep and the clock passes
    the timeout at the end of one -- the submission throws the
    [RuntimeError] to its caller; nothing is handed to the backend, no
    [PENDING] entry appears, nothing is scheduled and the in-flight counter
    only goes down with the completions that happened meanwhile; the task
    identifier is consumed all the same ([mNextId] has advanced); and the
    queue accepts the next submission as soon as it has capacity, under the
    following identifier. *)
Theorem admission_timeout_throws_and_consumes_identifier
    b grids archive metadata waiting tick rest w :
  (∀ ticks, ticks `prefix_of` waiting → canEnqueue (queue (slept ticks w)) = false) →
  Forall (λ t, duration_cast_seconds (elapsed_ns t) ≤ mTimeout (queue w)) waiting →
  mTimeout (queue w) < duration_cast_seconds (elapsed_ns tick) →
  ∃ w',
    writeGridVec b grids archive metadata (waiting ++ tick :: rest) w
    = (Raise (RuntimeError (time_limit_message (mTimeout (queue w)))), w') ∧
    mNextId (queue w') = to_Index32 (mNextId (queue w) + 1) ∧
    count is_hand_off (new_events w w') = 0 ∧
    (∀ i, mStatus (queue w') !! i = Some PENDING →
          mStatus (queue w) !! i = Some PENDING) ∧
    scheduler w' `sublist_of` scheduler w ∧
    to_Int32 (mNumTasks (queue w'))
    = to_Int32 (mNumTasks (queue w) - count is_sink (new_events w w')) ∧
    ∀ grids2 archive2 metadata2 env2,
      canEnqueue (queue w') = true →
      (writeGridVec b grids2 archive2 metadata2 env2 w').1
      = Ok (to_Index32 (mNextId (queue w) + 1)).
Proof.
  intros Hfull Hearly Hlate.
  set (v := to_Index32 (mNextId (queue w) + 1)).
  exists (with_next_id v (slept (waiting ++ [tick]) w)).
  split.
  { rewrite writeGridVec_eq, enqueue_eq. fold v.
    rewrite wait_until_can_enqueue_times_out; cbn [with_next_id queue mTimeout set_mNextId];
      [by rewrite slept_with_next_id|..|done|done].
    intros ticks Hpre. rewrite slept_with_next_id. cbn. by apply Hfull. }
  destruct (new_events_slept (waiting ++ [tick]) v w) as (evs & [] & -> & _).
  cbn [with_next_id queue scheduler mNextId mStatus mNumTasks set_mNextId].
  split; [done|]. split; [by apply count_none|].
  split; [done|]. split; [done|]. split; [done|].
  intros grids2 archive2 metadata2 env2 Hcan.
  by rewrite writeGridVec_accepts.
Qed.

(** ** Filling the queue under TBB *)



(** * Further properties *)

(** ** The world after a submission, in every case *)

Lemma sleep_for_snd tick w :
  (sleep_for tick w).2 = (run_each_scheduled (finishing tick) (emit EvSleep w).2).2.
Proof.
  unfold sleep_for, bind, emit. cbn [snd].
  by destruct (run_each_scheduled _ _) as [[]].
Qed.

(** What holds before a sleep and is kept by every worker's turn holds
    after any number of sleeps. *)
Lemma slept_preserves (I : World → Prop) :
  (∀ w, I w → I (emit EvSleep w).2) →
  (∀ i w, I w → I (run_scheduled i w).2) →
  ∀ ticks w, I w → I (slept ticks w).
Proof.
  intros Hsleep Hworker. induction ticks as [|tick ticks IH]; intros w Hw; [done|].
  rewrite slept_cons. apply IH. rewrite sleep_for_snd.
  generalize (Hsleep w Hw). generalize ((emit EvSleep w).2).
  induction (finishing tick) as [|i slots IHs]; intros v Hv; [done|].
  rewrite run_each_scheduled_cons. by apply IHs, Hworker.
Qed.

Lemma run_preserves (I : World → Prop) b :
  (∀ op w, I w → I (step b op w).2) →
  ∀ ops w, I w → I (run b ops w).
Proof.
  intros Hstep. induction ops as [|op ops IH]; intros w Hw; [done|].
  cbn [run]. pose proof (Hstep op w Hw) as H.
  destruct (step b op w) as [[[]|e|] w']; cbn [snd] in H; auto.
Qed.

(** A submission takes an identifier, sleeps through a prefix of its
    environment and, when it returns, ends with the admission. *)
Lemma writeGridVec_world b grids archive metadata env w :
  ∃ ticks,
    ticks `prefix_of` env ∧
    match (writeGridVec b grids archive metadata env w).1 with
    | Ok id =>
        id = mNextId (queue w) ∧
        canEnqueue
          (queue (slept ticks (with_next_id (to_Index32 (mNextId (queue w) + 1)) w)))
        = true ∧
        (writeGridVec b grids archive metadata env w).2 =
        enqueued b (OutputTask (mNextId (queue w)) grids archive metadata)
          (slept ticks (with_next_id (to_Index32 (mNextId (queue w) + 1)) w))
    | _ =>
        (writeGridVec b grids archive metadata env w).2 =
        slept ticks (with_next_id (to_Index32 (mNextId (queue w) + 1)) w)
    end.
Proof.
  rewrite writeGridVec_eq, enqueue_eq.
  destruct (wait_until_can_enqueue_slept env
    (with_next_id (to_Index32 (mNextId (queue w) + 1)) w)) as (ticks & Hpre & Hs & Hr).
  exists ticks. split; [done|].
  destruct (wait_until_can_enqueue env _) as [[[]|e|] w1]; cbn [fst snd] in *; by subst.
Qed.

Lemma enqueued_config b t w :
  mTimeout (queue (enqueued b t w)) = mTimeout (queue w) ∧
  mCapacity (queue (enqueued b t w)) = mCapacity (queue w) ∧
  mNextId (queue (enqueued b t w)) = mNextId (queue w) ∧
  mNotifiers (queue (enqueued b t w)) = mNotifiers (queue w) ∧
  mNextNotifierId (queue (enqueued b t w)) = mNextNotifierId (queue w).
Proof.
  unfold enqueued. destruct b; cbn [queue]; [done|].
  pose proof (after_completion_config (mId t) (outcome t)
    (set_mStatus (<[mId t := PENDING]> (mStatus (queue w))) (queue w))) as H.
  cbn in *. naive_solver.
Qed.

Lemma slept_config ticks w :
  mTimeout (queue (slept ticks w)) = mTimeout (queue w) ∧
  mCapacity (queue (slept ticks w)) = mCapacity (queue w) ∧
  mNextId (queue (slept ticks w)) = mNextId (queue w) ∧
  mNotifiers (queue (slept ticks w)) = mNotifiers (queue w) ∧
  mNextNotifierId (queue (slept ticks w)) = mNextNotifierId (queue w).
Proof. by destruct (waited_slept ticks w) as (evs & [] & _). Qed.

(** What a submission leaves of the configuration, the counters and the
    registry. *)
Lemma writeGridVec_config b grids archive metadata env w :
  let w' := (writeGridVec b grids archive metadata env w).2 in
  mTimeout (queue w') = mTimeout (queue w) ∧
  mCapacity (queue w') = mCapacity (queue w) ∧
  mNextId (queue w') = to_Index32 (mNextId (queue w) + 1) ∧
  mNotifiers (queue w') = mNotifiers (queue w) ∧
  mNextNotifierId (queue w') = mNextNotifierId (queue w).
Proof.
  cbn zeta.
  destruct (writeGridVec_world b grids archive metadata env w) as (ticks & _ & H).
  pose proof (slept_config ticks
    (with_next_id (to_Index32 (mNextId (queue w) + 1)) w)) as Hs.
  cbn [with_next_id queue mTimeout mCapacity mNextId mNotifiers mNextNotifierId
       set_mNextId] in Hs.
  destruct (writeGridVec b grids archive metadata env w).1 as [id|e|].
  - destruct H as (_ & _ & ->).
    pose proof (enqueued_config b (OutputTask (mNextId (queue w)) grids archive metadata)
      (slept ticks (with_next_id (to_Index32 (mNextId (queue w) + 1)) w))) as He.
    destruct He as (-> & -> & -> & -> & ->). done.
  - by rewrite H.
  - by rewrite H.
Qed.

Lemma run_scheduled_config i w :
  mTimeout (queue (run_scheduled i w).2) = mTimeout (queue w) ∧
  mCapacity (queue (run_scheduled i w).2) = mCapacity (queue w) ∧
  mNextId (queue (run_scheduled i w).2) = mNextId (queue w) ∧
  mNotifiers (queue (run_scheduled i w).2) = mNotifiers (queue w) ∧
  mNextNotifierId (queue (run_scheduled i w).2) = mNextNotifierId (queue w).
Proof. by destruct (waited_run_scheduled i w). Qed.

(** ** What each operation leaves alone *)

Lemma step_configuration b op w :
  capacity (queue (step b op w).2)
  = match op with
    | OpSetCapacity n => Z.max 1 n
    | _ => capacity (queue w)
    end ∧
  timeout (queue (step b op w).2)
  = match op with
    | OpSetTimeout sec => sec
    | _ => timeout (queue w)
    end.
Proof.
  unfold capacity, timeout.
  destruct op; cbn [step]; rewrite ?discard_snd; try done.
  - unfold writeGrid.
    by destruct (writeGridVec_config b (replicate 1 grid) archive metadata env w)
      as (-> & -> & _).
  - by destruct (writeGridVec_config b grids archive metadata env w) as (-> & -> & _).
  - rewrite status_eq. destruct (mStatus (queue w) !! id) as [st|]; [|done].
    by destruct (is_terminal st).
  - unfold removeNotifier, bind, get_impl.
    by destruct (mNotifiers (queue w) !! id).
  - by destruct (run_scheduled_config slot w) as (-> & -> & _).
Qed.

(** X1: the capacity changes only by [setCapacity] (to its argument
    coerced to at least 1) and the timeout only by [setTimeout]; no
    submission, whatever its outcome, no completion, no poll and no
    notifier operation changes either. *)
Theorem configuration_changes_only_by_its_setters b op w :
  capacity (queue (step b op w).2)
  = match op with
    | OpSetCapacity n => Z.max 1 n
    | _ => capacity (queue w)
    end ∧
  timeout (queue (step b op w).2)
  = match op with
    | OpSetTimeout sec => sec
    | _ => timeout (queue w)
    end.
Proof. apply step_configuration. Qed.

Lemma step_registry b op w :
  mNotifiers (queue (step b op w).2)
  = match op with
    | OpAddNotifier notify => <[mNextNotifierId (queue w) := notify]> (mNotifiers (queue w))
    | OpRemoveNotifier id => delete id (mNotifiers (queue w))
    | OpClearNotifiers => ∅
    | _ => mNotifiers (queue w)
    end ∧
  mNextNotifierId (queue (step b op w).2)
  = match op with
    | OpAddNotifier _ => to_Index32 (mNextNotifierId (queue w) + 1)
    | _ => mNextNotifierId (queue w)
    end.
Proof.
  destruct op; cbn [step]; rewrite ?discard_snd; try done.
  - unfold writeGrid.
    by destruct (writeGridVec_config b (replicate 1 grid) archive metadata env w)
      as (_ & _ & _ & -> & ->).
  - by destruct (writeGridVec_config b grids archive metadata env w)
      as (_ & _ & _ & -> & ->).
  - rewrite status_eq. destruct (mStatus (queue w) !! id) as [st|]; [|done].
    by destruct (is_terminal st).
  - unfold removeNotifier, bind, get_impl.
    destruct (mNotifiers (queue w) !! id) eqn:Hid; [done|].
    cbn. by rewrite delete_id.
  - by destruct (run_scheduled_config slot w) as (_ & _ & _ & -> & ->).
Qed.

(** X2: the notifier registry and the subscription counter change only by
    [addNotifier], [removeNotifier] and [clearNotifiers]: subscriptions
    persist through submissions, completions, polls and configuration
    changes. *)
Theorem registry_changes_only_by_notifier_operations b op w :
  mNotifiers (queue (step b op w).2)
  = match op with
    | OpAddNotifier notify => <[mNextNotifierId (queue w) := notify]> (mNotifiers (queue w))
    | OpRemoveNotifier id => delete id (mNotifiers (queue w))
    | OpClearNotifiers => ∅
    | _ => mNotifiers (queue w)
    end ∧
  mNextNotifierId (queue (step b op w).2)
  = match op with
    | OpAddNotifier _ => to_Index32 (mNextNotifierId (queue w) + 1)
    | _ => mNextNotifierId (queue w)
    end.
Proof. apply step_registry. Qed.

Lemma step_next_id b op w :
  mNextId (queue (step b op w).2)
  = (if is_submission op then to_Index32 (mNextId (queue w) + 1) else mNextId (queue w)).
Proof.
  destruct op; cbn [step is_submission]; rewrite ?discard_snd; try done.
  - unfold writeGrid.
    by destruct (writeGridVec_config b (replicate 1 grid) archive metadata env w)
      as (_ & _ & -> & _).
  - by destruct (writeGridVec_config b grids archive metadata env w)
      as (_ & _ & -> & _).
  - rewrite status_eq. destruct (mStatus (queue w) !! id) as [st|]; [|done].
    by destruct (is_terminal st).
  - unfold removeNotifier, bind, get_impl.
    by destruct (mNotifiers (queue w) !! id).
  - by destruct (run_scheduled_config slot w) as (_ & _ & -> & _).
Qed.

(** X3: every submission takes exactly one task identifier, whether it is
    admitted, times out or is still waiting, and returns the one it took
    when it returns; no other operation, and no worker, moves the
    counter. *)
Theorem every_submission_takes_one_identifier b op grids archive metadata env w :
  mNextId (queue (step b op w).2)
  = (if is_submission op then to_Index32 (mNextId (queue w) + 1) else mNextId (queue w)) ∧
  match (writeGridVec b grids archive metadata env w).1 with
  | Ok id => id = mNextId (queue w)
  | _ => True
  end.
Proof.
  split; [apply step_next_id|].
  destruct (writeGridVec_world b grids archive metadata env w) as (ticks & _ & H).
  destruct (writeGridVec b grids archive metadata env w).1; [|done..].
  by destruct H.
Qed.

(** ** Subscribing and unsubscribing *)

(** X4: [addNotifier] returns the current subscription counter and
    registers the callback under it; [removeNotifier] with the returned
    identifier removes that entry again, so that the registry is the one
    before the subscription when the identifier was not in use; statuses,
    scheduled tasks, the in-flight counter and the trace are untouched by
    the pair. *)
Theorem removeNotifier_undoes_addNotifier notify w :
  let id := mNextNotifierId (queue w) in
  let w1 := (addNotifier notify w).2 in
  let w2 := (removeNotifier id w1).2 in
  (addNotifier notify w).1 = Ok id ∧
  mNotifiers (queue w1) !! id = Some notify ∧
  mNotifiers (queue w2) = delete id (mNotifiers (queue w)) ∧
  (mNotifiers (queue w) !! id = None → mNotifiers (queue w2) = mNotifiers (queue w)) ∧
  mNextNotifierId (queue w2) = to_Index32 (id + 1) ∧
  mStatus (queue w2) = mStatus (queue w) ∧
  mNumTasks (queue w2) = mNumTasks (queue w) ∧
  scheduler w2 = scheduler w ∧
  trace w2 = trace w.
Proof.
  unfold addNotifier, removeNotifier, bind, get_impl, modify_impl, ret. cbn.
  rewrite lookup_insert_eq. cbn. rewrite delete_insert_eq.
  repeat split; try done. apply delete_id.
Qed.


(** ** Admission when the queue has room *)

Lemma notifier_calls_app tr1 tr2 :
  notifier_calls (tr1 ++ tr2) = notifier_calls tr1 ++ notifier_calls tr2.
Proof. apply omap_app. Qed.

Lemma notifier_calls_write_events t : notifier_calls (write_events t) = [].
Proof.
  unfold write_events, notifier_calls. cbn.
  destruct (write _ _ _) as [e|]; [|done].
  by destruct (as_std_exception e) as [[msg|]|].
Qed.

Lemma new_events_enqueued_TBB t w w0 :
  trace w = trace w0 →
  new_events w0 (enqueued UseTBB t w) = [EvHandOff (mId t)].
Proof. intros H. apply new_events_app. cbn. by rewrite H. Qed.

(** X6: under TBB a submission that finds room returns at once, before
    the write: it returns the identifier it took, hands the task over (the
    only new event), appends to the scheduled tasks one task with that
    identifier, the grids, the metadata, a copy of the archive and the
    sink bound, leaves the task [PENDING] and counts it. *)
Theorem submission_with_room_under_TBB grids archive metadata env w :
  canEnqueue (queue w) = true →
  let id := mNextId (queue w) in
  let w' := (writeGridVec UseTBB grids archive metadata env w).2 in
  (writeGridVec UseTBB grids archive metadata env w).1 = Ok id ∧
  new_events w w' = [EvHandOff id] ∧
  scheduler w' =
    scheduler w ++
    [{| mId := id; mNotify := Some BoundSetStatusWithNotification; mGrids := grids;
        mArchive := copy archive; mMetadata := metadata |}] ∧
  (status id w').1 = Ok PENDING ∧
  mNumTasks (queue w') = to_Int32 (mNumTasks (queue w) + 1).
Proof.
  intros Hroom id w'. subst w'. rewrite writeGridVec_accepts by done. cbn [fst snd].
  split; [done|]. split; [by apply new_events_enqueued_TBB|].
  split; [done|]. split; [|done].
  rewrite status_eq. cbn. by rewrite lookup_insert_eq.
Qed.


(** ** What the status map of a reachable world holds *)

Lemma after_completion_lookup id st q j :
  is_terminal st = true →
  mStatus (after_completion id st q) !! j =
  if decide (j = id)
  then (if negb (Nat.eqb (base.size (mNotifiers q)) 0) then None else Some st)
  else mStatus q !! j.
Proof.
  intros Hterm. unfold after_completion. rewrite Hterm.
  destruct (negb (Nat.eqb (base.size (mNotifiers q)) 0)); cbn;
    destruct (decide (j = id)) as [->|Hne].
  - apply lookup_delete_eq.
  - by rewrite lookup_delete_ne, lookup_insert_ne.
  - apply lookup_insert_eq.
  - by rewrite lookup_insert_ne.
Qed.

Lemma elem_of_delete_other {A} (l : list A) i x y :
  l !! i = Some x → y ∈ l → y ≠ x → y ∈ delete i l.
Proof.
  intros Hi Hy Hne. rewrite <- (take_drop_middle l i x Hi) in Hy.
  rewrite delete_take_drop.
  apply elem_of_app in Hy as [Hy|Hy]; [apply elem_of_app; by left|].
  apply elem_of_cons in Hy as [->|Hy]; [done|].
  apply elem_of_app. by right.
Qed.

Lemma Forall_notifies_terminal_completion_events t q :
  Forall notifies_terminal (completion_events t q).
Proof.
  unfold completion_events, write_events, fan_out.
  apply Forall_app. split.
  - by_write_outcome.
  - constructor; [done|]. apply Forall_fmap, Forall_forall. intros it _.
    apply outcome_terminal.
Qed.

Lemma settled_emit_sleep w : settled w → settled (emit EvSleep w).2.
Proof.
  intros [Hk Hp Hn]. split; cbn; try done.
  apply Forall_app. split; [done|]. by repeat constructor.
Qed.

Lemma settled_run_scheduled i w :
  consistent w → settled w → settled (run_scheduled i w).2.
Proof.
  intros Hc [Hk Hp Hn]. rewrite run_scheduled_eq. cbn [snd].
  destruct (scheduler w !! i) as [t|] eqn:Hi; [|done].
  assert (Hbound : mNotify t = Some BoundSetStatusWithNotification).
  { by eapply (Forall_lookup_1 _ _ _ _ (consistent_bound w Hc) Hi). }
  rewrite execute_bound by done. cbn [snd].
  split; cbn [queue scheduler trace].
  - intros id. rewrite after_completion_lookup by apply outcome_terminal.
    destruct (decide (id = mId t)); [|apply Hk].
    destruct (negb _); [done|].
    unfold outcome. by destruct (write _ _ _).
  - intros id. rewrite after_completion_lookup by apply outcome_terminal.
    destruct (decide (id = mId t)) as [->|Hne].
    + destruct (negb _); [done|].
      unfold outcome. by destruct (write _ _ _).
    + intros Hpend. destruct (Hp id Hpend) as (t' & Hin & Hid).
      exists t'. split; [|done].
      eapply elem_of_delete_other; [done..|]. congruence.
  - apply Forall_app. split; [done|apply Forall_notifies_terminal_completion_events].
Qed.

Lemma settled_enqueued b t w : settled w → settled (enqueued b t w).
Proof.
  intros [Hk Hp Hn]. unfold enqueued. destruct b; split; cbn [queue scheduler trace].
  - intros id. cbn. destruct (decide (id = mId t)) as [->|Hne].
    + by rewrite lookup_insert_eq.
    + rewrite lookup_insert_ne by done. apply Hk.
  - intros id. cbn. destruct (decide (id = mId t)) as [->|Hne].
    + intros _. eexists. split; [apply elem_of_app; right; apply list_elem_of_here|done].
    + rewrite lookup_insert_ne by done. intros Hpend.
      destruct (Hp id Hpend) as (t' & Hin & Hid).
      exists t'. split; [|done]. apply elem_of_app. by left.
  - apply Forall_app. split; [done|]. by repeat constructor.
  - intros id. cbn [mStatus set_mNumTasks].
    rewrite after_completion_lookup by apply outcome_terminal.
    destruct (decide (id = mId t)) as [->|Hne].
    + destruct (negb _); [done|]. unfold outcome. by destruct (write _ _ _).
    + cbn. rewrite lookup_insert_ne by done. apply Hk.
  - intros id. cbn [mStatus set_mNumTasks].
    rewrite after_completion_lookup by apply outcome_terminal.
    destruct (decide (id = mId t)) as [->|Hne].
    + destruct (negb _); [done|]. unfold outcome. by destruct (write _ _ _).
    + cbn. rewrite lookup_insert_ne by done. apply Hp.
  - apply Forall_app. split.
    + apply Forall_app. split; [done|]. by repeat constructor.
    + apply Forall_notifies_terminal_completion_events.
Qed.

Lemma well_kept_slept ticks w : well_kept w → well_kept (slept ticks w).
Proof.
  apply (slept_preserves well_kept).
  - intros v [Hc Hs]. split; [|by apply settled_emit_sleep].
    destruct Hc as [Hc Hb Hp Ht Hterm Hord].
    split; cbn [emit snd queue scheduler trace]; try done.
    + intros id. rewrite !count_app. cbn. specialize (Hp id). lia.
    + rewrite !count_app. cbn. lia.
    + apply Forall_app. split; [done|]. by repeat constructor.
    + apply sinks_follow_writes_app; [done|]. by repeat constructor.
  - intros i v [Hc Hs]. split; [by apply consistent_run_scheduled|].
    by apply settled_run_scheduled.
Qed.

Lemma well_kept_step b op w : well_kept w → well_kept (step b op w).2.
Proof.
  intros [Hc Hs]. split; [by apply consistent_step|].
  assert (Hsub : ∀ grids archive metadata env,
            settled (writeGridVec b grids archive metadata env w).2).
  { intros grids archive metadata env.
    destruct (writeGridVec_world b grids archive metadata env w) as (ticks & _ & H).
    assert (Hk : well_kept
              (slept ticks (with_next_id (to_Index32 (mNextId (queue w) + 1)) w))).
    { apply well_kept_slept. split; [by apply consistent_with_next_id|].
      by destruct Hs. }
    destruct (writeGridVec b grids archive metadata env w).1.
    - destruct H as (_ & _ & ->). apply settled_enqueued, Hk.
    - rewrite H. apply Hk.
    - rewrite H. apply Hk. }
  destruct op; cbn [step]; rewrite ?discard_snd.
  - apply Hsub.
  - apply Hsub.
  - destruct Hs as [Hk Hp Hn]. rewrite status_eq.
    destruct (mStatus (queue w) !! id) as [st|] eqn:Hid; [|done].
    cbn [snd]. destruct (is_terminal st); [|done].
    split; cbn; try done.
    + intros j Hj. apply lookup_delete_Some in Hj as [_ Hj]. by apply (Hk j).
    + intros j Hj. apply lookup_delete_Some in Hj as [_ Hj]. by apply Hp.
  - by destruct Hs.
  - unfold removeNotifier, bind, get_impl.
    destruct (mNotifiers (queue w) !! id); [|done]. by destruct Hs.
  - by destruct Hs.
  - by destruct Hs.
  - by destruct Hs.
  - by apply settled_run_scheduled.
Qed.

Lemma well_kept_new_world capacity : well_kept (new_world capacity).
Proof.
  split; [apply consistent_new_world|]. by split.
Qed.

Lemma well_kept_run b capacity ops : well_kept (run b ops (new_world capacity)).
Proof.
  apply run_preserves; [apply well_kept_step|apply well_kept_new_world].
Qed.

(** X8: in every reachable world no status entry stores [UNKNOWN], so
    [status] answers [UNKNOWN] exactly when there is no entry; it answers
    [PENDING] only for the identifier of a task that is scheduled, with
    its sink bound, and has not run yet; without TBB it never answers
    [PENDING]. *)
Theorem status_answers_in_reachable_worlds b capacity ops id :
  let w := run b ops (new_world capacity) in
  ((status id w).1 = Ok UNKNOWN ↔ mStatus (queue w) !! id = None) ∧
  ((status id w).1 = Ok PENDING →
   ∃ t, t ∈ scheduler w ∧ mId t = id ∧
        mNotify t = Some BoundSetStatusWithNotification) ∧
  (b = NoTBB → (status id w).1 ≠ Ok PENDING).
Proof.
  intros w. destruct (well_kept_run b capacity ops) as [Hc [Hk Hp Hn]].
  fold w in Hc, Hk, Hp, Hn.
  assert (Hpend : (status id w).1 = Ok PENDING →
            ∃ t, t ∈ scheduler w ∧ mId t = id ∧
                 mNotify t = Some BoundSetStatusWithNotification).
  { rewrite status_eq. destruct (mStatus (queue w) !! id) as [st|] eqn:Hid; [|done].
    cbn. intros [= ->]. destruct (Hp id Hid) as (t & Hin & Ht).
    exists t. repeat split; try done.
    pose proof (consistent_bound w Hc) as Hb. rewrite Forall_forall in Hb. by apply Hb. }
  split; [|split; [done|]].
  - rewrite status_eq. specialize (Hk id).
    destruct (mStatus (queue w) !! id) as [st|]; [|done].
    cbn. split; [|done]. intros [= ->]. done.
  - intros -> Hpending. destruct (Hpend Hpending) as (t & Hin & _).
    unfold w in Hin. rewrite scheduler_run_NoTBB in Hin by done.
    by apply not_elem_of_nil in Hin.
Qed.

(** X9: in every reachable trace each notifier call carries [SUCCEEDED]
    or [FAILED]: admission stamps [PENDING] without telling the notifiers,
    and [UNKNOWN] is never reported. *)
Theorem notifiers_are_called_with_terminal_statuses_only b capacity ops :
  Forall notifies_terminal (trace (run b ops (new_world capacity))).
Proof. by destruct (well_kept_run b capacity ops) as [_ []]. Qed.

(** ** Identifiers while the counters have not wrapped *)

(** What holds at a count [n] and is kept by every step, at the count
    moved by one for the operations that [p] selects and as long as the
    count stays below [limit], holds after a run. *)
Lemma run_counted (I : Z → World → Prop) (p : Op → bool) (limit : Z) b :
  (∀ op n w, I n w → n + (if p op then 1 else 0) < limit →
             I (n + (if p op then 1 else 0)) (step b op w).2) →
  ∀ ops n w, I n w → n + count p ops < limit →
             ∃ m, n ≤ m ≤ n + count p ops ∧ I m (run b ops w).
Proof.
  intros Hstep. induction ops as [|op ops IH]; intros n w Hw Hlim.
  - exists n. cbn. split; [lia|done].
  - cbn [run count] in *. pose proof (count_nonneg p ops) as Hnn.
    assert (H : I (n + (if p op then 1 else 0)) (step b op w).2).
    { apply Hstep; [done|]. destruct (p op); lia. }
    destruct (step b op w) as [[[]|e|] w']; cbn [snd] in H.
    + destruct (IH _ _ H) as (m & Hm & HI); [lia|].
      exists m. split; [destruct (p op); lia|done].
    + destruct (IH _ _ H) as (m & Hm & HI); [lia|].
      exists m. split; [destruct (p op); lia|done].
    + eexists. split; [|done]. destruct (p op); lia.
Qed.

Lemma to_Index32_small z : 0 ≤ z < Index32_modulus → to_Index32 z = z.
Proof. intros H. unfold to_Index32. by apply Z.mod_small. Qed.

Lemma subscriptions_step b op n w :
  mNextNotifierId (queue w) = n ∧ 1 ≤ n ∧ subscriptions_below n (queue w) →
  n + (if is_registration op then 1 else 0) < Index32_modulus →
  mNextNotifierId (queue (step b op w).2) = n + (if is_registration op then 1 else 0) ∧
  1 ≤ n + (if is_registration op then 1 else 0) ∧
  subscriptions_below (n + (if is_registration op then 1 else 0)) (queue (step b op w).2).
Proof.
  intros (Hn & Hpos & Hbelow) Hlim.
  destruct (step_registry b op w) as [Hreg Hnext].
  unfold subscriptions_below. rewrite Hreg, Hnext, Hn.
  destruct op; cbn [is_registration] in *; rewrite ?Z.add_0_r;
    try (split; [done|split; [done|exact Hbelow]]).
  - rewrite to_Index32_small by lia. split; [done|]. split; [lia|].
    intros id Hid. destruct (decide (id = n)) as [->|Hne]; [lia|].
    rewrite lookup_insert_ne in Hid by done. specialize (Hbelow id Hid). lia.
  - split; [done|]. split; [done|]. intros j Hj. apply Hbelow.
    destruct Hj as [x Hx]. apply lookup_delete_Some in Hx as [_ Hx]. by eexists.
  - split; [done|]. split; [done|]. intros j Hj.
    rewrite lookup_empty in Hj. by destruct Hj.
Qed.

(** X10: as long as fewer than 2^32 - 1 subscriptions were ever made, the
    registered subscription identifiers lie between 1 and the counter, so
    [addNotifier] returns an identifier that is not in use and the
    registry grows by one entry. *)
Theorem addNotifier_returns_an_identifier_not_in_use b capacity ops notify :
  1 + count is_registration ops < Index32_modulus →
  let w := run b ops (new_world capacity) in
  let id := mNextNotifierId (queue w) in
  1 ≤ id ≤ 1 + count is_registration ops ∧
  (∀ sub, is_Some (mNotifiers (queue w) !! sub) → 1 ≤ sub < id) ∧
  (addNotifier notify w).1 = Ok id ∧
  mNotifiers (queue w) !! id = None ∧
  base.size (mNotifiers (queue (addNotifier notify w).2))
  = S (base.size (mNotifiers (queue w))).
Proof.
  intros Hlim w id.
  destruct (run_counted
    (λ n v, mNextNotifierId (queue v) = n ∧ 1 ≤ n ∧ subscriptions_below n (queue v))
    is_registration Index32_modulus b (λ op n v, subscriptions_step b op n v)
    ops 1 (new_world capacity)) as (m & Hm & Hnext & _ & Hbelow); [|done|].
  { split; [done|]. split; [done|]. intros j Hj. cbn in Hj.
    rewrite lookup_empty in Hj. by destruct Hj. }
  fold w in Hnext, Hbelow. fold id in Hnext. subst m.
  assert (Hfree : mNotifiers (queue w) !! id = None).
  { destruct (mNotifiers (queue w) !! id) eqn:Hid; [|done].
    assert (1 ≤ id < id) by (apply Hbelow; by eexists). lia. }
  split; [done|]. split; [exact Hbelow|]. split; [done|]. split; [done|].
  unfold addNotifier, bind, get_impl, modify_impl, ret. cbn.
  by apply map_size_insert_None.
Qed.

(** ** Task identifiers *)

Lemma task_ids_below_mono n m w : n ≤ m → task_ids_below n w → task_ids_below m w.
Proof.
  intros Hle [Hs Hsch Hd Hh Hp]. split; try done.
  - intros id Hid. specialize (Hs id Hid). lia.
  - eapply Forall_impl; [exact Hsch|]. cbn. intros t Ht. lia.
  - intros id. specialize (Hh id). repeat case_bool_decide; lia.
Qed.

Lemma task_ids_below_emit_sleep n w :
  task_ids_below n w → task_ids_below n (emit EvSleep w).2.
Proof.
  intros [Hs Hsch Hd Hh Hp]. split; cbn; try done.
  intros id. rewrite count_app. cbn. specialize (Hh id). lia.
Qed.

Lemma NoDup_fmap_lookup_other {A B} (f : A → B) (l : list A) i x y :
  NoDup (f <$> l) → l !! i = Some x → y ∈ delete i l → f y ≠ f x.
Proof.
  intros Hnd Hi Hy. rewrite <- (take_drop_middle l i x Hi) in Hnd.
  rewrite fmap_app, fmap_cons in Hnd.
  apply NoDup_app in Hnd as (_ & H1 & H2). apply NoDup_cons in H2 as [H2 _].
  rewrite delete_take_drop in Hy. apply elem_of_app in Hy as [Hy|Hy].
  - intros Heq. apply (H1 (f y)); [by apply list_elem_of_fmap_2|].
    rewrite Heq. apply list_elem_of_here.
  - intros Heq. apply H2. rewrite <- Heq. by apply list_elem_of_fmap_2.
Qed.

Lemma task_ids_below_run_scheduled n i w :
  consistent w → task_ids_below n w → task_ids_below n (run_scheduled i w).2.
Proof.
  intros Hc [Hs Hsch Hd Hh Hp]. rewrite run_scheduled_eq. cbn [snd].
  destruct (scheduler w !! i) as [t|] eqn:Hi; [|done].
  assert (Hbound : mNotify t = Some BoundSetStatusWithNotification).
  { by eapply (Forall_lookup_1 _ _ _ _ (consistent_bound w Hc) Hi). }
  rewrite execute_bound by done. cbn [snd].
  split; cbn [queue scheduler trace].
  - intros id. rewrite after_completion_lookup by apply outcome_terminal.
    destruct (decide (id = mId t)) as [->|Hne]; [|apply Hs].
    intros _. by eapply (Forall_lookup_1 _ _ _ _ Hsch Hi).
  - by apply Forall_delete.
  - eapply sublist_NoDup; [exact Hd|]. apply fmap_sublist, sublist_delete.
  - intros id. rewrite count_app, count_completion_events_hand_off_of.
    specialize (Hh id). lia.
  - apply Forall_forall. intros t' Hin.
    rewrite after_completion_lookup by apply outcome_terminal.
    destruct (decide (mId t' = mId t)) as [Heq|Hne].
    + by destruct (NoDup_fmap_lookup_other mId _ _ _ _ Hd Hi Hin).
    + rewrite Forall_forall in Hp. apply Hp.
      eapply elem_of_sublist; [exact Hin|apply sublist_delete].
Qed.

Lemma consistent_emit_sleep w : consistent w → consistent (emit EvSleep w).2.
Proof.
  intros [Hc Hb Hp Ht Hterm Hord].
  split; cbn [emit snd queue scheduler trace]; try done.
  - intros id. rewrite !count_app. cbn. specialize (Hp id). lia.
  - rewrite !count_app. cbn. lia.
  - apply Forall_app. split; [done|]. by repeat constructor.
  - apply sinks_follow_writes_app; [done|]. by repeat constructor.
Qed.

Lemma task_ids_below_slept n ticks w :
  consistent w → task_ids_below n w → task_ids_below n (slept ticks w).
Proof.
  intros Hc Hi.
  apply (slept_preserves (λ v, consistent v ∧ task_ids_below n v)); [| |done].
  - intros v [Hv Hv']. split; [by apply consistent_emit_sleep|].
    by apply task_ids_below_emit_sleep.
  - intros i v [Hv Hv']. split; [by apply consistent_run_scheduled|].
    by apply task_ids_below_run_scheduled.
Qed.

Lemma task_ids_below_enqueued b t w :
  1 ≤ mId t →
  task_ids_below (mId t) w → task_ids_below (mId t + 1) (enqueued b t w).
Proof.
  intros Hpos [Hs Hsch Hd Hh Hp].
  assert (Hfresh : ∀ t', t' ∈ scheduler w → mId t' ≠ mId t).
  { intros t' Hin. rewrite Forall_forall in Hsch. specialize (Hsch t' Hin). lia. }
  assert (Hcount : ∀ id,
    count (hand_off_of id) (trace w ++ [EvHandOff (mId t)])
    ≤ (if bool_decide (1 ≤ id < mId t + 1) then 1 else 0)).
  { intros id. rewrite count_app. cbn. specialize (Hh id).
    repeat case_bool_decide; lia. }
  unfold enqueued. destruct b; split; cbn [queue scheduler trace].
  - intros id. cbn. destruct (decide (id = mId t)) as [->|Hne]; [lia|].
    rewrite lookup_insert_ne by done. intros Hid. specialize (Hs id Hid). lia.
  - apply Forall_app. split.
    + eapply Forall_impl; [exact Hsch|]. cbn. intros t' Ht'. lia.
    + repeat constructor; cbn; lia.
  - rewrite fmap_app. apply NoDup_app. split; [done|]. split.
    + intros id Hin [->|Hnil]%elem_of_cons; [|by apply not_elem_of_nil in Hnil].
      apply list_elem_of_fmap in Hin as (t' & Heq & Hin). by apply (Hfresh t').
    + apply NoDup_singleton.
  - exact Hcount.
  - apply Forall_app. split.
    + apply Forall_forall. intros t' Hin. cbn.
      rewrite lookup_insert_ne by (apply not_eq_sym; by apply Hfresh).
      rewrite Forall_forall in Hp. by apply Hp.
    + repeat constructor. cbn. apply lookup_insert_eq.
  - intros id. cbn [mStatus set_mNumTasks].
    rewrite after_completion_lookup by apply outcome_terminal.
    destruct (decide (id = mId t)) as [->|Hne]; [lia|].
    cbn. rewrite lookup_insert_ne by done. intros Hid. specialize (Hs id Hid). lia.
  - eapply Forall_impl; [exact Hsch|]. cbn. intros t' Ht'. lia.
  - done.
  - intros id. rewrite count_app, count_completion_events_hand_off_of, Z.add_0_r.
    apply Hcount.
  - apply Forall_forall. intros t' Hin. cbn [mStatus set_mNumTasks].
    rewrite after_completion_lookup by apply outcome_terminal.
    destruct (decide (mId t' = mId t)) as [Heq|Hne]; [by destruct (Hfresh t' Hin)|].
    cbn. rewrite lookup_insert_ne by (by apply not_eq_sym).
    rewrite Forall_forall in Hp. by apply Hp.
Qed.

Lemma task_ids_step b op n w :
  mNextId (queue w) = n ∧ 1 ≤ n ∧ consistent w ∧ task_ids_below n w →
  n + (if is_submission op then 1 else 0) < Index32_modulus →
  mNextId (queue (step b op w).2) = n + (if is_submission op then 1 else 0) ∧
  1 ≤ n + (if is_submission op then 1 else 0) ∧
  consistent (step b op w).2 ∧
  task_ids_below (n + (if is_submission op then 1 else 0)) (step b op w).2.
Proof.
  intros (Hn & Hpos & Hc & Hi) Hlim.
  split; [|split; [destruct (is_submission op); lia|split; [by apply consistent_step|]]].
  { rewrite step_next_id, Hn. destruct (is_submission op); [|lia].
    apply to_Index32_small. lia. }
  assert (Hsub : ∀ grids archive metadata env,
            task_ids_below (n + 1) (writeGridVec b grids archive metadata env w).2).
  { intros grids archive metadata env.
    destruct (writeGridVec_world b grids archive metadata env w) as (ticks & _ & H).
    rewrite Hn in H.
    assert (Hk : task_ids_below n (slept ticks (with_next_id (to_Index32 (n + 1)) w))).
    { apply task_ids_below_slept; [by apply consistent_with_next_id|]. by destruct Hi. }
    destruct (writeGridVec b grids archive metadata env w).1.
    - destruct H as (_ & _ & ->).
      by apply (task_ids_below_enqueued b (OutputTask n grids archive metadata)).
    - rewrite H. eapply task_ids_below_mono; [|done]. lia.
    - rewrite H. eapply task_ids_below_mono; [|done]. lia. }
  destruct op; cbn [step is_submission]; rewrite ?discard_snd, ?Z.add_0_r;
    try apply Hsub; try (by destruct Hi).
  - destruct Hi as [Hs Hsch Hd Hh Hp]. rewrite status_eq.
    destruct (mStatus (queue w) !! id) as [st|] eqn:Hid; [|done].
    cbn [snd]. destruct (is_terminal st) eqn:Hterm; [|done].
    split; cbn; try done.
    + intros j [x Hj]. apply lookup_delete_Some in Hj as [_ Hj]. apply Hs. by eexists.
    + eapply Forall_impl; [exact Hp|]. cbn. intros t Ht.
      rewrite lookup_delete_ne; [done|]. intros ->. rewrite Hid in Ht.
      injection Ht as ->. done.
  - unfold removeNotifier, bind, get_impl.
    destruct (mNotifiers (queue w) !! id); [|done]. by destruct Hi.
  - by apply task_ids_below_run_scheduled.
Qed.

(** X11: as long as fewer than 2^32 - 1 submissions were made, task
    identifiers name tasks one-to-one: no identifier was handed to the
    backend twice and none was reported by the sink twice, no two
    scheduled tasks share an identifier, every scheduled task polls as
    [PENDING], and [status] answers [UNKNOWN], changing nothing, for every
    identifier that no submission has taken yet. *)
Theorem task_identifiers_name_tasks_one_to_one b capacity ops :
  1 + count is_submission ops < Index32_modulus →
  let w := run b ops (new_world capacity) in
  1 ≤ mNextId (queue w) ≤ 1 + count is_submission ops ∧
  (∀ id, count (hand_off_of id) (trace w) ≤ 1 ∧ count (sink_of id) (trace w) ≤ 1) ∧
  NoDup (mId <$> scheduler w) ∧
  Forall (λ t, (status (mId t) w).1 = Ok PENDING) (scheduler w) ∧
  (∀ id, ¬ 1 ≤ id < mNextId (queue w) → status id w = (Ok UNKNOWN, w)).
Proof.
  intros Hlim w.
  destruct (run_counted
    (λ n v, mNextId (queue v) = n ∧ 1 ≤ n ∧ consistent v ∧ task_ids_below n v)
    is_submission Index32_modulus b (λ op n v, task_ids_step b op n v)
    ops 1 (new_world capacity)) as (m & Hm & Hnext & _ & Hc & Hi); [|done|].
  { split; [done|]. split; [done|]. split; [apply consistent_new_world|].
    split; cbn; try done.
    - intros j Hj. rewrite lookup_empty in Hj. by destruct Hj.
    - apply NoDup_nil_2.
    - intros id. case_bool_decide; lia. }
  fold w in Hnext, Hc, Hi. subst m. destruct Hi as [Hs Hsch Hd Hh Hp].
  split; [done|]. split; [|split; [done|split]].
  - intros id. pose proof (consistent_per_task w Hc id) as Hper.
    pose proof (count_nonneg (scheduled_as id) (scheduler w)).
    specialize (Hh id). case_bool_decide; lia.
  - eapply Forall_impl; [exact Hp|]. cbn. intros t Ht.
    rewrite status_eq, Ht. done.
  - intros id Hout. apply status_absent.
    destruct (mStatus (queue w) !! id) eqn:Hid; [|done].
    destruct Hout. apply Hs. by eexists.
Qed.

(** ** Backpressure *)

Lemma run_preserves_where (I : World → Prop) (P : Op → Prop) b :
  (∀ op w, P op → I w → I (step b op w).2) →
  ∀ ops w, Forall P ops → I w → I (run b ops w).
Proof.
  intros Hstep. induction ops as [|op ops IH]; intros w Hops Hw; [done|].
  apply Forall_cons in Hops as [Hop Hops].
  cbn [run]. pose proof (Hstep op w Hop Hw) as H.
  destruct (step b op w) as [[[]|e|] w']; cbn [snd] in H; auto.
Qed.

Lemma within_capacity_waited c w evs w' :
  waited w evs w' → within_capacity c w → within_capacity c w'.
Proof.
  intros [] [Hv Hs Hc]. split.
  - congruence.
  - match goal with H : _ `sublist_of` _ |- _ => apply sublist_length in H end. lia.
  - intros Hle. match goal with H : trace w' = _ |- _ => rewrite H end.
    rewrite count_app, (Hc Hle). by rewrite count_none.
Qed.

Lemma within_capacity_with_next_id c v w :
  within_capacity c w → within_capacity c (with_next_id v w).
Proof. by intros []. Qed.

(** With fewer than 2^31 tasks scheduled, the admission test compares
    their number with the capacity. *)
Lemma canEnqueue_scheduled c w :
  c < Int32_half → consistent w → within_capacity c w →
  canEnqueue (queue w) = bool_decide (Z.of_nat (length (scheduler w)) < c).
Proof.
  intros Hc Hw [Hv Hs _]. unfold canEnqueue.
  rewrite (consistent_counter w Hw), Hv.
  rewrite to_Int32_small by (unfold Int32_half in *; lia).
  case_bool_decide; [by apply Z.ltb_lt|by apply Z.ltb_ge; lia].
Qed.

Lemma within_capacity_enqueued c b t w :
  c < Int32_half → consistent w → within_capacity c w →
  canEnqueue (queue w) = true →
  within_capacity c (enqueued b t w).
Proof.
  intros Hc Hw Hin Hcan. rewrite (canEnqueue_scheduled c) in Hcan by done.
  apply bool_decide_eq_true in Hcan.
  destruct (enqueued_config b t w) as (_ & Hcap & _).
  destruct Hin as [Hv Hs _]. split.
  - congruence.
  - unfold enqueued. destruct b; cbn [scheduler]; [|lia].
    rewrite length_app. cbn. lia.
  - lia.
Qed.

Lemma within_capacity_slept c ticks w :
  within_capacity c w → within_capacity c (slept ticks w).
Proof.
  destruct (waited_slept ticks w) as (evs & Hw & _).
  by apply (within_capacity_waited c w evs).
Qed.

Lemma within_capacity_step c b op w :
  c < Int32_half →
  is_setCapacity op = false →
  consistent w ∧ within_capacity c w →
  consistent (step b op w).2 ∧ within_capacity c (step b op w).2.
Proof.
  intros Hc Hop [Hw Hin]. split; [by apply consistent_step|].
  assert (Hsub : ∀ grids archive metadata env,
            within_capacity c (writeGridVec b grids archive metadata env w).2).
  { intros grids archive metadata env.
    destruct (writeGridVec_world b grids archive metadata env w) as (ticks & _ & H).
    set (w1 := slept ticks (with_next_id (to_Index32 (mNextId (queue w) + 1)) w)) in *.
    assert (Hw1 : consistent w1).
    { by apply consistent_slept, consistent_with_next_id. }
    assert (Hin1 : within_capacity c w1).
    { by apply within_capacity_slept, within_capacity_with_next_id. }
    destruct (writeGridVec b grids archive metadata env w).1.
    - destruct H as (_ & Hcan & ->). by apply within_capacity_enqueued.
    - by rewrite H.
    - by rewrite H. }
  destruct op; cbn [step is_setCapacity] in *; rewrite ?discard_snd;
    try apply Hsub; try done.
  - rewrite status_eq. destruct (mStatus (queue w) !! id) as [st|]; [|done].
    cbn [snd]. destruct (is_terminal st); [|done]. by destruct Hin.
  - by destruct Hin.
  - unfold removeNotifier, bind, get_impl.
    destruct (mNotifiers (queue w) !! id); [|done]. by destruct Hin.
  - by destruct Hin.
  - by destruct Hin.
  - eapply within_capacity_waited; [apply waited_run_scheduled|done].
Qed.

(** X12: on a queue whose capacity is left as constructed (and is below
    2^31), the tasks in flight never exceed the capacity, and neither does
    [size]; a queue constructed with capacity 0 never hands a task to the
    backend, and no submission to it ever returns an identifier. *)
Theorem capacity_bounds_the_tasks_in_flight b c ops :
  c < Int32_half →
  Forall (λ op, is_setCapacity op = false) ops →
  let w := run b ops (new_world c) in
  capacity (queue w) = c ∧
  count is_hand_off (trace w) - count is_sink (trace w) ≤ Z.max 0 c ∧
  size (queue w) ≤ Z.max 0 c ∧
  (c ≤ 0 →
   count is_hand_off (trace w) = 0 ∧
   ∀ grids archive metadata env id,
     (writeGridVec b grids archive metadata env w).1 ≠ Ok id).
Proof.
  intros Hc Hops w.
  destruct (run_preserves_where (λ v, consistent v ∧ within_capacity c v)
              (λ op, is_setCapacity op = false) b
              (λ op v, within_capacity_step c b op v Hc)
              ops (new_world c) Hops) as [Hw Hin].
  { split; [apply consistent_new_world|]. split; cbn; [done|lia|done]. }
  fold w in Hw, Hin. pose proof Hin as [Hv Hs Hclosed].
  pose proof (consistent_total w Hw) as Htot.
  split; [done|]. split; [lia|]. split.
  { unfold size. rewrite (consistent_counter w Hw).
    rewrite to_Int32_small by (unfold Int32_half in *; lia).
    unfold to_Index32, Index32_modulus, Int32_half in *.
    rewrite Z.mod_small; lia. }
  intros Hle. split; [by apply Hclosed|].
  intros grids archive metadata env id Hok.
  destruct (writeGridVec_world b grids archive metadata env w) as (ticks & _ & H).
  rewrite Hok in H. destruct H as (_ & Hcan & _).
  rewrite (canEnqueue_scheduled c) in Hcan; [|done| |].
  - apply bool_decide_eq_true in Hcan. lia.
  - by apply consistent_slept, consistent_with_next_id.
  - by apply within_capacity_slept, within_capacity_with_next_id.
Qed.

(** ** Submissions without TBB *)


(** ** Admission after a wait *)



(** ** How long a submission can wait *)

Lemma duration_cast_seconds_early ns T :
  0 ≤ ns → duration_cast_seconds ns ≤ T → ns < (T + 1) * 1000000000.
Proof.
  unfold duration_cast_seconds. intros Hns Hle.
  rewrite Z.quot_div_nonneg in Hle by lia.
  pose proof (Z.div_mod ns 1000000000 ltac:(lia)) as Hdm.
  pose proof (Z.mod_pos_bound ns 1000000000 ltac:(lia)) as Hmod.
  nia.
Qed.

(** When every sleep lasts at least its 500 ms, the loop ends within
    2 (timeout + 1) sleeps; [k0] sleeps have been taken before. *)
Lemma wait_until_can_enqueue_bounded env w (k0 : nat) :
  0 ≤ mTimeout (queue w) →
  (∀ k tick, env !! k = Some tick →
             (Z.of_nat (k0 + k) + 1) * 500000000 ≤ elapsed_ns tick) →
  Z.of_nat k0 < 2 * (mTimeout (queue w) + 1) →
  ∃ ticks,
    ticks `prefix_of` env ∧
    (wait_until_can_enqueue env w).2 = slept ticks w ∧
    Z.of_nat (k0 + length ticks) ≤ 2 * (mTimeout (queue w) + 1) ∧
    ((wait_until_can_enqueue env w).1 = Stalled →
     ticks = env ∧ Z.of_nat (k0 + length ticks) < 2 * (mTimeout (queue w) + 1)).
Proof.
  revert w k0. induction env as [|tick env IH]; intros w k0 Hpos Hclock Hk0.
  - rewrite wait_until_can_enqueue_nil. exists [].
    destruct (canEnqueue (queue w)); cbn; repeat split; try done; lia.
  - rewrite wait_until_can_enqueue_cons.
    destruct (canEnqueue (queue w)) eqn:Hc.
    { exists []. cbn. repeat split; try done; [apply prefix_nil|lia]. }
    destruct (Z.gtb_spec (duration_cast_seconds (elapsed_ns tick)) (mTimeout (queue w)))
      as [Hlate|Hearly].
    { exists [tick]. cbn. repeat split; try done; [apply prefix_cons, prefix_nil|lia]. }
    assert (Hto : mTimeout (queue (sleep_for tick w).2) = mTimeout (queue w)).
    { apply (mTimeout_slept [tick] w). }
    pose proof (Hclock 0%nat tick eq_refl) as H0.
    assert (Hns : elapsed_ns tick < (mTimeout (queue w) + 1) * 1000000000).
    { apply duration_cast_seconds_early; lia. }
    destruct (IH (sleep_for tick w).2 (S k0)) as (ticks & Hpre & Hw & Hlen & Hst).
    + by rewrite Hto.
    + intros k tick' Hk. specialize (Hclock (S k) tick' Hk).
      replace (S k0 + k)%nat with (k0 + S k)%nat by lia. done.
    + rewrite Hto. lia.
    + exists (tick :: ticks). rewrite slept_cons. rewrite Hto in *.
      split; [by apply prefix_cons|]. split; [done|].
      cbn [length]. split; [lia|].
      intros Hstalled. destruct (Hst Hstalled) as [-> Hlt]. split; [done|lia].
Qed.

Lemma count_sleep_enqueued b t w0 w1 evs :
  trace w1 = trace w0 ++ evs →
  count is_sleep (new_events w0 (enqueued b t w1)) = count is_sleep evs.
Proof.
  intros Htr. destruct b.
  - erewrite (new_events_app w0 _ (evs ++ [EvHandOff (mId t)]));
      [|cbn; by rewrite Htr, <- app_assoc].
    rewrite count_app. cbn. lia.
  - erewrite (new_events_app w0 _
      (evs ++ [EvHandOff (mId t)] ++
       completion_events (setNotifier BoundSetStatusWithNotification t) _));
      [|cbn; rewrite Htr, <- !app_assoc; reflexivity].
    rewrite !count_app, count_completion_events_sleep. cbn. lia.
Qed.

(** X15: when every sleep of the admission loop lasts at least its 500 ms
    and the environment is long enough, a submission does not wait for
    ever: it returns or throws after at most 2 (timeout + 1) sleeps. *)
Theorem submission_waits_at_most_twice_the_timeout_plus_two
    b grids archive metadata env w :
  0 ≤ mTimeout (queue w) →
  (∀ k tick, env !! k = Some tick →
             (Z.of_nat k + 1) * 500000000 ≤ elapsed_ns tick) →
  2 * (mTimeout (queue w) + 1) ≤ Z.of_nat (length env) →
  let r := writeGridVec b grids archive metadata env w in
  r.1 ≠ Stalled ∧
  count is_sleep (new_events w r.2) ≤ 2 * (mTimeout (queue w) + 1).
Proof.
  intros Hpos Hclock Hlong r.
  set (v := to_Index32 (mNextId (queue w) + 1)).
  destruct (wait_until_can_enqueue_bounded env (with_next_id v w) 0)
    as (ticks & Hpre & Hw & Hlen & Hst); [done|done|cbn; lia|].
  cbn [with_next_id queue mTimeout set_mNextId Nat.add] in Hlen, Hst.
  rewrite slept_with_next_id in Hw.
  destruct (new_events_slept ticks v w) as (evs & Hwait & Hnew & Hsleeps).
  unfold r. rewrite writeGridVec_eq, enqueue_eq. fold v.
  destruct (wait_until_can_enqueue env (with_next_id v w)) as [[[]|e|] w1];
    cbn [fst snd] in *; subst w1.
  - split; [done|]. erewrite count_sleep_enqueued.
    + rewrite Hsleeps. lia.
    + cbn. apply (waited_trace _ _ _ Hwait).
  - split; [done|]. rewrite Hnew, Hsleeps. lia.
  - destruct (Hst eq_refl) as [-> Hlt]. lia.
Qed.

(** ** The destructor *)








(** ** [empty] and [size] *)


(** * Callbacks that throw *)

(** ** Closed forms *)

Lemma thrown_None_called its id st :
  thrown its id st = None → called its id st = its.
Proof.
  induction its as [|it its IH]; cbn; [done|].
  destruct (invoke it.2 id st); [done|]. intros H. by rewrite IH.
Qed.

Lemma thrown_None_iff its id st :
  thrown its id st = None ↔ Forall (λ it, invoke it.2 id st = None) its.
Proof.
  induction its as [|it its IH]; cbn.
  - split; [constructor|done].
  - rewrite Forall_cons. destruct (invoke it.2 id st) eqn:Hit.
    + split; [done|]. by intros [? _].
    + rewrite IH. split; [by intros ?; split|by intros [_ ?]].
Qed.

Lemma thrown_Some its id st e :
  thrown its id st = Some e → ∃ it, it ∈ its ∧ invoke it.2 id st = Some e.
Proof.
  induction its as [|it its IH]; cbn; [done|].
  destruct (invoke it.2 id st) eqn:Hit.
  - intros [= ->]. exists it. split; [apply list_elem_of_here|done].
  - intros H. destruct (IH H) as (it' & Hin & He).
    exists it'. split; [by apply list_elem_of_further|done].
Qed.

Lemma called_prefix its id st : called its id st `prefix_of` its.
Proof.
  induction its as [|it its IH]; cbn; [done|].
  apply prefix_cons. destruct (invoke it.2 id st); [apply prefix_nil|done].
Qed.

Lemma call_each_throwing_eq its id st w :
  call_each_throwing its id st w =
  (match thrown its id st with None => Ok tt | Some e => Raise e end,
   {| queue := queue w; scheduler := scheduler w;
      trace := trace w ++ ((λ it, EvNotifier it.1 it.2 id st) <$> called its id st) |}).
Proof.
  revert w. induction its as [|it its IH]; intros w.
  - cbn. rewrite app_nil_r. by destruct w.
  - cbn [call_each_throwing thrown called]. unfold bind at 1, emit.
    destruct (invoke it.2 id st) as [e|].
    + unfold bind, throw. done.
    + unfold bind at 1, ret. rewrite IH. cbn. by rewrite <- app_assoc.
Qed.

Local Arguments call_each_throwing : simpl never.

(** When a callback throws, the status stays as set: the entry is not
    erased and the counter is not decremented. *)
Lemma setStatusWithNotification_throwing_eq id st w :
  setStatusWithNotification_throwing id st w =
  (match thrown (in_key_order (mNotifiers (queue w))) id st with
   | None => Ok tt
   | Some e => Raise e
   end,
   {| queue :=
        match thrown (in_key_order (mNotifiers (queue w))) id st with
        | None => after_completion id st (queue w)
        | Some _ => set_mStatus (<[id := st]> (mStatus (queue w))) (queue w)
        end;
      scheduler := scheduler w;
      trace := trace w ++
               ((λ it, EvNotifier it.1 it.2 id st) <$>
                  called (in_key_order (mNotifiers (queue w))) id st) |}).
Proof.
  unfold setStatusWithNotification_throwing, after_completion, setStatus,
    bind, modify_impl, get_impl.
  cbn. destruct (Nat.eqb (base.size (mNotifiers (queue w))) 0) eqn:Hsz; cbn.
  - apply Nat.eqb_eq in Hsz. rewrite (in_key_order_empty _ Hsz). cbn.
    rewrite app_nil_r. by destruct (is_terminal st).
  - rewrite call_each_throwing_eq. cbn.
    destruct (thrown _ id st); [done|]. cbn. by destruct (is_terminal st).
Qed.

Local Arguments setStatusWithNotification_throwing : simpl never.

(** The events of the report of a task whose sink is bound. *)
Lemma execute_throwing_eq t w :
  execute_throwing t w =
  match mNotify t with
  | Some _ =>
      (match thrown (in_key_order (mNotifiers (queue w))) (mId t) (outcome t) with
       | None => Ok None
       | Some e => Raise e
       end,
       {| queue :=
            match thrown (in_key_order (mNotifiers (queue w))) (mId t) (outcome t) with
            | None => after_completion (mId t) (outcome t) (queue w)
            | Some _ =>
                set_mStatus (<[mId t := outcome t]> (mStatus (queue w))) (queue w)
            end;
          scheduler := scheduler w;
          trace := trace w ++ write_events t ++
                   EvSink (mId t) (outcome t) ::
                   ((λ it, EvNotifier it.1 it.2 (mId t) (outcome t)) <$>
                      called (in_key_order (mNotifiers (queue w))) (mId t) (outcome t)) |})
  | None =>
      (Ok None,
       {| queue := queue w; scheduler := scheduler w;
          trace := trace w ++ write_events t |})
  end.
Proof.
  unfold execute_throwing, archive_write, notify_throwing, outcome, write_events.
  unfold try_catch, bind, emit, ret, throw.
  destruct (write (mArchive t) (mGrids t) (mMetadata t)) as [e|]; cbn.
  - destruct (as_std_exception e) as [[msg|]|]; cbn;
      destruct (mNotify t) as [[]|]; cbn;
      rewrite ?setStatusWithNotification_throwing_eq; cbn;
      try destruct (thrown _ _ _); cbn;
      rewrite <- ?app_assoc; done.
  - destruct (mNotify t) as [[]|]; cbn;
      rewrite ?setStatusWithNotification_throwing_eq; cbn;
      try destruct (thrown _ _ _); cbn;
      rewrite <- ?app_assoc; done.
Qed.

Local Arguments execute_throwing : simpl never.

(** With callbacks that return, this is the execution of the task that
    the rest of the development speaks of. *)
Lemma execute_throwing_returns t w :
  (∀ k cb, mNotifiers (queue w) !! k = Some cb → invoke cb (mId t) (outcome t) = None) →
  execute_throwing t w = execute t w.
Proof.
  intros Hret.
  assert (Hnone : thrown (in_key_order (mNotifiers (queue w))) (mId t) (outcome t) = None).
  { apply thrown_None_iff, Forall_forall. intros [k cb] Hin. cbn.
    apply (Hret k). by apply elem_of_in_key_order. }
  rewrite execute_throwing_eq, execute_eq, Hnone, (thrown_None_called _ _ _ Hnone).
  by destruct (mNotify t).
Qed.

Lemma notifier_calls_called (its : list (Z * Notifier)) id st :
  notifier_calls ((λ it, EvNotifier it.1 it.2 id st) <$> its)
  = (λ it, (it.1, it.2, id, st)) <$> its.
Proof.
  unfold notifier_calls. induction its as [|it l IH]; [done|]. cbn. by rewrite IH.
Qed.

(** The notifier calls of one execution of a task whose sink is bound. *)
Lemma notifier_calls_execute_throwing t w :
  mNotify t = Some BoundSetStatusWithNotification →
  notifier_calls (new_events w (execute_throwing t w).2)
  = (λ it, (it.1, it.2, mId t, outcome t)) <$>
      called (in_key_order (mNotifiers (queue w))) (mId t) (outcome t).
Proof.
  intros Hb. rewrite execute_throwing_eq, Hb. cbn [snd].
  erewrite new_events_app by reflexivity.
  rewrite notifier_calls_app, notifier_calls_write_events.
  change (notifier_calls (EvSink ?i ?s :: ?l)) with (notifier_calls l).
  cbn [app]. apply notifier_calls_called.
Qed.

(** Every registered callback whose predecessors in key order return is
    among the ones called, and nothing after one that throws. *)
Lemma called_until_throw (its : list (Z * Notifier)) id st :
  StronglySorted Z.lt its.*1 →
  (∀ it, it ∈ its →
     (∀ it', it' ∈ its → it'.1 < it.1 → invoke it'.2 id st = None) →
     it ∈ called its id st ∧
     (∀ e, invoke it.2 id st = Some e →
           thrown its id st = Some e ∧
           Forall (λ it', it'.1 ≤ it.1) (called its id st))).
Proof.
  induction its as [|x its IH]; intros Hs it Hin Hpred;
    [by apply not_elem_of_nil in Hin|].
  cbn in Hs. apply StronglySorted_inv in Hs as [Hs Hx].
  rewrite Forall_fmap, Forall_forall in Hx.
  cbn [called thrown]. apply elem_of_cons in Hin as [->|Hin].
  - split; [apply list_elem_of_here|]. intros e He. rewrite He.
    split; [done|]. by repeat constructor.
  - assert (Hxret : invoke x.2 id st = None).
    { apply Hpred; [apply list_elem_of_here|]. by apply Hx. }
    rewrite Hxret. destruct (IH Hs it Hin) as [Hc Ht].
    { intros it' Hin' Hlt. apply Hpred; [by apply list_elem_of_further|done]. }
    split; [by apply list_elem_of_further|].
    intros e He. destruct (Ht e He) as [Hthrown Hle]. split; [done|].
    constructor; [|done]. specialize (Hx it Hin). cbn in Hx. lia.
Qed.

Lemma called_sublist its id st : called its id st `sublist_of` its.
Proof.
  induction its as [|it its IH]; cbn; [done|].
  apply sublist_skip. destruct (invoke it.2 id st); [apply sublist_nil_l|done].
Qed.

Lemma called_ascending its id st :
  StronglySorted Z.lt its.*1 → StronglySorted Z.lt (called its id st).*1.
Proof.
  induction its as [|it its IH]; intros Hs; cbn; [constructor|].
  cbn in Hs. apply StronglySorted_inv in Hs as [Hs Hit].
  destruct (invoke it.2 id st); [by repeat constructor|].
  constructor; [by apply IH|].
  apply Forall_forall. intros y Hy. rewrite Forall_forall in Hit. apply Hit.
  eapply elem_of_sublist; [exact Hy|]. apply fmap_sublist, called_sublist.
Qed.

Lemma thrown_Some_called its id st e :
  thrown its id st = Some e →
  ∃ it, it ∈ called its id st ∧ it ∈ its ∧ invoke it.2 id st = Some e.
Proof.
  induction its as [|it its IH]; cbn; [done|].
  destruct (invoke it.2 id st) eqn:Hit.
  - intros [= ->]. exists it. repeat split; [apply list_elem_of_here..|done].
  - intros H. destruct (IH H) as (it' & Hc & Hin & He).
    exists it'. repeat split; [by apply list_elem_of_further..|done].
Qed.

(** ** What leaves [execute] *)

(** C2 (amended): [execute] attempts the write, logs the message of a
    [std::exception] that has one, and reports through the sink bound to
    the task [SUCCEEDED] when the write returned and [FAILED] when it
    threw anything at all: nothing that the write throws leaves
    [execute].  What a callback of the client throws during the report
    does leave it: [execute] returns (its [nullptr]) when the sink is not
    bound or every registered callback returns, and otherwise throws what
    the first throwing callback, in key order, threw; the status entry of
    the task is then still there and the in-flight counter is not
    decremented. *)
Theorem execute_catches_the_write_but_not_the_callbacks t w :
  let id := mId t in
  let its := in_key_order (mNotifiers (queue w)) in
  let reported st :=
    match mNotify t with
    | Some _ => EvSink id st :: ((λ it, EvNotifier it.1 it.2 id st) <$> called its id st)
    | None => []
    end in
  let r := execute_throwing t w in
  new_events w r.2 =
    EvWrite id (mArchive t) (mGrids t) (mMetadata t) ::
    match write (mArchive t) (mGrids t) (mMetadata t) with
    | None => reported SUCCEEDED
    | Some e =>
        match as_std_exception e with
        | Some (Some msg) => EvLogError msg :: reported FAILED
        | _ => reported FAILED
        end
    end ∧
  r.1 = match mNotify t, thrown its id (outcome t) with
        | Some _, Some e => Raise e
        | _, _ => Ok None
        end ∧
  (∀ e, r.1 = Raise e →
     ∃ k cb, mNotifiers (queue w) !! k = Some cb ∧
             invoke cb id (outcome t) = Some e ∧
             EvNotifier k cb id (outcome t) ∈ new_events w r.2 ∧
             mStatus (queue r.2) !! id = Some (outcome t) ∧
             mNumTasks (queue r.2) = mNumTasks (queue w)) ∧
  ((∀ k cb, mNotifiers (queue w) !! k = Some cb → invoke cb id (outcome t) = None) →
   r.1 = Ok None ∧ r = execute t w) ∧
  (mNotify t = None → r.1 = Ok None).
Proof.
  intros id its reported r.
  assert (Hev : new_events w r.2 =
            write_events t ++ reported (outcome t)).
  { unfold r, reported. rewrite execute_throwing_eq.
    destruct (mNotify t); cbn [snd]; erewrite new_events_app; try reflexivity.
    by rewrite app_nil_r. }
  assert (Hres : r.1 = match mNotify t, thrown its id (outcome t) with
                       | Some _, Some e => Raise e
                       | _, _ => Ok None
                       end).
  { unfold r. rewrite execute_throwing_eq.
    destruct (mNotify t); [|done]. cbn [fst]. fold id its.
    by destruct (thrown its id (outcome t)). }
  split; [|split; [done|split; [|split]]].
  - rewrite Hev. unfold write_events, outcome, reported. fold id.
    destruct (write (mArchive t) (mGrids t) (mMetadata t)) as [e|]; [|done].
    by destruct (as_std_exception e) as [[msg|]|].
  - intros e He. rewrite Hres in He.
    destruct (mNotify t) as [s|] eqn:Hb; [|done].
    destruct (thrown its id (outcome t)) as [e'|] eqn:Ht; [|done].
    injection He as ->.
    destruct (thrown_Some_called _ _ _ _ Ht) as ([k cb] & Hc & Hin & Hthrows).
    exists k, cb. split; [by apply elem_of_in_key_order|]. split; [done|].
    split.
    { rewrite Hev. apply elem_of_app. right. unfold reported.
      apply list_elem_of_further, list_elem_of_fmap. by exists (k, cb). }
    unfold r. rewrite execute_throwing_eq, Hb. cbn [snd queue]. fold id its.
    rewrite Ht. cbn. by rewrite lookup_insert_eq.
  - intros Hret. rewrite <- (execute_throwing_returns t w Hret). split; [|done].
    rewrite Hres. destruct (mNotify t); [|done].
    assert (Hnone : thrown its id (outcome t) = None).
    { apply thrown_None_iff, Forall_forall. intros [k cb] Hin. cbn.
      apply (Hret k). by apply elem_of_in_key_order. }
    by rewrite Hnone.
  - intros Hb. by rewrite Hres, Hb.
Qed.

(** ** Who is called when a task completes *)

(** C3 (amended): the completion of a task (the execution of a task whose
    sink is bound) calls the registered callbacks in strictly ascending
    order of subscription identifier, so none twice, each with the
    identifier of the task and its terminal status, up to and including
    the first that throws.  A callback that is registered, and so one
    that [addNotifier] has just registered, is called, once, when those
    registered before it return; one that throws ends the calls, and
    [execute] throws what it threw; an identifier that is not registered,
    that [removeNotifier] removed or that [clearNotifiers] cleared gets
    no call. *)
Theorem completion_calls_the_registered_notifiers_until_one_throws t0 w k cb :
  let t := setNotifier BoundSetStatusWithNotification t0 in
  let id := mId t0 in
  let st := outcome t0 in
  let calls_at v := notifier_calls (new_events v (execute_throwing t v).2) in
  let returns_before k v :=
    ∀ k' cb', mNotifiers (queue v) !! k' = Some cb' → k' < k → invoke cb' id st = None in
  calls_at w
  = (λ it, (it.1, it.2, id, st)) <$> called (in_key_order (mNotifiers (queue w))) id st ∧
  is_terminal st = true ∧
  StronglySorted Z.lt (subscription_of <$> calls_at w) ∧
  (mNotifiers (queue w) !! k = Some cb → returns_before k w →
   (k, cb, id, st) ∈ calls_at w ∧
   Forall (λ c, subscription_of c = k → c = (k, cb, id, st)) (calls_at w) ∧
   ∀ e, invoke cb id st = Some e →
        (execute_throwing t w).1 = Raise e ∧
        Forall (λ c, subscription_of c ≤ k) (calls_at w)) ∧
  (mNotifiers (queue w) !! k = None →
   Forall (λ c, subscription_of c ≠ k) (calls_at w)) ∧
  (let w1 := (addNotifier cb w).2 in
   returns_before (mNextNotifierId (queue w)) w →
   (addNotifier cb w).1 = Ok (mNextNotifierId (queue w)) ∧
   (mNextNotifierId (queue w), cb, id, st) ∈ calls_at w1) ∧
  Forall (λ c, subscription_of c ≠ k) (calls_at (removeNotifier k w).2) ∧
  calls_at (clearNotifiers w).2 = [].
Proof.
  intros t id st calls_at returns_before.
  assert (Hcalls : ∀ v, calls_at v
            = (λ it, (it.1, it.2, id, st)) <$>
                called (in_key_order (mNotifiers (queue v))) id st).
  { intros v. unfold calls_at. by rewrite notifier_calls_execute_throwing. }
  assert (Hreg : ∀ v k1 cb1, mNotifiers (queue v) !! k1 = Some cb1 → returns_before k1 v →
            (k1, cb1) ∈ called (in_key_order (mNotifiers (queue v))) id st ∧
            ∀ e, invoke cb1 id st = Some e →
                 thrown (in_key_order (mNotifiers (queue v))) id st = Some e ∧
                 Forall (λ it', it'.1 ≤ k1)
                   (called (in_key_order (mNotifiers (queue v))) id st)).
  { intros v k1 cb1 Hk Hret.
    apply (called_until_throw _ id st (in_key_order_ascending _) (k1, cb1)).
    - by apply elem_of_in_key_order.
    - intros [k' cb'] Hin Hlt. cbn in *. apply (Hret k'); [|done].
      by apply elem_of_in_key_order. }
  assert (Hsub : ∀ v, called (in_key_order (mNotifiers (queue v))) id st
                      `sublist_of` in_key_order (mNotifiers (queue v))).
  { intros v. apply called_sublist. }
  assert (Hnone : ∀ v, mNotifiers (queue v) !! k = None →
            Forall (λ c, subscription_of c ≠ k) (calls_at v)).
  { intros v Hk. rewrite Hcalls. apply Forall_fmap, Forall_forall.
    intros [k' cb'] Hin Heq. cbn in Heq. subst k'.
    eapply elem_of_sublist in Hin; [|apply Hsub].
    apply elem_of_in_key_order in Hin. congruence. }
  split; [apply Hcalls|]. split; [apply outcome_terminal|]. split.
  { rewrite Hcalls, <- list_fmap_compose.
    apply (called_ascending (in_key_order (mNotifiers (queue w)))),
      in_key_order_ascending. }
  split; [|split; [apply Hnone|split; [|split]]].
  - intros Hk Hret. destruct (Hreg w k cb Hk Hret) as [Hin Hthrow].
    split; [|split].
    + rewrite Hcalls. apply list_elem_of_fmap. by exists (k, cb).
    + rewrite Hcalls. apply Forall_fmap, Forall_forall. intros [k' cb'] Hin' Heq.
      cbn in Heq. subst k'. eapply elem_of_sublist in Hin'; [|apply Hsub].
      apply elem_of_in_key_order in Hin'. cbn. congruence.
    + intros e He. destruct (Hthrow e He) as [Ht Hle]. split.
      * rewrite execute_throwing_eq. unfold t. cbn [setNotifier mNotify mId fst].
        change (outcome (setNotifier BoundSetStatusWithNotification t0)) with st.
        fold id. by rewrite Ht.
      * rewrite Hcalls. apply Forall_fmap. eapply Forall_impl; [exact Hle|]. done.
  - intros w1 Hret. split; [done|].
    assert (Hw1 : mNotifiers (queue w1)
                  = <[mNextNotifierId (queue w) := cb]> (mNotifiers (queue w))) by done.
    destruct (Hreg w1 (mNextNotifierId (queue w)) cb) as [Hin _].
    + rewrite Hw1. apply lookup_insert_eq.
    + intros k' cb' Hk' Hlt. rewrite Hw1, lookup_insert_ne in Hk' by lia.
      by apply (Hret k' cb').
    + rewrite Hcalls. apply list_elem_of_fmap.
      by exists (mNextNotifierId (queue w), cb).
  - apply Hnone. unfold removeNotifier, bind, get_impl, modify_impl, ret.
    destruct (mNotifiers (queue w) !! k) eqn:Hk; cbn; [|done].
    apply lookup_delete_eq.
  - rewrite Hcalls. unfold clearNotifiers, modify_impl. cbn.
    rewrite in_key_order_empty; [done|]. apply map_size_empty.
Qed.

End QueueModel.

(** * Concrete runs

    Grid handles are numbers, metadata is a list of pairs, notifiers are
    known by name; the archive writes without failing.  The full queue of
    the runs below has capacity 1 under TBB and holds one task that is
    scheduled and has not run yet; the clock is read every half second and
    nothing completes meanwhile. *)

(** Without TBB a submission runs its task before it returns: the write,
    the log line of a failed write, the sink, then the notifiers in
    subscription order. *)
Example synchronous_submissions :
  let good : @Archive nat (list (string * string)) := mkArchive (λ _ _, None) in
  let bad : @Archive nat (list (string * string)) :=
    mkArchive (λ _ _, Some (StdException (Some "disk full"))) in
  let w : @World nat (list (string * string)) string :=
    run NoTBB
      [OpAddNotifier "first"; OpAddNotifier "second";
       OpWriteGrid 7%nat good [] []; OpWriteGrid 8%nat bad [] []]
      (new_world 120 100 1) in
  trace w =
    [EvHandOff 1; EvWrite 1 good [7%nat] []; EvSink 1 SUCCEEDED;
     EvNotifier 1 "first" 1 SUCCEEDED; EvNotifier 2 "second" 1 SUCCEEDED;
     EvHandOff 2; EvWrite 2 bad [8%nat] []; EvLogError "disk full"; EvSink 2 FAILED;
     EvNotifier 1 "first" 2 FAILED; EvNotifier 2 "second" 2 FAILED] ∧
  size (queue w) = 0 ∧ mNextId (queue w) = 3 ∧ mStatus (queue w) = ∅.
Proof. vm_compute. done. Qed.

(** Under TBB, with no notifier, a task is [PENDING] until a worker runs
    it; the first poll after that returns the terminal status, the second
    [UNKNOWN]. *)
Example polling_a_scheduled_task :
  let good : @Archive nat (list (string * string)) := mkArchive (λ _ _, None) in
  let w0 : @World nat (list (string * string)) string :=
    run UseTBB [OpWriteGrid 7%nat good [] []] (new_world 120 100 1) in
  let w1 := (run_scheduled 0 (status 1 w0).2).2 in
  (status 1 w0).1 = Ok PENDING ∧
  size (queue w0) = 1 ∧
  (status 1 w1).1 = Ok SUCCEEDED ∧
  (status 1 (status 1 w1).2).1 = Ok UNKNOWN ∧
  size (queue w1) = 0.
Proof. vm_compute. done. Qed.

(** C1, where the claim fails: the queue is full, a submission that would
    have received identifier 2 times out after 1 second, and the next
    submission, made once the scheduled task has completed, receives
    identifier 3. *)
Lemma failed_submission_consumes_identifier :
  let archive : @Archive nat (list (string * string)) := mkArchive (λ _ _, None) in
  let w : @World nat (list (string * string)) string :=
    run UseTBB [OpWriteGrid 7%nat archive [] []] (new_world 1 100 1) in
  let env := (λ n, mkTick [] (n * 500000000)) <$> [1; 2; 3; 4] in
  let failed := writeGrid UseTBB 8%nat archive [] env w in
  let later := writeGrid UseTBB 8%nat archive [] [] (run_scheduled 0 failed.2).2 in
  mNextId (queue w) = 2 ∧
  failed.1 = Raise (RuntimeError "unable to queue I/O task; 1-second time limit expired") ∧
  later.1 = Ok 3 ∧
  later.1 ≠ Ok (mNextId (queue w)).
Proof. vm_compute. done. Qed.

Lemma admission_timeout_throws_and_consumes_identifier_witness :
  let archive : @Archive nat (list (string * string)) := mkArchive (λ _ _, None) in
  let w : @World nat (list (string * string)) string :=
    run UseTBB [OpWriteGrid 7%nat archive [] []] (new_world 1 100 1) in
  let waiting := (λ n, mkTick [] (n * 500000000)) <$> [1; 2; 3] in
  let tick := mkTick [] 2000000000 in
  (∀ ticks, ticks `prefix_of` waiting → canEnqueue (queue (slept ticks w)) = false) ∧
  Forall (λ t, duration_cast_seconds (elapsed_ns t) ≤ mTimeout (queue w)) waiting ∧
  mTimeout (queue w) < duration_cast_seconds (elapsed_ns tick) ∧
  ∃ w',
    writeGridVec UseTBB [8%nat] archive [] (waiting ++ [tick]) w
    = (Raise (RuntimeError (time_limit_message (mTimeout (queue w)))), w') ∧
    mNextId (queue w') = 3.
Proof.
  intros archive w waiting tick.
  assert (Hfull : ∀ ticks, ticks `prefix_of` waiting →
            canEnqueue (queue (slept ticks w)) = false).
  { intros ticks [k Hk].
    destruct ticks as [|a [|b [|c [|d l]]]]; simplify_eq/=; reflexivity. }
  assert (Hearly : Forall (λ t, duration_cast_seconds (elapsed_ns t) ≤ mTimeout (queue w))
                     waiting).
  { repeat constructor; vm_compute; discriminate. }
  assert (Hlate : mTimeout (queue w) < duration_cast_seconds (elapsed_ns tick)).
  { reflexivity. }
  split; [exact Hfull|]. split; [exact Hearly|]. split; [exact Hlate|].
  destruct (admission_timeout_throws_and_consumes_identifier
              UseTBB [8%nat] archive [] waiting tick [] w
              Hfull Hearly Hlate) as (w' & Hraise & Hid & _).
  exists w'. split; [exact Hraise|]. rewrite Hid. reflexivity.
Defined.

(** C8, where the claim fails: with the timeout 0 and the queue full, the
    submission sleeps twice before it throws. *)
Lemma zero_timeout_submission_sleeps_before_failing :
  let archive : @Archive nat (list (string * string)) := mkArchive (λ _ _, None) in
  let w : @World nat (list (string * string)) string :=
    run UseTBB [OpSetTimeout 0; OpWriteGrid 7%nat archive [] []] (new_world 120 100 1) in
  let env := (λ n, mkTick [] (n * 500000000)) <$> [1; 2] in
  let failed := writeGrid UseTBB 8%nat archive [] env w in
  timeout (queue w) = 0 ∧
  canEnqueue (queue w) = false ∧
  failed.1 = Raise (RuntimeError "unable to queue I/O task; 0-second time limit expired") ∧
  count is_sleep (new_events w failed.2) = 2 ∧
  count is_sleep (new_events w failed.2) ≠ 0.
Proof. vm_compute. done. Qed.

Lemma zero_timeout_error_follows_a_sleep_witness :
  let archive : @Archive nat (list (string * string)) := mkArchive (λ _ _, None) in
  let w : @World nat (list (string * string)) string :=
    run UseTBB [OpSetTimeout 0; OpWriteGrid 7%nat archive [] []] (new_world 120 100 1) in
  let env := (λ n, mkTick [] (n * 500000000)) <$> [1; 2] in
  let failed := writeGridVec UseTBB [8%nat] archive [] env w in
  mTimeout (queue w) = 0 ∧
  canEnqueue (queue w) = false ∧
  failed = (Raise (RuntimeError (time_limit_message 0)), failed.2) ∧
  1 ≤ count is_sleep (new_events w failed.2).
Proof.
  intros archive w env failed.
  assert (Hzero : mTimeout (queue w) = 0) by reflexivity.
  assert (Hfull : canEnqueue (queue w) = false) by reflexivity.
  assert (Hraise : failed = (Raise (RuntimeError (time_limit_message 0)), failed.2)).
  { vm_compute. reflexivity. }
  split; [exact Hzero|]. split; [exact Hfull|]. split; [exact Hraise|].
  exact (proj1 (proj2 (zero_timeout_error_follows_a_sleep
                         UseTBB [8%nat] archive [] env w _ _
                         Hzero Hfull Hraise))).
Defined.



(** C2, where the claim fails: the write of the scheduled task succeeds
    and is reported, the callback of the one registered notifier throws,
    and what it throws leaves [execute]. *)
Lemma throwing_callback_escapes_execute :
  let invoke := λ (cb : string) (_ : Z) (_ : Status),
    if String.eqb cb "thrower"
    then Some (StdException (Some "callback failed")) else None in
  let archive : @Archive nat (list (string * string)) := mkArchive (λ _ _, None) in
  let w : @World nat (list (string * string)) string :=
    run UseTBB [OpAddNotifier "thrower"; OpWriteGrid 7%nat archive [] []]
      (new_world 120 100 1) in
  let t := setNotifier BoundSetStatusWithNotification (OutputTask 1 [7%nat] archive []) in
  let r := execute_throwing invoke t w in
  scheduler w = [t] ∧
  new_events w r.2 =
    [EvWrite 1 archive [7%nat] []; EvSink 1 SUCCEEDED;
     EvNotifier 1 "thrower" 1 SUCCEEDED] ∧
  r.1 = Raise (StdException (Some "callback failed")) ∧
  r.1 ≠ Ok None.
Proof. vm_compute. done. Qed.

(** C3, where the claim fails: two notifiers are registered when the
    scheduled task completes; the callback of the first throws, and the
    second is not called. *)
Lemma throwing_callback_ends_the_fan_out :
  let invoke := λ (cb : string) (_ : Z) (_ : Status),
    if String.eqb cb "thrower"
    then Some (StdException (Some "callback failed")) else None in
  let archive : @Archive nat (list (string * string)) := mkArchive (λ _ _, None) in
  let w : @World nat (list (string * string)) string :=
    run UseTBB
      [OpAddNotifier "thrower"; OpAddNotifier "second"; OpWriteGrid 7%nat archive [] []]
      (new_world 120 100 1) in
  let t := setNotifier BoundSetStatusWithNotification (OutputTask 1 [7%nat] archive []) in
  let calls := notifier_calls (new_events w (execute_throwing invoke t w).2) in
  scheduler w = [t] ∧
  mNotifiers (queue w) !! 2 = Some "second" ∧
  calls = [(1, "thrower", 1, SUCCEEDED)] ∧
  Forall (λ c, subscription_of c ≠ 2) calls.
Proof.
  intros invoke archive w t calls.
  assert (Hcalls : calls = [(1, "thrower", 1, SUCCEEDED)]) by (vm_compute; reflexivity).
  split; [vm_compute; reflexivity|]. split; [vm_compute; reflexivity|].
  split; [exact Hcalls|]. rewrite Hcalls. by repeat constructor.
Qed.

(** ** Instances of the further properties *)


Lemma submission_with_room_under_TBB_witness :
  let archive : @Archive nat (list (string * string)) := mkArchive (λ _ _, None) in
  let w : @World nat (list (string * string)) string := new_world 120 100 1 in
  canEnqueue (queue w) = true ∧
  (writeGridVec UseTBB [8%nat] archive [] [] w).1 = Ok 1.
Proof.
  intros archive w.
  assert (Hroom : canEnqueue (queue w) = true) by reflexivity.
  split; [exact Hroom|].
  exact (proj1 (submission_with_room_under_TBB [8%nat] archive [] [] w Hroom)).
Defined.


Lemma addNotifier_returns_an_identifier_not_in_use_witness :
  let ops : list (@Op nat (list (string * string)) string) :=
    [OpAddNotifier "first"; OpRemoveNotifier 1] in
  let w := run UseTBB ops (new_world 120 100 1) in
  1 + count is_registration ops < Index32_modulus ∧
  mNotifiers (queue w) !! mNextNotifierId (queue w) = None.
Proof.
  intros ops w.
  assert (Hfew : 1 + count is_registration ops < Index32_modulus) by reflexivity.
  split; [exact Hfew|].
  exact (proj1 (proj2 (proj2 (proj2
           (addNotifier_returns_an_identifier_not_in_use
              120 100 UseTBB 1 ops "second" Hfew))))).
Defined.

Lemma task_identifiers_name_tasks_one_to_one_witness :
  let archive : @Archive nat (list (string * string)) := mkArchive (λ _ _, None) in
  let ops : list (@Op nat (list (string * string)) string) :=
    [OpWriteGrid 7%nat archive [] []; OpWriteGrid 8%nat archive [] []; OpWorker 0] in
  let w := run UseTBB ops (new_world 120 100 2) in
  1 + count is_submission ops < Index32_modulus ∧
  NoDup (mId <$> scheduler w).
Proof.
  intros archive ops w.
  assert (Hfew : 1 + count is_submission ops < Index32_modulus) by reflexivity.
  split; [exact Hfew|].
  exact (proj1 (proj2 (proj2
           (task_identifiers_name_tasks_one_to_one 120 100 UseTBB 2 ops Hfew)))).
Defined.

Lemma capacity_bounds_the_tasks_in_flight_witness :
  let archive : @Archive nat (list (string * string)) := mkArchive (λ _ _, None) in
  let ops : list (@Op nat (list (string * string)) string) :=
    [OpWriteGrid 7%nat archive [] []; OpWriteGrid 8%nat archive [] []; OpWorker 0] in
  let w := run UseTBB ops (new_world 120 100 1) in
  1 < Int32_half ∧
  Forall (λ op, is_setCapacity op = false) ops ∧
  size (queue w) ≤ Z.max 0 1.
Proof.
  intros archive ops w.
  assert (Hsmall : 1 < Int32_half) by reflexivity.
  assert (Hops : Forall (λ op, is_setCapacity op = false) ops).
  { repeat constructor. }
  split; [exact Hsmall|]. split; [exact Hops|].
  exact (proj1 (proj2 (proj2
           (capacity_bounds_the_tasks_in_flight 120 100 UseTBB 1 ops Hsmall Hops)))).
Defined.



(** The queue is full and stays full, the timeout is 0, and the clock is
    read every half second. *)
Lemma submission_waits_at_most_twice_the_timeout_plus_two_witness :
  let archive : @Archive nat (list (string * string)) := mkArchive (λ _ _, None) in
  let w : @World nat (list (string * string)) string :=
    run UseTBB [OpSetTimeout 0; OpWriteGrid 7%nat archive [] []] (new_world 120 100 1) in
  let env := (λ n, mkTick [] (n * 500000000)) <$> [1; 2] in
  let r := writeGridVec UseTBB [8%nat] archive [] env w in
  0 ≤ mTimeout (queue w) ∧
  (∀ k tick, env !! k = Some tick →
             (Z.of_nat k + 1) * 500000000 ≤ elapsed_ns tick) ∧
  2 * (mTimeout (queue w) + 1) ≤ Z.of_nat (length env) ∧
  r.1 ≠ Stalled.
Proof.
  intros archive w env r.
  assert (Hpos : 0 ≤ mTimeout (queue w)).
  { vm_compute. discriminate. }
  assert (Hclock : ∀ k tick, env !! k = Some tick →
                     (Z.of_nat k + 1) * 500000000 ≤ elapsed_ns tick).
  { intros k tick Hk.
    destruct k as [|[|k]]; simplify_eq/=; vm_compute; discriminate. }
  assert (Hlong : 2 * (mTimeout (queue w) + 1) ≤ Z.of_nat (length env)).
  { vm_compute. discriminate. }
  split; [exact Hpos|]. split; [exact Hclock|]. split; [exact Hlong|].
  exact (proj1 (submission_waits_at_most_twice_the_timeout_plus_two
                  UseTBB [8%nat] archive [] env w Hpos Hclock Hlong)).
Defined.



(** * Ranges and the point-sorting operator *)

Lemma to_size_t_small z : 0 ≤ z < size_t_modulus → to_size_t z = z.
Proof. intros H. unfold to_size_t. by apply Z.mod_small. Qed.

(** ** [ShortestFittingInt] *)

(** X19: [ShortestFittingInt<NBits>] compiles exactly for 1 to 64 bits,
    and its [Type] is then the narrowest of [int8_t], [int16_t],
    [int32_t], [int64_t] that has at least [NBits] bits. *)
Theorem ShortestFittingInt_is_the_narrowest_type_that_fits NBits t :
  ShortestFittingInt NBits = Some t ↔
  1 ≤ NBits ≤ 64 ∧
  NBits ≤ 8 * sizeof t ∧
  ∀ t', NBits ≤ 8 * sizeof t' → sizeof t ≤ sizeof t'.
Proof.
  unfold ShortestFittingInt, NBytes.
  destruct (Z.ltb_spec 0 NBits) as [Hpos|Hneg]; cbn [negb].
  2:{ split; [done|]. intros (Hrange & _). lia. }
  rewrite Z.quot_div_nonneg by lia.
  assert (Hq : 8 * ((NBits - 1) / 8) ≤ NBits - 1 < 8 * ((NBits - 1) / 8) + 8).
  { pose proof (Z.div_mod (NBits - 1) 8 ltac:(lia)).
    pose proof (Z.mod_pos_bound (NBits - 1) 8 ltac:(lia)). lia. }
  set (q := (NBits - 1) / 8) in *. clearbody q.
  destruct (Z.ltb_spec 0 (q + 1)); cbn [negb]; [|lia].
  destruct (Z.leb_spec (q + 1) (sizeof int64_t)) as [Hfit|Hbig];
    cbn [negb sizeof] in *.
  2:{ split; [done|]. intros (Hrange & _). lia. }
  split.
  - intros [= <-]. split; [lia|].
    destruct (Z.leb_spec (q + 1) 1);
      [|destruct (Z.leb_spec (q + 1) 2); [|destruct (Z.leb_spec (q + 1) 4)]];
      cbn [sizeof] in *; (split; [lia|]); intros []; cbn [sizeof]; lia.
  - intros (Hrange & Hfits & Hmin). f_equal.
    pose proof (Hmin int8_t) as H8. pose proof (Hmin int16_t) as H16.
    pose proof (Hmin int32_t) as H32. pose proof (Hmin int64_t) as H64.
    cbn [sizeof] in *.
    destruct (Z.leb_spec (q + 1) 1);
      [|destruct (Z.leb_spec (q + 1) 2); [|destruct (Z.leb_spec (q + 1) 4)]];
      destruct t; cbn [sizeof] in *; try done; lia.
Qed.

(** ** [BlockedRange<size_t>] *)

(** X20: for a well-formed range the size is [end - begin], the range is
    empty exactly when its size is 0, and a divisible range is not empty;
    a range whose end lies before its begin is empty although its size,
    computed in [size_t], is [2^64 - (begin - end)], so that it is divisible
    whenever its grain size is smaller than that. *)
Theorem BlockedRange_size_of_well_formed_and_reversed_ranges (r : BlockedRange) :
  0 ≤ mBegin r < size_t_modulus →
  0 ≤ mEnd r < size_t_modulus →
  0 ≤ mGrainSize r →
  (mBegin r ≤ mEnd r →
   BlockedRange_size r = mEnd r - mBegin r ∧
   (BlockedRange_empty r = true ↔ BlockedRange_size r = 0) ∧
   (BlockedRange_is_divisible r = true → BlockedRange_empty r = false)) ∧
  (mEnd r < mBegin r →
   BlockedRange_empty r = true ∧
   BlockedRange_size r = size_t_modulus - (mBegin r - mEnd r) ∧
   (BlockedRange_is_divisible r = true ↔
    mGrainSize r < size_t_modulus - (mBegin r - mEnd r))).
Proof.
  intros Hb He Hg. unfold BlockedRange_is_divisible, BlockedRange_empty, BlockedRange_size.
  split.
  - intros Hle. rewrite to_size_t_small by lia. split; [done|]. split.
    + rewrite negb_true_iff, Z.ltb_ge. lia.
    + rewrite Z.ltb_lt, negb_false_iff, Z.ltb_lt. lia.
  - intros Hlt.
    assert (Hsz : to_size_t (mEnd r - mBegin r) = size_t_modulus - (mBegin r - mEnd r)).
    { unfold to_size_t.
      replace (mEnd r - mBegin r)
        with (size_t_modulus - (mBegin r - mEnd r) + (-1) * size_t_modulus) by lia.
      rewrite Z.mod_add by (unfold size_t_modulus; lia).
      apply Z.mod_small. lia. }
    rewrite Hsz. split; [|split; [done|apply Z.ltb_lt]].
    rewrite negb_true_iff, Z.ltb_ge. lia.
Qed.

(** ** [SetOffsets] *)

Section SortPointsProperties.

Context {PointIndexT GA_Offset : Type}.
Variable indices : Z → list PointIndexT.
Variable pointOffset : PointIndexT → GA_Offset.

Local Abbreviation store := (store pointOffset).
Local Abbreviation SetOffsets := (SetOffsets indices pointOffset).
Local Abbreviation bucket_points := (bucket_points indices).



Lemma counting_seq (first last : Z) :
  0 ≤ first ≤ last → last < size_t_modulus →
  counting first last = Z.of_nat <$> seq (Z.to_nat first) (Z.to_nat (last - first)).
Proof.
  intros Hle Hlt. unfold counting.
  rewrite to_size_t_small by lia.
  rewrite <- (Nat.add_0_r (Z.to_nat first)) at 1.
  rewrite <- fmap_add_seq, <- list_fmap_compose.
  apply list_fmap_ext. intros i x Hx.
  apply lookup_seq in Hx as [-> Hx]. cbn.
  rewrite to_size_t_small by lia. lia.
Qed.

Lemma length_overwrite s (xs l : list GA_Offset) :
  (s + length xs ≤ length l)%nat → length (overwrite s xs l) = length l.
Proof.
  intros H. unfold overwrite.
  rewrite !length_app, length_take, length_drop. lia.
Qed.

Lemma overwrite_lookup s (xs l : list GA_Offset) j :
  (s + length xs ≤ length l)%nat →
  overwrite s xs l !! j =
  if decide (s ≤ j < s + length xs)%nat then xs !! (j - s)%nat else l !! j.
Proof.
  intros H. unfold overwrite.
  assert (Hs : length (take s l) = s) by (rewrite length_take; lia).
  destruct (decide (s ≤ j < s + length xs)%nat) as [Hin|Hout].
  - rewrite lookup_app_r by lia. rewrite Hs, lookup_app_l by lia. done.
  - destruct (decide (j < s)%nat) as [Hlt|Hge].
    + rewrite lookup_app_l by lia. by rewrite lookup_take_lt by lia.
    + rewrite lookup_app_r by lia. rewrite Hs, lookup_app_r by lia.
      rewrite lookup_drop. f_equal. lia.
Qed.

Lemma overwrite_app s (xs ys l : list GA_Offset) :
  (s + length xs + length ys ≤ length l)%nat →
  overwrite (s + length xs) ys (overwrite s xs l) = overwrite s (xs ++ ys) l.
Proof.
  intros H. apply list_eq. intros j.
  rewrite !overwrite_lookup; rewrite ?length_overwrite, ?length_app; try lia.
  repeat case_decide; try lia; try done.
  - rewrite lookup_app_r by lia. f_equal. lia.
  - by rewrite lookup_app_l by lia.
Qed.

Lemma overwrite_app_rev s (xs ys l : list GA_Offset) :
  (s + length xs + length ys ≤ length l)%nat →
  overwrite s xs (overwrite (s + length xs) ys l) = overwrite s (xs ++ ys) l.
Proof.
  intros H. apply list_eq. intros j.
  rewrite !overwrite_lookup; rewrite ?length_overwrite, ?length_app; try lia.
  repeat case_decide; try lia; try done.
  - by rewrite lookup_app_l by lia.
  - rewrite lookup_app_r by lia. f_equal. lia.
Qed.

Lemma overwrite_nil s (l : list GA_Offset) : overwrite s [] l = l.
Proof. unfold overwrite. cbn. rewrite Nat.add_0_r. apply take_drop. Qed.

Lemma foldl_store l arr (i : nat) :
  (i + length l ≤ length arr)%nat →
  Z.of_nat (length arr) < size_t_modulus →
  foldl store (arr, Z.of_nat i) l
  = (overwrite i (pointOffset <$> l) arr, Z.of_nat (i + length l)).
Proof.
  revert arr i. induction l as [|x l IH]; intros arr i Hfit Hsmall.
  - cbn. by rewrite overwrite_nil, Nat.add_0_r.
  - cbn [foldl length fmap list_fmap] in *. unfold store at 2. cbn [fst snd].
    rewrite Nat2Z.id, to_size_t_small by lia.
    replace (Z.of_nat i + 1) with (Z.of_nat (S i)) by lia.
    assert (Hins : <[i := pointOffset x]> arr = overwrite i [pointOffset x] arr).
    { unfold overwrite. cbn. rewrite insert_take_drop by lia.
      by replace (i + 1)%nat with (S i) by lia. }
    rewrite Hins, IH; rewrite ?length_overwrite; cbn [length]; try lia.
    f_equal; [|f_equal; lia].
    replace (S i) with (i + length [pointOffset x])%nat by (cbn; lia).
    rewrite overwrite_app; [done|]. cbn. rewrite length_fmap. lia.
Qed.

Lemma bucket_points_S a n :
  bucket_points a (S n) = indices (Z.of_nat a) ++ bucket_points (S a) n.
Proof. done. Qed.

Lemma bucket_points_app a n m :
  bucket_points a (n + m) = bucket_points a n ++ bucket_points (a + n) m.
Proof. unfold bucket_points. by rewrite seq_app, fmap_app, concat_app. Qed.

Lemma foldl_buckets n a arr (i : nat) :
  (i + length (bucket_points a n) ≤ length arr)%nat →
  Z.of_nat (length arr) < size_t_modulus →
  foldl (λ st k, foldl store st (indices k)) (arr, Z.of_nat i) (Z.of_nat <$> seq a n)
  = (overwrite i (pointOffset <$> bucket_points a n) arr,
     Z.of_nat (i + length (bucket_points a n))).
Proof.
  revert a arr i. induction n as [|n IH]; intros a arr i Hfit Hsmall.
  - cbn. by rewrite overwrite_nil, Nat.add_0_r.
  - rewrite bucket_points_S, length_app in *. cbn [seq fmap list_fmap foldl].
    rewrite foldl_store by lia.
    assert (Hfst : (i + length (pointOffset <$> indices (Z.of_nat a)) ≤ length arr)%nat).
    { rewrite length_fmap. lia. }
    rewrite IH; rewrite ?length_overwrite, ?length_fmap; try lia.
    f_equal; [|f_equal; lia].
    rewrite fmap_app.
    rewrite <- (length_fmap pointOffset (indices (Z.of_nat a))).
    apply overwrite_app. rewrite !length_fmap. lia.
Qed.

Lemma bucket_points_snoc a n :
  bucket_points a (S n) = bucket_points a n ++ indices (Z.of_nat (a + n)).
Proof.
  replace (S n) with (n + 1)%nat by lia. rewrite bucket_points_app.
  unfold bucket_points at 3. cbn. by rewrite app_nil_r.
Qed.

Lemma foldl_bucket_sizes n :
  Z.of_nat (length (bucket_points 0 n)) < size_t_modulus →
  foldl (λ idx k, to_size_t (idx + Z.of_nat (length (indices k)))) 0
    (Z.of_nat <$> seq 0 n)
  = Z.of_nat (length (bucket_points 0 n)).
Proof.
  induction n as [|n IH]; intros Hsmall; [done|].
  rewrite seq_S, fmap_app, foldl_app. cbn [fmap list_fmap foldl].
  rewrite bucket_points_snoc, length_app in *. cbn [Nat.add] in *.
  rewrite IH by lia. rewrite to_size_t_small by lia. lia.
Qed.


Lemma SetOffsets_overwrite (range : BlockedRange) arr :
  0 ≤ mBegin range ≤ mEnd range →
  mEnd range < size_t_modulus →
  Z.of_nat (length arr) < size_t_modulus →
  (length (bucket_points 0 (Z.to_nat (mEnd range))) ≤ length arr)%nat →
  SetOffsets arr range
  = overwrite (length (bucket_points 0 (Z.to_nat (mBegin range))))
      (pointOffset <$> bucket_points (Z.to_nat (mBegin range))
                         (Z.to_nat (mEnd range - mBegin range)))
      arr.
Proof.
  intros Hle Hend Hsmall Hfit.
  assert (Hsplit : bucket_points 0 (Z.to_nat (mEnd range))
                   = bucket_points 0 (Z.to_nat (mBegin range)) ++
                     bucket_points (Z.to_nat (mBegin range))
                       (Z.to_nat (mEnd range - mBegin range))).
  { rewrite <- bucket_points_app. f_equal. lia. }
  rewrite Hsplit, length_app in Hfit.
  unfold SetOffsets, BlockedRange_begin, BlockedRange_end.
  rewrite !counting_seq by lia.
  rewrite Z.sub_0_r. change (Z.to_nat 0) with 0%nat.
  rewrite foldl_bucket_sizes by lia.
  by rewrite foldl_buckets.
Qed.

(** X21: one call of [SetOffsets::operator()] on a well-formed range
    writes exactly the slots of the buckets of its range -- those that
    follow the slots of all earlier buckets -- with the offsets of their
    points, in bucket order, and leaves the rest of the array as it is. *)
Theorem SetOffsets_writes_the_slots_of_its_buckets (range : BlockedRange) arr :
  0 ≤ mBegin range ≤ mEnd range →
  mEnd range < size_t_modulus →
  Z.of_nat (length arr) < size_t_modulus →
  (length (bucket_points 0 (Z.to_nat (mEnd range))) ≤ length arr)%nat →
  let points :=
    bucket_points (Z.to_nat (mBegin range)) (Z.to_nat (mEnd range - mBegin range)) in
  let first := length (bucket_points 0 (Z.to_nat (mBegin range))) in
  SetOffsets arr range
  = take first arr ++ (pointOffset <$> points) ++ drop (first + length points) arr ∧
  length (SetOffsets arr range) = length arr.
Proof.
  intros Hle Hend Hsmall Hfit points first.
  assert (Hlen : (first + length points ≤ length arr)%nat).
  { unfold first, points. rewrite <- length_app, <- bucket_points_app.
    by replace (Z.to_nat (mBegin range) + Z.to_nat (mEnd range - mBegin range))%nat
      with (Z.to_nat (mEnd range)) by lia. }
  rewrite SetOffsets_overwrite by done. fold points first. split.
  - unfold overwrite. by rewrite length_fmap.
  - apply length_overwrite. by rewrite length_fmap.
Qed.

(** X22: the call of the operator over all buckets, as [cookVDBSop] makes
    it on an array with one slot per partitioned point, fills the array
    with the offsets of the points bucket by bucket; when the buckets hold
    the points of the input, each once, the array is a rearrangement of
    their offsets. *)
Theorem cookVDBSop_fills_the_offset_array_bucket_by_bucket (partitioner_size : Z) arr :
  0 ≤ partitioner_size < size_t_modulus →
  Z.of_nat (length arr) < size_t_modulus →
  length arr = length (bucket_points 0 (Z.to_nat partitioner_size)) →
  let sorted :=
    OPENVDB_FOR_EACH (SetOffsets arr) (BlockedRange_new 0 partitioner_size 1) in
  sorted = pointOffset <$> bucket_points 0 (Z.to_nat partitioner_size) ∧
  ∀ points, bucket_points 0 (Z.to_nat partitioner_size) ≡ₚ points →
            sorted ≡ₚ pointOffset <$> points.
Proof.
  intros Hsize Hsmall Hlen sorted.
  assert (Heq : sorted = pointOffset <$> bucket_points 0 (Z.to_nat partitioner_size)).
  { unfold sorted, OPENVDB_FOR_EACH.
    rewrite SetOffsets_overwrite; cbn [BlockedRange_new mBegin mEnd]; try lia.
    rewrite Z.sub_0_r. change (Z.to_nat 0) with 0%nat.
    unfold overwrite. cbn [bucket_points seq fmap list_fmap concat length take Nat.add app].
    rewrite length_fmap, <- Hlen, drop_all. apply app_nil_r. }
  split; [done|]. intros points Hperm. rewrite Heq. by apply fmap_Permutation.
Qed.

(** X23: calls on two adjacent ranges, in either order, leave the array
    that one call on their union leaves: a range may be split among
    threads. *)
Theorem SetOffsets_on_adjacent_ranges (a b c g1 g2 g3 : Z) arr :
  0 ≤ a ≤ b → b ≤ c → c < size_t_modulus →
  Z.of_nat (length arr) < size_t_modulus →
  (length (bucket_points 0 (Z.to_nat c)) ≤ length arr)%nat →
  let whole := SetOffsets arr (BlockedRange_new a c g3) in
  SetOffsets (SetOffsets arr (BlockedRange_new a b g1)) (BlockedRange_new b c g2) = whole ∧
  SetOffsets (SetOffsets arr (BlockedRange_new b c g2)) (BlockedRange_new a b g1) = whole.
Proof.
  intros Hab Hbc Hc Hsmall Hfit whole. unfold whole.
  set (na := Z.to_nat a). set (nab := Z.to_nat (b - a)). set (nbc := Z.to_nat (c - b)).
  assert (Hb : Z.to_nat b = (na + nab)%nat) by lia.
  assert (Hcc : Z.to_nat c = (na + nab + nbc)%nat) by lia.
  assert (Hac : Z.to_nat (c - a) = (nab + nbc)%nat) by lia.
  assert (Hfit' : (length (bucket_points 0 na) + length (bucket_points na nab)
                   + length (bucket_points (na + nab) nbc) ≤ length arr)%nat).
  { rewrite Hcc, (bucket_points_app 0 (na + nab) nbc), (bucket_points_app 0 na nab),
      !length_app in Hfit. exact Hfit. }
  assert (Hfc : length (bucket_points 0 (Z.to_nat c))
                = (length (bucket_points 0 na) + length (bucket_points na nab)
                   + length (bucket_points (na + nab) nbc))%nat).
  { rewrite Hcc, (bucket_points_app 0 (na + nab) nbc), (bucket_points_app 0 na nab),
      !length_app. done. }
  clear Hfit.
  assert (Hfb : length (bucket_points 0 (Z.to_nat b))
                = (length (bucket_points 0 na) + length (bucket_points na nab))%nat).
  { by rewrite Hb, bucket_points_app, length_app. }
  assert (H1 : SetOffsets arr (BlockedRange_new a b g1)
               = overwrite (length (bucket_points 0 na))
                   (pointOffset <$> bucket_points na nab) arr).
  { rewrite SetOffsets_overwrite; cbn [BlockedRange_new mBegin mEnd]; try lia.
    done. }
  assert (H2 : ∀ arr', length arr' = length arr →
               SetOffsets arr' (BlockedRange_new b c g2)
               = overwrite (length (bucket_points 0 na) + length (bucket_points na nab))
                   (pointOffset <$> bucket_points (na + nab) nbc) arr').
  { intros arr' Hlen.
    rewrite SetOffsets_overwrite; cbn [BlockedRange_new mBegin mEnd]; try lia.
    by rewrite Hfb, Hb. }
  assert (H3 : SetOffsets arr (BlockedRange_new a c g3)
               = overwrite (length (bucket_points 0 na))
                   (pointOffset <$> (bucket_points na nab ++ bucket_points (na + nab) nbc))
                   arr).
  { rewrite SetOffsets_overwrite; cbn [BlockedRange_new mBegin mEnd]; try lia.
    by rewrite Hac, bucket_points_app. }
  rewrite H3, fmap_app.
  rewrite <- (length_fmap pointOffset (bucket_points na nab)) in H2.
  split.
  - rewrite H1, H2 by (apply length_overwrite; rewrite length_fmap; lia).
    apply overwrite_app. rewrite !length_fmap. lia.
  - rewrite (H2 arr eq_refl).
    assert (Hlen2 : length (overwrite
               (length (bucket_points 0 na) + length (pointOffset <$> bucket_points na nab))
               (pointOffset <$> bucket_points (na + nab) nbc) arr) = length arr).
    { apply length_overwrite. rewrite !length_fmap. lia. }
    rewrite SetOffsets_overwrite; cbn [BlockedRange_new mBegin mEnd];
      rewrite ?Hlen2; try lia.
    fold na nab. apply overwrite_app_rev. rewrite !length_fmap. lia.
Qed.

End SortPointsProperties.

(** * Thread-local values *)

Section CombinableProperties.

Context {T : Type}.
Variable T_default : T.

Local Abbreviation createLocal := (createLocal T_default).
Local Abbreviation Combinable_local := (Combinable_local T_default).
Local Abbreviation call := (call T_default).
Local Abbreviation calls := (calls T_default).

Implicit Types (s : @Statics T) (c : @Call T) (cs : list (@Call T)).

Lemma deref_elem_of p s :
  p ∈ (sAllLocals s).*1 → is_Some (deref p s).
Proof.
  intros (e & -> & He)%list_elem_of_fmap. unfold deref.
  destruct (filter (λ e0, e0.1 = e.1) (sAllLocals s)) as [|x l] eqn:Hf.
  - assert (e ∈ filter (λ e0, e0.1 = e.1) (sAllLocals s)) as Hin
      by (by apply list_elem_of_filter).
    rewrite Hf in Hin. by apply not_elem_of_nil in Hin.
  - by eexists.
Qed.

Lemma locals_valid_create thread val s :
  locals_valid s → locals_valid (createLocalCopy thread val s).
Proof.
  intros [Ha Hf Hp Ho]. split; cbn.
  - rewrite fmap_app. apply NoDup_app. split; [done|]. split; [|apply NoDup_singleton].
    intros a Hin [->|Hnil]%elem_of_cons; [|by apply not_elem_of_nil in Hnil].
    apply list_elem_of_fmap in Hin as (e & Heq & Hin).
    rewrite Forall_forall in Hf. specialize (Hf e Hin). cbn in *. lia.
  - apply Forall_app. split.
    + eapply Forall_impl; [exact Hf|]. cbn. lia.
    + constructor; [cbn; lia|constructor].
  - intros t p Hl. rewrite fmap_app. apply elem_of_app.
    destruct (decide (t = thread)) as [->|Hne].
    + rewrite lookup_insert_eq in Hl. injection Hl as <-. right. cbn. apply list_elem_of_here.
    + rewrite lookup_insert_ne in Hl by done. left. by eapply Hp.
  - intros t1 t2 p H1 H2.
    assert (Hold : ∀ t, mLocal s !! t = Some p → p ≠ next_address s).
    { intros t Ht Heq. apply Hp in Ht. apply list_elem_of_fmap in Ht as (e & Heq' & Hin).
      rewrite Forall_forall in Hf. specialize (Hf e Hin). lia. }
    destruct (decide (t1 = thread)) as [->|Hne1], (decide (t2 = thread)) as [->|Hne2];
      try done.
    + rewrite lookup_insert_eq in H1. rewrite lookup_insert_ne in H2 by done.
      injection H1 as <-. by destruct (Hold t2 H2).
    + rewrite lookup_insert_eq in H2. rewrite lookup_insert_ne in H1 by done.
      injection H2 as <-. by destruct (Hold t1 H1).
    + rewrite lookup_insert_ne in H1, H2 by done. by eapply Ho.
Qed.

Lemma assign_addresses p val s : (sAllLocals (assign p val s)).*1 = (sAllLocals s).*1.
Proof.
  cbn. rewrite <- list_fmap_compose. apply list_fmap_ext. intros i e _. cbn.
  by destruct (decide (e.1 = p)).
Qed.

Lemma locals_valid_assign p val s : locals_valid s → locals_valid (assign p val s).
Proof.
  intros [Ha Hf Hp Ho]. split; rewrite ?assign_addresses; try done.
  cbn. apply Forall_fmap. eapply Forall_impl; [exact Hf|]. cbn. intros e He.
  destruct (decide (e.1 = p)) as [<-|]; done.
Qed.

Lemma locals_valid_local thread s :
  locals_valid s → locals_valid (Combinable_local thread s).2.
Proof.
  intros Hs. unfold Combinable_local. destruct (mLocal s !! thread); [done|].
  by apply locals_valid_create.
Qed.

Lemma locals_valid_call c s :
  clears c = false → locals_valid s → locals_valid (call c s).
Proof.
  intros Hc Hs. destruct c; cbn [call clears] in *; try done.
  - by apply locals_valid_create.
  - by apply locals_valid_create.
  - by apply locals_valid_create, locals_valid_create.
  - by apply locals_valid_local.
  - pose proof (locals_valid_local thread s Hs) as Hl.
    destruct (Combinable_local thread s) as [[[a|] ex] s']; cbn in *; [|done].
    by apply locals_valid_assign.
Qed.

Lemma locals_valid_calls cs s :
  Forall (λ c, clears c = false) cs → locals_valid s → locals_valid (calls cs s).
Proof.
  revert s. induction cs as [|c cs IH]; intros s Hcs Hs; [done|].
  apply Forall_cons in Hcs as [Hc Hcs]. cbn. apply IH; [done|].
  by apply locals_valid_call.
Qed.

Lemma locals_valid_new : locals_valid (@Statics_new T).
Proof. split; cbn; try done. apply NoDup_nil_2. Qed.

(** X24: as long as no [clear] and no destructor has run, [local()]
    returns a reference to an element of the list, whatever the threads
    have constructed, read and assigned before; no other thread holds a
    pointer to that element, and the list has at least as many elements
    as there are threads with a pointer. *)
Theorem Combinable_locals_are_valid_until_a_clear cs thread :
  Forall (λ c, clears c = false) cs →
  let r := Combinable_local thread (calls cs Statics_new) in
  (∃ a, r.1.1 = Some a ∧ is_Some (deref a r.2)) ∧
  (∀ other, other ≠ thread → mLocal r.2 !! other ≠ r.1.1) ∧
  (base.size (mLocal r.2) ≤ Combinable_size r.2)%nat.
Proof.
  intros Hcs r.
  assert (Hs : locals_valid (calls cs Statics_new)).
  { apply locals_valid_calls; [done|apply locals_valid_new]. }
  pose proof (locals_valid_local thread _ Hs) as Hs'. fold r in Hs'.
  assert (Hp : is_Some r.1.1 ∧ r.1.1 = mLocal r.2 !! thread).
  { unfold r, Combinable_local.
    destruct (mLocal (calls cs Statics_new) !! thread) eqn:Ht; cbn.
    - by rewrite Ht.
    - by rewrite lookup_insert_eq. }
  destruct Hp as [[a Ha] Hp]. destruct Hs' as [Hnd Hf Hv Ho].
  rewrite Ha in *. split; [|split].
  - exists a. split; [done|]. apply deref_elem_of. by eapply Hv.
  - intros other Hne Heq. apply Hne. by eapply Ho.
  - unfold Combinable_size.
    rewrite <- (length_fmap fst), <- (length_map_to_list (mLocal r.2)),
      <- (length_fmap snd (map_to_list (mLocal r.2))).
    apply submseteq_length, NoDup_submseteq.
    + apply NoDup_fmap_2_strong; [|apply NoDup_map_to_list].
      intros [t1 p1] [t2 p2] H1%elem_of_map_to_list H2%elem_of_map_to_list Heq.
      cbn in Heq. subst p2. f_equal. by eapply Ho.
    + intros p (e & -> & He)%list_elem_of_fmap. destruct e as [t p].
      apply elem_of_map_to_list in He. by eapply Hv.
Qed.

(** X25: [local()] creates the value of a thread at most once: the first
    call adds one element exactly when the thread had none, and a second
    call finds it, returns the same reference and changes nothing. *)
Theorem Combinable_local_creates_at_most_once thread s :
  let r1 := Combinable_local thread s in
  let r2 := Combinable_local thread r1.2 in
  r2 = (r1.1.1, true, r1.2) ∧
  (r1.1.2 = false ↔ mLocal s !! thread = None) ∧
  Combinable_size r1.2 = (Combinable_size s + (if r1.1.2 then 0 else 1))%nat.
Proof.
  unfold Combinable_local, Combinable_size.
  destruct (mLocal s !! thread) as [p|] eqn:Ht; cbn.
  - rewrite Ht. cbn. repeat split; try done; lia.
  - rewrite lookup_insert_eq. cbn. repeat split; try done.
    rewrite length_app. cbn. lia.
Qed.

(** X26: [clear], and so the destructor of any [Combinable], empties the
    list for all threads but resets the pointer of the calling thread
    only: another thread that had a value keeps its pointer, so that its
    next [local()] reports that the value exists and returns a reference
    to an element that is gone; the calling thread itself gets a new
    element. *)
Theorem Combinable_clear_leaves_the_pointers_of_other_threads thread other p s :
  other ≠ thread →
  mLocal s !! other = Some p →
  let s' := Combinable_clear thread s in
  Combinable_delete thread s = s' ∧
  Combinable_empty s' = true ∧
  Combinable_local other s' = (Some p, true, s') ∧
  deref p s' = None ∧
  (Combinable_local thread s').1.2 = false.
Proof.
  intros Hne Hp s'. unfold Combinable_local, s', Combinable_clear. cbn.
  rewrite lookup_delete_ne by done. rewrite Hp, lookup_delete_eq. done.
Qed.

End CombinableProperties.

(** * Instances for ranges, the point-sorting operator and thread-local values *)

(** A range whose end lies before its begin. *)
Lemma BlockedRange_size_of_well_formed_and_reversed_ranges_witness :
  let r := BlockedRange_new 5 3 1 in
  0 ≤ mBegin r < size_t_modulus ∧
  0 ≤ mEnd r < size_t_modulus ∧
  0 ≤ mGrainSize r ∧
  (mEnd r < mBegin r →
   BlockedRange_empty r = true ∧
   BlockedRange_size r = size_t_modulus - (mBegin r - mEnd r) ∧
   (BlockedRange_is_divisible r = true ↔
    mGrainSize r < size_t_modulus - (mBegin r - mEnd r))).
Proof.
  intros r.
  assert (Hb : 0 ≤ mBegin r < size_t_modulus) by (cbn; unfold size_t_modulus; lia).
  assert (He : 0 ≤ mEnd r < size_t_modulus) by (cbn; unfold size_t_modulus; lia).
  assert (Hg : 0 ≤ mGrainSize r) by (cbn; lia).
  split; [exact Hb|]. split; [exact He|]. split; [exact Hg|].
  exact (proj2 (BlockedRange_size_of_well_formed_and_reversed_ranges r Hb He Hg)).
Defined.

(** Two buckets, of two points and of one; the call on the second bucket
    writes the last slot. *)
Lemma SetOffsets_writes_the_slots_of_its_buckets_witness :
  let indices := λ n : Z, if n =? 0 then [10; 11] else if n =? 1 then [12] else [] in
  let pointOffset := λ i : Z, i + 100 in
  let arr := [0; 0; 0] in
  let range := BlockedRange_new 1 2 1 in
  0 ≤ mBegin range ≤ mEnd range ∧
  mEnd range < size_t_modulus ∧
  Z.of_nat (length arr) < size_t_modulus ∧
  (length (bucket_points indices 0 (Z.to_nat (mEnd range))) ≤ length arr)%nat ∧
  length (SetOffsets indices pointOffset arr range) = length arr.
Proof.
  intros indices pointOffset arr range.
  assert (Hle : 0 ≤ mBegin range ≤ mEnd range) by (cbn; lia).
  assert (Hend : mEnd range < size_t_modulus) by reflexivity.
  assert (Hsmall : Z.of_nat (length arr) < size_t_modulus) by reflexivity.
  assert (Hfit : (length (bucket_points indices 0 (Z.to_nat (mEnd range)))
                  ≤ length arr)%nat) by (vm_compute; lia).
  split; [exact Hle|]. split; [exact Hend|]. split; [exact Hsmall|].
  split; [exact Hfit|].
  exact (proj2 (SetOffsets_writes_the_slots_of_its_buckets
                  indices pointOffset range arr Hle Hend Hsmall Hfit)).
Defined.

Lemma cookVDBSop_fills_the_offset_array_bucket_by_bucket_witness :
  let indices := λ n : Z, if n =? 0 then [10; 11] else if n =? 1 then [12] else [] in
  let pointOffset := λ i : Z, i + 100 in
  let arr := [0; 0; 0] in
  0 ≤ 2 < size_t_modulus ∧
  Z.of_nat (length arr) < size_t_modulus ∧
  length arr = length (bucket_points indices 0 (Z.to_nat 2)) ∧
  OPENVDB_FOR_EACH (SetOffsets indices pointOffset arr) (BlockedRange_new 0 2 1)
  = pointOffset <$> bucket_points indices 0 (Z.to_nat 2).
Proof.
  intros indices pointOffset arr.
  assert (Hsize : 0 ≤ 2 < size_t_modulus) by (unfold size_t_modulus; lia).
  assert (Hsmall : Z.of_nat (length arr) < size_t_modulus) by reflexivity.
  assert (Hlen : length arr = length (bucket_points indices 0 (Z.to_nat 2)))
    by reflexivity.
  split; [exact Hsize|]. split; [exact Hsmall|]. split; [exact Hlen|].
  exact (proj1 (cookVDBSop_fills_the_offset_array_bucket_by_bucket
                  indices pointOffset 2 arr Hsize Hsmall Hlen)).
Defined.

Lemma SetOffsets_on_adjacent_ranges_witness :
  let indices := λ n : Z, if n =? 0 then [10; 11] else if n =? 1 then [12] else [] in
  let pointOffset := λ i : Z, i + 100 in
  let arr := [0; 0; 0] in
  0 ≤ 0 ≤ 1 ∧ 1 ≤ 2 ∧ 2 < size_t_modulus ∧
  Z.of_nat (length arr) < size_t_modulus ∧
  (length (bucket_points indices 0 (Z.to_nat 2)) ≤ length arr)%nat ∧
  SetOffsets indices pointOffset
    (SetOffsets indices pointOffset arr (BlockedRange_new 1 2 1)) (BlockedRange_new 0 1 1)
  = SetOffsets indices pointOffset arr (BlockedRange_new 0 2 1).
Proof.
  intros indices pointOffset arr.
  assert (Hab : 0 ≤ 0 ≤ 1) by lia.
  assert (Hbc : 1 ≤ 2) by lia.
  assert (Hc : 2 < size_t_modulus) by reflexivity.
  assert (Hsmall : Z.of_nat (length arr) < size_t_modulus) by reflexivity.
  assert (Hfit : (length (bucket_points indices 0 (Z.to_nat 2)) ≤ length arr)%nat)
    by (vm_compute; lia).
  split; [exact Hab|]. split; [exact Hbc|]. split; [exact Hc|].
  split; [exact Hsmall|]. split; [exact Hfit|].
  exact (proj2 (SetOffsets_on_adjacent_ranges
                  indices pointOffset 0 1 2 1 1 1 arr Hab Hbc Hc Hsmall Hfit)).
Defined.

(** Thread 0 constructs a [Combinable], thread 1 assigns to its value. *)
Lemma Combinable_locals_are_valid_until_a_clear_witness :
  let cs := [CallNew 0; CallAssignLocal 1 7; CallNewCopy 0 9] in
  let r := Combinable_local 0 1%nat (calls 0 cs Statics_new) in
  Forall (λ c, clears c = false) cs ∧
  ∃ a, r.1.1 = Some a ∧ is_Some (deref a r.2).
Proof.
  intros cs r.
  assert (Hcs : Forall (λ c, clears c = false) cs) by (repeat constructor).
  split; [exact Hcs|].
  exact (proj1 (Combinable_locals_are_valid_until_a_clear 0 cs 1%nat Hcs)).
Defined.

(** Thread 0 constructs a [Combinable], thread 1 takes its value, thread
    0 clears. *)
Lemma Combinable_clear_leaves_the_pointers_of_other_threads_witness :
  let s := calls 0 [CallNew 0; CallLocal 1] Statics_new in
  let s' := Combinable_clear 0 s in
  1%nat ≠ 0%nat ∧
  mLocal s !! 1%nat = Some 1%nat ∧
  Combinable_local 0 1%nat s' = (Some 1%nat, true, s') ∧
  deref 1 s' = None.
Proof.
  intros s s'.
  assert (Hne : 1%nat ≠ 0%nat) by lia.
  assert (Hp : mLocal s !! 1%nat = Some 1%nat) by (vm_compute; reflexivity).
  split; [exact Hne|]. split; [exact Hp|].
  pose proof (Combinable_clear_leaves_the_pointers_of_other_threads
                0 0%nat 1%nat 1%nat s Hne Hp) as H.
  exact (conj (proj1 (proj2 (proj2 H))) (proj1 (proj2 (proj2 (proj2 H))))).
Defined.
